(** * godocker: the directory-to-tar streaming reader (tar_dir_reader.go)

    A shallow embedding of [tarDirReader]: the one-time initialisation that
    walks the directory, the goroutine that serialises the queued files into
    a [tar.Writer] sitting on an [io.Pipe], and [Read], which pulls the bytes
    out of the other end of the pipe.

    The Go standard library ([io/fs], [io], [archive/tar], [path/filepath])
    is not part of the repository; the parts the reader relies on are
    modelled from their documented behaviour, each next to the place where
    the repository's code calls it.

    The second part embeds godocker.go: the options, the build or pull of
    an image, and the run of a container with its runners, against an
    outside world (the Docker client, the system, the caller's functions)
    whose answers are a parameter. *)

From Stdlib Require Import Ascii String.
From stdpp Require Import base list strings pretty gmap.

Local Open Scope string_scope.
Local Open Scope nat_scope.
Local Open Scope list_scope.

(** ** Bytes, chunks and errors *)

Abbreviation byte := Byte.byte.

(** One call of [Write] on the pipe carries one slice of bytes. *)
Definition chunk : Type := list byte.

Definition blockSize : nat := 512.
Definition zeroBlock : chunk := replicate blockSize Byte.x00.
Arguments zeroBlock : simpl never.

(** Go's [error] values that can travel through this code.  [SkipDir] and
    [SkipAll] are the sentinels of [io/fs]; [PathError] stands for whatever
    the operating system reports ([op], path, reason); [RuntimeError] is
    the value of a panic raised by the Go runtime. *)
Inductive error : Type :=
| EOF
| SkipDir
| SkipAll
| ErrClosedPipe
| ErrWriteTooLong
| ErrWriteAfterClose
| ErrShortWrite
| ErrMissedWriting (nb : nat)
| ErrSocketsNotSupported
| ErrUnknownFileMode
| ErrHeader (msg : string)
| PathError (op path msg : string)
| RuntimeError (msg : string).

#[global] Instance error_eq_dec : EqDecision error.
Proof. solve_decision. Defined.

(** ** The file system seen through [fs.FS] *)

(** What a directory entry can be when it is not a directory. *)
Inductive LeafType : Type :=
| Regular | Symlink | NamedPipe | Socket | CharDevice | BlockDevice | Irregular.

#[global] Instance LeafType_eq_dec : EqDecision LeafType.
Proof. solve_decision. Defined.

(** The tree that [fs.WalkDir] explores.  A directory holds what
    [fs.ReadDir] returns for it: the entries (which [os.ReadDir] sorts by
    file name) and possibly an error. *)
#[local] Unset Elimination Schemes.
Inductive Node : Type :=
| Leaf (ty : LeafType)
| Dir (entries : list (string * Node)) (rderr : option error).
#[local] Set Elimination Schemes.

Definition IsDir (d : Node) : bool :=
  match d with Leaf _ => false | Dir _ _ => true end.

(** The type bits of a [fs.FileMode] as [file.Stat] reports them. *)
Inductive FileType : Type :=
| TRegular | TDirectory | TSymlink | TNamedPipe | TSocket
| TCharDevice | TBlockDevice | TIrregular.

Record FileInfo : Type := mkFileInfo {
  fi_name : string;
  fi_size : nat;
  fi_perm : N;
  fi_modtime : Z;
  fi_type : FileType;
}.

(** An open [fs.File]: the answer of [Stat], and the answers of the
    successive [Read] calls that [io.Copy] makes: some slices, then either
    [io.EOF] ([None]) or an error. *)
Record File : Type := mkFile {
  f_stat : error + FileInfo;
  f_reads : list chunk;
  f_fail : option error;
}.

(** [fs_root] answers [fs.Stat(fsys, ".")] and the [ReadDir]s below it at
    the time of the walk; [fs_open] answers [Open] at the later time at which
    the goroutine reaches that path.  Nothing ties the two together: the
    directory may have changed in between. *)
Record FS : Type := mkFS {
  fs_root : error + Node;
  fs_open : string → error + File;
}.

(** ** path/filepath and path *)

Definition isPathSeparator (c : ascii) : bool := Ascii.eqb c "/"%char.

Fixpoint dropWhile {A} (p : A → bool) (l : list A) : list A :=
  match l with
  | [] => []
  | x :: r => if p x then dropWhile p r else l
  end.

Fixpoint takeWhile {A} (p : A → bool) (l : list A) : list A :=
  match l with
  | [] => []
  | x :: r => if p x then x :: takeWhile p r else []
  end.

(** [filepath.Base] on a Unix path (no volume name).  The two loops of the
    Go function run from the end of the string, so they are written on the
    reversed list of characters. *)
Definition Base (path : string) : string :=
  if decide (path = EmptyString) then "."
  else
    (* Strip trailing slashes. *)
    let stripped := dropWhile isPathSeparator (reverse (list_ascii_of_string path)) in
    (* Find the last element. *)
    let last := reverse (takeWhile (λ c, negb (isPathSeparator c)) stripped) in
    (* If empty now, it had only slashes. *)
    if decide (last = []) then "/" else string_of_list_ascii last.

(** [path.Join(name, elem)] for the arguments [walkDir] passes: [name] is
    the root ["."] or a path below it, [elem] a plain file name; [Clean]
    then only removes the leading ["./"]. *)
Definition Join (name elem : string) : string :=
  if decide (name = ".") then elem else name +:+ "/" +:+ elem.

(** ** io/fs.WalkDir *)

Section WalkDir.
Context {S : Type}.

(** [fs.WalkDirFunc], with the state the closure captures made explicit.
    The [DirEntry] argument is [nil] when the root could not be
    stat-ed. *)
Definition WalkDirFunc : Type :=
  string → option Node → option error → S → S * option error.

Fixpoint walkDir (name : string) (d : Node) (walkDirFn : WalkDirFunc)
    (s : S) {struct d} : S * option error :=
  let '(s, err) := walkDirFn name (Some d) None s in
  match err with
  | Some e =>
      if bool_decide (e = SkipDir) && IsDir d then (s, None) else (s, Some e)
  | None =>
      match d with
      | Leaf _ => (s, None)
      | Dir dirs rderr =>
          (* Second call, to report ReadDir error. *)
          let '(s, err) :=
            match rderr with
            | Some e => walkDirFn name (Some d) (Some e) s
            | None => (s, None)
            end in
          match err with
          | Some e => if decide (e = SkipDir) then (s, None) else (s, Some e)
          | None =>
              (fix range (l : list (string * Node)) (s : S) : S * option error :=
                 match l with
                 | [] => (s, None)
                 | (n1, d1) :: l =>
                     let '(s, err) := walkDir (Join name n1) d1 walkDirFn s in
                     match err with
                     | Some e =>
                         if decide (e = SkipDir) then (s, None) else (s, Some e)
                     | None => range l s
                     end
                 end) dirs s
          end
      end
  end.

Definition WalkDir (fsys : FS) (root : string) (fn : WalkDirFunc)
    (s : S) : S * option error :=
  let '(s, err) :=
    match fs_root fsys with
    | inl e => fn root None (Some e) s
    | inr d => walkDir root d fn s
    end in
  match err with
  | Some e =>
      if bool_decide (e = SkipDir) || bool_decide (e = SkipAll) then (s, None)
      else (s, Some e)
  | None => (s, None)
  end.
End WalkDir.

(** ** archive/tar: headers *)

Inductive TypeFlag : Type :=
| TypeReg | TypeDir | TypeSymlink | TypeChar | TypeBlock | TypeFifo.

#[global] Instance TypeFlag_eq_dec : EqDecision TypeFlag.
Proof. solve_decision. Defined.

Record Header : Type := mkHeader {
  Typeflag : TypeFlag;
  Name : string;
  Linkname : string;
  Size : nat;
  Mode : N;
  ModTime : Z;
}.

(** [tar.FileInfoHeader(fi, link)].  [fi_perm] stands for the permission
    bits as tar stores them (with setuid, setgid and sticky); owner, group
    and device numbers, which the reader never looks at, are left out of
    [Header]. *)
Definition FileInfoHeader (fi : FileInfo) (link : string) : error + Header :=
  let h := {| Typeflag := TypeReg; Name := fi_name fi; Linkname := EmptyString;
              Size := 0; Mode := fi_perm fi;
              ModTime := fi_modtime fi |} in
  match fi_type fi with
  | TRegular =>
      inr {| Typeflag := TypeReg; Name := Name h; Linkname := Linkname h;
             Size := fi_size fi; Mode := Mode h; ModTime := ModTime h |}
  | TDirectory =>
      inr {| Typeflag := TypeDir; Name := Name h +:+ "/"; Linkname := Linkname h;
             Size := Size h; Mode := Mode h; ModTime := ModTime h |}
  | TSymlink =>
      inr {| Typeflag := TypeSymlink; Name := Name h; Linkname := link;
             Size := Size h; Mode := Mode h; ModTime := ModTime h |}
  | TCharDevice =>
      inr {| Typeflag := TypeChar; Name := Name h; Linkname := Linkname h;
             Size := Size h; Mode := Mode h; ModTime := ModTime h |}
  | TBlockDevice =>
      inr {| Typeflag := TypeBlock; Name := Name h; Linkname := Linkname h;
             Size := Size h; Mode := Mode h; ModTime := ModTime h |}
  | TNamedPipe =>
      inr {| Typeflag := TypeFifo; Name := Name h; Linkname := Linkname h;
             Size := Size h; Mode := Mode h; ModTime := ModTime h |}
  | TSocket => inl ErrSocketsNotSupported
  | TIrregular => inl ErrUnknownFileMode
  end.

(** [header.Name = ...]: assignment to the one field. *)
Definition setName (h : Header) (name : string) : Header :=
  {| Typeflag := Typeflag h; Name := name; Linkname := Linkname h;
     Size := Size h; Mode := Mode h; ModTime := ModTime h |}.

Definition isHeaderOnlyType (flag : TypeFlag) : bool :=
  match flag with
  | TypeReg => false
  | TypeDir | TypeSymlink | TypeChar | TypeBlock | TypeFifo => true
  end.

(** [blockPadding(offset)]: [-offset & (blockSize - 1)]. *)
Definition blockPadding (offset : nat) : nat :=
  (blockSize - offset mod blockSize) mod blockSize.

(** ** The goroutine's world *)

(** [tar.Writer]: padding owed for the current entry, bytes the current
    entry still expects ([curr]), and the sticky error. *)
Record Writer : Type := mkWriter {
  pad : nat;
  curr : nat;
  err : option error;
}.

(** [tar.NewWriter(w)]. *)
Definition NewWriter : Writer := {| pad := 0; curr := 0; err := None |}.

(** Everything the producing goroutine acts on.  [written] lists the
    [Write] calls made on the [PipeWriter], oldest first, and [wclosed]
    tells whether it called [Close].  [entries] is a ghost record of the
    archive as a tar reader would list it: the headers accepted by
    [WriteHeader], each with the content bytes written under it. *)
Record World : Type := mkWorld {
  written : list chunk;
  wclosed : bool;
  archive : Writer;
  entries : list (Header * list byte);
  handles : list string;
  stdout : list string;
}.

Definition World0 : World :=
  {| written := []; wclosed := false; archive := NewWriter;
     entries := []; handles := []; stdout := [] |}.

Definition setWritten (l : list chunk) (w : World) : World :=
  {| written := l; wclosed := wclosed w; archive := archive w;
     entries := entries w; handles := handles w; stdout := stdout w |}.
Definition setWclosed (b : bool) (w : World) : World :=
  {| written := written w; wclosed := b; archive := archive w;
     entries := entries w; handles := handles w; stdout := stdout w |}.
Definition setArchive (tw : Writer) (w : World) : World :=
  {| written := written w; wclosed := wclosed w; archive := tw;
     entries := entries w; handles := handles w; stdout := stdout w |}.
Definition setEntries (l : list (Header * list byte)) (w : World) : World :=
  {| written := written w; wclosed := wclosed w; archive := archive w;
     entries := l; handles := handles w; stdout := stdout w |}.
Definition setHandles (l : list string) (w : World) : World :=
  {| written := written w; wclosed := wclosed w; archive := archive w;
     entries := entries w; handles := l; stdout := stdout w |}.
Definition Println (line : string) (w : World) : World :=
  {| written := written w; wclosed := wclosed w; archive := archive w;
     entries := entries w; handles := handles w; stdout := stdout w ++ [line] |}.

(** Go functions that return [(T, error)] and act on the world. *)
Definition M (A : Type) : Type := World → World * (error + A).

Definition ret {A} (a : A) : M A := λ w, (w, inr a).
Definition throw {A} (e : error) : M A := λ w, (w, inl e).
Definition bind {A B} (m : M A) (k : A → M B) : M B :=
  λ w, match m w with
       | (w', inl e) => (w', inl e)
       | (w', inr a) => k a w'
       end.
Definition lift {A} (r : error + A) : M A := λ w, (w, r).
Definition modify (f : World → World) : M unit := λ w, (f w, inr ()).

(** [defer cleanup] at the top of a function body: [cleanup] runs when the
    body returns, whatever it returns. *)
Definition defer {A} (cleanup : World → World) (body : M A) : M A :=
  λ w, let '(w', r) := body w in (cleanup w', r).

Declare Scope go_scope.
Delimit Scope go_scope with go.
Notation "x <- m ;; k" := (bind m (λ x, k))
  (at level 100, m at next level, right associativity) : go_scope.
Notation "m ;; k" := (bind m (λ _, k))
  (at level 100, right associativity) : go_scope.
Local Open Scope go_scope.

(** ** io.Pipe, write end *)

(** [PipeWriter.Write(b)].  It returns once readers have taken all of [b];
    a reader is never closed in this program, so it can only fail after the
    writer itself closed the pipe. *)
Definition pipeWrite (b : chunk) : M nat :=
  λ w, if wclosed w then (w, inl ErrClosedPipe)
       else (setWritten (written w ++ [b]) w, inr (length b)).

(** [PipeWriter.Close()]: always returns nil. *)
Definition pipeClose : M unit := modify (setWclosed true).

(** ** The reader object *)

(** How the goroutine ended. *)
Inductive Outcome : Type :=
| Returned
| Panicked (e : error).

(** What becomes of the write end of the pipe once the writes in flight
    are drained: nobody writes or closes ([Idle]), it was closed
    ([Closed]), or the process dies of a panic ([Dead]). *)
Inductive WriteEnd : Type :=
| Idle
| Closed
| Dead (e : error).

(** The pipe as the reading side meets it.  [pending] holds the writes the
    other side makes, in order; the head is the write currently blocked in
    the rendezvous, cut down to the bytes no reader has taken yet. *)
Record Pipe : Type := mkPipe {
  pending : list chunk;
  wend : WriteEnd;
}.

(** [tarDirReader].  The fields [writer] and [archive] are created by
    [init] and afterwards used by the goroutine only; they are the
    [written]/[wclosed] and [archive] components of the goroutine's
    [World], which starts as [World0].

    [goroutine] records the run started by [go t.writeQueue()].  The
    goroutine meets the rest of the program only in the pipe, where its
    writes wait for a reader and, the read end never being closed, cannot
    fail; so what it does is decided by the queue and by what [Open]
    answers, and its run is recorded whole when it is started.  [reader]
    then hands the writes out one by one: a write that no reader has
    drained keeps the goroutine where it is. *)
Record tarDirReader : Type := mkTarDirReader {
  fs : FS;
  queue : list string;
  reader : option Pipe;
  goroutine : option (World * Outcome);
  initialized : bool;
}.

Definition NewTarDirReader (dir : FS) : tarDirReader :=
  {| fs := dir; queue := []; reader := None; goroutine := None;
     initialized := false |}.

Definition setQueue (q : list string) (t : tarDirReader) : tarDirReader :=
  {| fs := fs t; queue := q; reader := reader t; goroutine := goroutine t;
     initialized := initialized t |}.
Definition setReader (p : option Pipe) (t : tarDirReader) : tarDirReader :=
  {| fs := fs t; queue := queue t; reader := p; goroutine := goroutine t;
     initialized := initialized t |}.
Definition setGoroutine (g : option (World * Outcome)) (t : tarDirReader) : tarDirReader :=
  {| fs := fs t; queue := queue t; reader := reader t; goroutine := g;
     initialized := initialized t |}.
Definition setInitialized (b : bool) (t : tarDirReader) : tarDirReader :=
  {| fs := fs t; queue := queue t; reader := reader t; goroutine := goroutine t;
     initialized := b |}.

(** What a call of [Read] does, seen by its caller: it returns [(n, err)]
    with the [n] bytes it put into the buffer, or it never returns because
    nothing will ever arrive ([Blocks]), or it never returns because the
    process is ended by a panic of the goroutine ([ProcessPanics]).  A
    panic raised after the last write was drained is met by the next
    [Read]; the process may well be gone before that. *)
Inductive ReadResult : Type :=
| Returns (data : list byte) (err : option error)
| Blocks
| ProcessPanics (e : error).

Definition NilDereference : error :=
  RuntimeError "invalid memory address or nil pointer dereference".

(** [PipeReader.Read(b)] with [len(b) = n]: take what fits from the write
    at the head; that write returns when nothing of it is left.  A write of
    no bytes still meets one read. *)
Definition pipeRead (p : Pipe) (n : nat) : Pipe * ReadResult :=
  match pending p with
  | bw :: rest =>
      let nr := n `min` length bw in
      let bw' := drop nr bw in
      ({| pending := if decide (bw' = []) then rest else bw' :: rest;
          wend := wend p |},
       Returns (take nr bw) None)
  | [] =>
      match wend p with
      | Closed => (p, Returns [] (Some EOF))
      | Dead e => (p, ProcessPanics e)
      | Idle => (p, Blocks)
      end
  end.

Section Producer.

(** The format-specific part of [tar.Writer.WriteHeader]: for a header
    that fits one of USTAR, PAX or GNU, the writes it issues on the
    underlying writer, in order (for USTAR the empty write of a [Flush] and
    the 512-byte header block); otherwise the error of
    [allowedFormats]. *)
Variable formatHeader : Header → error + list chunk.

(** *** archive/tar.Writer *)

Definition getArchive : M Writer := λ w, (w, inr (archive w)).
Definition putArchive (tw : Writer) : M unit := modify (setArchive tw).

(** [tw.err = f(); return tw.err] *)
Definition sticky (m : M unit) : M unit :=
  λ w, match m w with
       | (w', inl e) =>
           (setArchive {| pad := pad (archive w'); curr := curr (archive w');
                          err := Some e |} w', inl e)
       | (w', inr tt) => (w', inr tt)
       end.

Definition Flush : M unit :=
  tw <- getArchive ;;
  match err tw with
  | Some e => throw e
  | None =>
      if 0 <? curr tw then throw (ErrMissedWriting (curr tw))
      else
        sticky (pipeWrite (take (pad tw) zeroBlock) ;; ret ()) ;;
        tw <- getArchive ;;
        putArchive {| pad := 0; curr := curr tw; err := err tw |}
  end.

Fixpoint writeAll (blocks : list chunk) : M unit :=
  match blocks with
  | [] => ret ()
  | b :: blocks => pipeWrite b ;; writeAll blocks
  end.

(** [ModTime.Round(time.Second)], times in nanoseconds. *)
Definition roundSecond (t : Z) : Z :=
  let r := (t mod 1000000000)%Z in
  if (2 * r <? 1000000000)%Z then (t - r)%Z else (t + (1000000000 - r))%Z.

(** [tw.hdr = *hdr] with [tw.hdr.ModTime] rounded: the header as
    [WriteHeader] stores and formats it. *)
Definition stored (hdr : Header) : Header :=
  {| Typeflag := Typeflag hdr; Name := Name hdr; Linkname := Linkname hdr;
     Size := Size hdr; Mode := Mode hdr;
     ModTime := roundSecond (ModTime hdr) |}.

Definition WriteHeader (hdr : Header) : M unit :=
  Flush ;;
  let hdr := stored hdr in
  match formatHeader hdr with
  | inl e => throw e
  | inr blocks =>
      sticky (
        writeAll blocks ;;
        let size := if isHeaderOnlyType (Typeflag hdr) then 0 else Size hdr in
        tw <- getArchive ;;
        putArchive {| pad := blockPadding size; curr := size; err := err tw |} ;;
        modify (λ w, setEntries (entries w ++ [(hdr, [])]) w))
  end.

Fixpoint appendData (b : list byte) (es : list (Header * list byte))
    : list (Header * list byte) :=
  match es with
  | [] => []
  | [(h, d)] => [(h, d ++ b)]
  | e :: es => e :: appendData b es
  end.

(** [tar.Writer.Write], with [regFileWriter.Write] inlined. *)
Definition Write (b : chunk) : M nat :=
  tw <- getArchive ;;
  match err tw with
  | Some e => throw e
  | None =>
      let overwrite := curr tw <? length b in
      let b := if overwrite then take (curr tw) b else b in
      λ w,
        let '(w, r) :=
          if 0 <? length b then
            match pipeWrite b w with
            | (w, inr n) =>
                (setEntries (appendData b (entries w))
                   (setArchive {| pad := pad tw; curr := curr tw - n;
                                  err := err tw |} w), inr n)
            | (w, inl e) => (w, inl e)
            end
          else (w, inr 0) in
        match r with
        | inl e =>
            (setArchive {| pad := pad (archive w); curr := curr (archive w);
                           err := Some e |} w, inl e)
        | inr n => if overwrite then (w, inl ErrWriteTooLong) else (w, inr n)
        end
  end.

(** [tar.Writer.Close]. *)
Definition Close : M unit :=
  tw <- getArchive ;;
  if decide (err tw = Some ErrWriteAfterClose) then ret ()
  else match err tw with
       | Some e => throw e
       | None =>
           λ w,
             let '(w, r) :=
               (Flush ;; pipeWrite zeroBlock ;; pipeWrite zeroBlock ;; ret ()) w in
             (setArchive {| pad := pad (archive w); curr := curr (archive w);
                            err := Some ErrWriteAfterClose |} w, r)
       end.

(** *** io.Copy(t.archive, file) *)

Fixpoint copyBuffer (reads : list chunk) (fail : option error) (written : nat)
    : M nat :=
  match reads with
  | buf :: reads =>
      let nr := length buf in
      if 0 <? nr then
        nw <- Write buf ;;
        if decide (nr = nw) then copyBuffer reads fail (written + nw)
        else throw ErrShortWrite
      else copyBuffer reads fail written
  | [] =>
      match fail with
      | Some er => if decide (er = EOF) then ret written else throw er
      | None => ret written
      end
  end.

Definition Copy (file : File) : M nat :=
  copyBuffer (f_reads file) (f_fail file) 0.

(** *** fs.File *)

Definition Open (fsys : FS) (f : string) : M File :=
  file <- lift (fs_open fsys f) ;;
  modify (λ w, setHandles (f :: handles w) w) ;;
  ret file.

Fixpoint remove1 (f : string) (l : list string) : list string :=
  match l with
  | [] => []
  | g :: l => if decide (f = g) then l else g :: remove1 f l
  end.

(** [file.Close()]; its result is dropped by the [defer]. *)
Definition fileClose (f : string) (w : World) : World :=
  setHandles (remove1 f (handles w)) w.

(** *** tar_dir_reader.go *)

Definition writeFile (t : tarDirReader) (f : string) : M unit :=
  file <- Open (fs t) f ;;
  defer (fileClose f) (
    info <- lift (f_stat file) ;;
    header <- lift (FileInfoHeader info EmptyString) ;;
    let header := setName header (Base f) in
    WriteHeader header ;;
    Copy file ;;
    Flush).

(** [for _, f := range t.queue { ... }] *)
Fixpoint rangeQueue (t : tarDirReader) (q : list string) (w : World)
    : World * Outcome :=
  match q with
  | f :: q =>
      let w := Println ("writing file to tar " +:+ f) w in
      match writeFile t f w with
      | (w, inl err) => (w, Panicked err)
      | (w, inr _) => rangeQueue t q w
      end
  | [] => (w, Returned)
  end.

Definition writeQueue (t : tarDirReader) (w : World) : World * Outcome :=
  match rangeQueue t (queue t) w with
  | (w, Panicked e) => (w, Panicked e)
  | (w, Returned) =>
      match Close w with
      | (w, inl err) => (w, Panicked err)
      | (w, inr _) =>
          match pipeClose w with
          | (w, inl err) => (w, Panicked err)
          | (w, inr _) => (Println "writing complete" w, Returned)
          end
      end
  end.

(** The pipe as [Read] finds it once the goroutine is running. *)
Definition attach (run : World * Outcome) : Pipe :=
  {| pending := written (fst run);
     wend := if wclosed (fst run) then Closed
             else match snd run with
                  | Panicked e => Dead e
                  | Returned => Idle
                  end |}.

Definition collect : @WalkDirFunc tarDirReader :=
  λ path d err t,
    match err with
    | Some e => (t, Some e)
    | None =>
        (* TODO: some kind of filtering using .ignore files *)
        match d with
        | Some d =>
            if negb (IsDir d) then (setQueue (queue t ++ [path]) t, None)
            else (t, None)
        | None => (t, None) (* not reached: [d] is nil only with an error *)
        end
    end.

Definition init (t : tarDirReader) : tarDirReader * option error :=
  if initialized t then (t, None)
  else
    let t := setInitialized true t in
    let t := setReader (Some {| pending := []; wend := Idle |}) t in
    let '(t, err) := WalkDir (fs t) "." collect t in
    match err with
    | Some e => (t, Some e)
    | None =>
        let run := writeQueue t World0 in
        (setReader (Some (attach run)) (setGoroutine (Some run) t), None)
    end.

Definition Read (t : tarDirReader) (len_p : nat) : tarDirReader * ReadResult :=
  let '(t, err) := init t in
  match err with
  | Some e => (t, Returns [] (Some e))
  | None =>
      match reader t with
      | Some p =>
          let '(p, r) := pipeRead p len_p in
          (setReader (Some p) t, r)
      | None => (t, ProcessPanics NilDereference)
      end
  end.

End Producer.

(** ** A consumer *)

(** How a series of reads ended. *)
Inductive Ending : Type :=
| StillOpen (t : tarDirReader)
| Ended (e : error)
| Hung
| Crashed (e : error).

Section Consumer.
Variable formatHeader : Header → error + list chunk.

(** Call [Read] with buffers of the given lengths, one after the other,
    until one of the calls does not come back with [err == nil]; the
    bytes received are collected in order. *)
Fixpoint readAll (t : tarDirReader) (sizes : list nat) : list byte * Ending :=
  match sizes with
  | [] => ([], StillOpen t)
  | n :: sizes =>
      match Read formatHeader t n with
      | (t, Returns data None) =>
          let '(more, e) := readAll t sizes in (data ++ more, e)
      | (_, Returns data (Some e)) => (data, Ended e)
      | (_, Blocks) => ([], Hung)
      | (_, ProcessPanics e) => ([], Crashed e)
      end
  end.
End Consumer.

(** ** Sample data *)

(** A stand-in for the header formatter, used to run the model: a header
    block that holds the name, NUL-padded to one block, after the empty
    write of the [Flush] in [writeRawHeader]; names over 100 bytes are
    refused. *)
Definition nameBlockFormat (h : Header) : error + list chunk :=
  if 100 <? String.length (Name h) then inl (ErrHeader "name too long")
  else inr [[]; take blockSize
                  (map byte_of_ascii (list_ascii_of_string (Name h)) ++ zeroBlock)].

Definition bytesOf (s : string) : list byte :=
  map byte_of_ascii (list_ascii_of_string s).

Definition regularFile (name content : string) : File :=
  {| f_stat := inr {| fi_name := name; fi_size := String.length content;
                      fi_perm := 420%N; fi_modtime := 0; fi_type := TRegular |};
     f_reads := [bytesOf content];
     f_fail := None |}.

Definition ErrNotExist (op path : string) : error :=
  PathError op path "no such file or directory".

Definition sampleTree : Node :=
  Dir [("Dockerfile", Leaf Regular);
       ("app", Dir [("main.go", Leaf Regular)] None);
       ("lib", Dir [("main.go", Leaf Regular)] None)] None.

Definition sampleOpen (f : string) : error + File :=
  if decide (f = "Dockerfile") then inr (regularFile "Dockerfile" "FROM scratch")
  else if decide (f = "app/main.go") then inr (regularFile "main.go" "package app")
  else if decide (f = "lib/main.go") then inr (regularFile "main.go" "package lib")
  else inl (ErrNotExist "open" f).

Definition sampleFS : FS := {| fs_root := inr sampleTree; fs_open := sampleOpen |}.

(** ** The walk, as the specification words it *)

(** Pre-order listing of the paths of all entries below [d] that are not
    directories, [name] being the path of [d]. *)
Fixpoint nonDirectories (name : string) (d : Node) : list string :=
  match d with
  | Leaf _ => [name]
  | Dir dirs _ =>
      (fix below (l : list (string * Node)) : list string :=
         match l with
         | [] => []
         | (n1, d1) :: l => nonDirectories (Join name n1) d1 ++ below l
         end) dirs
  end.

(** Pre-order listing of the paths of the regular files below [d]. *)
Fixpoint regularFiles (name : string) (d : Node) : list string :=
  match d with
  | Leaf Regular => [name]
  | Leaf _ => []
  | Dir dirs _ =>
      (fix below (l : list (string * Node)) : list string :=
         match l with
         | [] => []
         | (n1, d1) :: l => regularFiles (Join name n1) d1 ++ below l
         end) dirs
  end.

(** Every directory of the tree could be listed. *)
Fixpoint readable (d : Node) : bool :=
  match d with
  | Leaf _ => true
  | Dir dirs rderr =>
      bool_decide (rderr = None) &&
      (fix below (l : list (string * Node)) : bool :=
         match l with
         | [] => true
         | (_, d1) :: l => readable d1 && below l
         end) dirs
  end.

(** The archive entry of a path, as the specification words it: a header
    made from the metadata of the file, under the base name of the path,
    and the bytes of the file. *)
Definition entryOf (dir : FS) (f : string) : option (Header * list byte) :=
  match fs_open dir f with
  | inr file =>
      match f_stat file with
      | inr info =>
          match FileInfoHeader info EmptyString with
          | inr h => Some (stored (setName h (Base f)), concat (f_reads file))
          | inl _ => None
          end
      | inl _ => None
      end
  | inl _ => None
  end.

(** The trailer of a tar archive: two blocks of zeros. *)
Definition trailer : list byte := zeroBlock ++ zeroBlock.

(** All the bytes the goroutine hands to the pipe, for a reader that is
    read from the start. *)
Definition archiveBytes (formatHeader : Header → error + list chunk)
    (dir : FS) : list byte :=
  match goroutine (fst (init formatHeader (NewTarDirReader dir))) with
  | Some (w, _) => concat (written w)
  | None => []
  end.

(** Reads that suffice to drain the pipe with buffers of at least one byte:
    one per byte, one more per write (a write of no bytes takes a read of
    its own), and the one that meets the end. *)
Definition readsNeeded (formatHeader : Header → error + list chunk)
    (dir : FS) : nat :=
  match goroutine (fst (init formatHeader (NewTarDirReader dir))) with
  | Some (w, _) => length (concat (written w)) + length (written w) + 1
  | None => 1
  end.

Definition finished (e : Ending) : bool :=
  match e with StillOpen _ => false | _ => true end.

(** The consumer of the specification: it unpacks the entries of the
    archive one after the other into a flat directory, each entry creating
    or replacing the file of its name. *)
Definition unpack (es : list (Header * list byte)) : gmap string (list byte) :=
  foldl (λ m e, <[Name (fst e) := snd e]> m) ∅ es.

(** ** Induction on trees *)

Section NodeInduction.
Variable P : Node → Prop.
Hypothesis Hleaf : ∀ ty, P (Leaf ty).
Hypothesis Hdir : ∀ dirs rderr,
  Forall (λ e, P e.2) dirs → P (Dir dirs rderr).

Fixpoint Node_ind (d : Node) : P d :=
  match d with
  | Leaf ty => Hleaf ty
  | Dir dirs rderr =>
      Hdir dirs rderr
        ((fix below (l : list (string * Node)) : Forall (λ e, P e.2) l :=
            match l with
            | [] => List.Forall_nil _
            | (n1, d1) :: l => List.Forall_cons _ (n1, d1) l (Node_ind d1) (below l)
            end) dirs)
  end.
End NodeInduction.

(** ** States and invariants used in the proofs *)

Definition emptyPipe : Pipe := {| pending := []; wend := Idle |}.

(** The state [init] leaves behind when the walk failed with [e] after
    queueing [q]. *)
Definition failedReader (dir : FS) (q : list string) : tarDirReader :=
  {| fs := dir; queue := q; reader := Some emptyPipe; goroutine := None;
     initialized := true |}.

Definition endingOf (w : WriteEnd) : Ending :=
  match w with
  | Closed => Ended EOF
  | Dead e => Crashed e
  | Idle => Hung
  end.

(** Between two entries: the pipe is open and the tar writer owes
    nothing. *)
Definition idle (w : World) : Prop :=
  wclosed w = false ∧ archive w = NewWriter.

(** Inside the entry of header [h], which follows the entries [es]. *)
Definition inEntry (es : list (Header * list byte)) (h : Header) (w : World) : Prop :=
  wclosed w = false ∧ err (archive w) = None ∧ ∃ d, entries w = es ++ [(h, d)].

(** What no operation of the tar writer touches, and what only grows. *)
Definition extends (w w' : World) : Prop :=
  handles w' = handles w ∧ stdout w' = stdout w ∧
  ∃ more, written w' = written w ++ more.

(** Inside an entry that still expects [c] bytes and holds [d]. *)
Definition filling (es : list (Header * list byte)) (h : Header)
    (d : list byte) (c p : nat) (w : World) : Prop :=
  wclosed w = false ∧ archive w = {| pad := p; curr := c; err := None |} ∧
  entries w = es ++ [(h, d)].

Definition keepsHandles {A} (m : M A) : Prop :=
  ∀ w, handles (m w).1 = handles w.

(** Every entry below [d] that is not a directory is a regular file. *)
Fixpoint allRegular (d : Node) : bool :=
  match d with
  | Leaf ty => bool_decide (ty = Regular)
  | Dir dirs _ =>
      (fix below (l : list (string * Node)) : bool :=
         match l with
         | [] => true
         | (_, d1) :: l => allRegular d1 && below l
         end) dirs
  end.

Section Runs.
Variable formatHeader : Header → error + list chunk.

(** The run of the goroutine that [init] starts after queueing [q]. *)
Definition firstRun (dir : FS) (q : list string) : World * Outcome :=
  writeQueue formatHeader (failedReader dir q) World0.

(** The state [init] leaves behind when the walk queued [q] and the
    goroutine was started. *)
Definition startedReader (dir : FS) (q : list string) : tarDirReader :=
  {| fs := dir; queue := q; reader := Some (attach (firstRun dir q));
     goroutine := Some (firstRun dir q); initialized := true |}.

(** How the reads of a fresh reader end, once they end. *)
Definition expectedEnding (dir : FS) : Ending :=
  match init formatHeader (NewTarDirReader dir) with
  | (_, Some e) => Ended e
  | (t, None) =>
      match reader t with
      | Some p => endingOf (wend p)
      | None => Crashed NilDereference
      end
  end.

End Runs.

(** ** More sample data *)

Definition permissionDenied (op path : string) : error :=
  PathError op path "permission denied".

(** A directory with a sub-directory that cannot be listed. *)
Definition unreadableFS : FS :=
  {| fs_root := inr (Dir [("Dockerfile", Leaf Regular);
                          ("secret", Dir [] (Some (permissionDenied "open" "secret")));
                          ("zz.txt", Leaf Regular)] None);
     fs_open := sampleOpen |}.

(** A root that does not exist. *)
Definition missingRootFS : FS :=
  {| fs_root := inl (ErrNotExist "stat" "."); fs_open := sampleOpen |}.

(** Directories only. *)
Definition emptyFS : FS :=
  {| fs_root := inr (Dir [("cache", Dir [] None); ("tmp", Dir [] None)] None);
     fs_open := sampleOpen |}.

(** The second of three files is removed after the walk. *)
Definition vanishedFS : FS :=
  {| fs_root := inr (Dir [("Dockerfile", Leaf Regular);
                          ("gone.txt", Leaf Regular);
                          ("later.txt", Leaf Regular)] None);
     fs_open := λ f,
       if decide (f = "Dockerfile") then inr (regularFile "Dockerfile" "FROM scratch")
       else if decide (f = "later.txt") then inr (regularFile "later.txt" "later")
       else inl (ErrNotExist "open" f) |}.

(** The only file is removed after the walk. *)
Definition onlyFileGoneFS : FS :=
  {| fs_root := inr (Dir [("gone.txt", Leaf Regular)] None);
     fs_open := λ f, inl (ErrNotExist "open" f) |}.

(** A symbolic link next to a regular file. *)
Definition linkTree : Node :=
  Dir [("data", Leaf Symlink); ("main.go", Leaf Regular)] None.

Definition linkFS : FS := {| fs_root := inr linkTree; fs_open := sampleOpen |}.

(** ** More of the reader, as a caller sees it *)

(** The first error a pre-order walk of [d] meets: that of the first
    directory that cannot be listed.  What lies in a directory that could
    not be listed is not looked at. *)
Fixpoint firstUnreadable (d : Node) : option error :=
  match d with
  | Leaf _ => None
  | Dir dirs rderr =>
      match rderr with
      | Some e => Some e
      | None =>
          (fix below (l : list (string * Node)) : option error :=
             match l with
             | [] => None
             | (_, d1) :: l =>
                 match firstUnreadable d1 with
                 | Some e => Some e
                 | None => below l
                 end
             end) dirs
      end
  end.

(** The paths of the entries that are not directories and that a pre-order
    walk of [d] meets before its first error. *)
Fixpoint queuedBefore (name : string) (d : Node) : list string :=
  match d with
  | Leaf _ => [name]
  | Dir dirs rderr =>
      match rderr with
      | Some _ => []
      | None =>
          (fix below (l : list (string * Node)) : list string :=
             match l with
             | [] => []
             | (n1, d1) :: l =>
                 queuedBefore (Join name n1) d1 ++
                 match firstUnreadable d1 with
                 | Some _ => []
                 | None => below l
                 end
             end) dirs
      end
  end.

(** What becomes of one path of the queue, read off [writeFile] and the
    tar writer under it: the first of the failures of [Open], [Stat],
    [FileInfoHeader] and the header formatter; then [ErrWriteTooLong] when
    the file yields more bytes than its header announces, else the error
    of a failed read, else the bytes that are missing when it yields
    fewer; [None] when the entry was written. *)
Definition writeFileOutcome (formatHeader : Header → error + list chunk)
    (dir : FS) (f : string) : option error :=
  match fs_open dir f with
  | inl e => Some e
  | inr file =>
      match f_stat file with
      | inl e => Some e
      | inr info =>
          match FileInfoHeader info EmptyString with
          | inl e => Some e
          | inr h0 =>
              let h := stored (setName h0 (Base f)) in
              match formatHeader h with
              | inl e => Some e
              | inr _ =>
                  let size := if isHeaderOnlyType (Typeflag h) then 0 else Size h in
                  let n := length (concat (f_reads file)) in
                  if size <? n then Some ErrWriteTooLong
                  else
                    match f_fail file with
                    | Some er =>
                        if decide (er = EOF)
                        then (if n <? size then Some (ErrMissedWriting (size - n))
                              else None)
                        else Some er
                    | None =>
                        if n <? size then Some (ErrMissedWriting (size - n))
                        else None
                    end
              end
          end
      end
  end.

(** The bytes of one entry in the stream: what the formatter writes for
    the header, the content, and zeros up to the next multiple of the block
    size. *)
Definition encodeEntry (formatHeader : Header → error + list chunk)
    (e : Header * list byte) : option (list byte) :=
  match formatHeader e.1 with
  | inr blocks =>
      Some (concat blocks ++ e.2 ++ replicate (blockPadding (length e.2)) Byte.x00)
  | inl _ => None
  end.

(** A character of the string is a path separator. *)
Definition hasSeparator (s : string) : bool :=
  existsb isPathSeparator (list_ascii_of_string s).

(** A file whose size changes between [Stat] and the copy: [announced]
    bytes in the header, [content] in the file. *)
Definition resizedFile (name : string) (announced : nat) (content : string) : File :=
  {| f_stat := inr {| fi_name := name; fi_size := announced;
                      fi_perm := 420%N; fi_modtime := 0; fi_type := TRegular |};
     f_reads := [bytesOf content];
     f_fail := None |}.

Definition resizedFS : FS :=
  {| fs_root := inr (Dir [("grown.txt", Leaf Regular);
                          ("shrunk.txt", Leaf Regular)] None);
     fs_open := λ f,
       if decide (f = "grown.txt") then inr (resizedFile "grown.txt" 3 "longer")
       else if decide (f = "shrunk.txt") then inr (resizedFile "shrunk.txt" 9 "short")
       else inl (ErrNotExist "open" f) |}.

(** How the goroutine ends on the queue [q]: with a panic that carries the
    error of the first path that cannot be written, or by returning. *)
Fixpoint queueOutcome (formatHeader : Header → error + list chunk)
    (dir : FS) (q : list string) : Outcome :=
  match q with
  | [] => Returned
  | f :: q =>
      match writeFileOutcome formatHeader dir f with
      | Some e => Panicked e
      | None => queueOutcome formatHeader dir q
      end
  end.

(** [m] prints nothing. *)
Definition silent {A} (m : M A) : Prop :=
  ∀ w, stdout (m w).1 = stdout w.

(** The line the goroutine prints before it writes the path [f]. *)
Definition announced (f : string) : string := "writing file to tar " +:+ f.

(** The paths of the queue [q] the goroutine gets to: those up to the first
    one that cannot be written, that one included. *)
Fixpoint attempted (formatHeader : Header → error + list chunk)
    (dir : FS) (q : list string) : list string :=
  match q with
  | [] => []
  | f :: q =>
      f :: match writeFileOutcome formatHeader dir f with
           | Some _ => []
           | None => attempted formatHeader dir q
           end
  end.

(** * godocker.go: building or pulling an image and running a container

    The second file of the package.  The Docker daemon, the operating
    system and the functions a caller registers are outside the
    repository: what they answer is a parameter ([Outside]), and every call
    the package makes on them is recorded in order ([calls]), so that the
    properties below hold whatever they answer. *)

(** ** Values *)

(** An [error] of godocker.go: made here with [errors.New] or
    [fmt.Errorf], or any other error (the client's, the system's, a
    runner's, the runtime's). *)
Inductive Failure : Type :=
| errorString (msg : string)
| otherError (e : error).

#[global] Instance Failure_eq_dec : EqDecision Failure.
Proof. solve_decision. Defined.

(** [client.Opt]: the two the package makes itself, and those of the
    caller. *)
Inductive ClientOpt : Type :=
| WithVersion (version : string)
| WithAPIVersionNegotiation
| callerClientOpt (id : nat).

(** [context.Context] *)
Inductive GoContext : Type :=
| Background
| callerContext (id : nat).

(** [io.Reader]: the reader [NewTarDirReader] makes for a directory, or a
    reader of the caller. *)
Inductive Reader : Type :=
| TarDir (dir : string)
| callerReader (id : nat).

(** [container.Config], [types.ImageBuildOptions], [types.ImagePullOptions]
    and [container.CreateResponse]: the fields the package reads or
    writes, and some of those it leaves alone.  A Go pointer to one of
    them is an [option]; the places where two copies of a [Config] share
    one pointee are written out where they occur. *)
Record container_Config : Type := mkContainerConfig {
  Image : string;
  Cmd : list string;
  Env : list string;
}.

Record ImageBuildOptions : Type := mkImageBuildOptions {
  Tags : list string;
  Dockerfile : string;
  BuildID : string;
  NoCache : bool;
  Context : option Reader;
}.

Record ImagePullOptions : Type := mkImagePullOptions {
  RegistryAuth : string;
}.

Record CreateResponse : Type := mkCreateResponse {
  ID : string;
  Warnings : list string;
}.

(** [*client.Client] *)
Inductive Client : Type := client (ops : list ClientOpt).

(** The zero values [&container.Config{}], [&types.ImageBuildOptions{}]
    and [&types.ImagePullOptions{}]. *)
Definition container_Config0 : container_Config :=
  {| Image := EmptyString; Cmd := []; Env := [] |}.
Definition ImageBuildOptions0 : ImageBuildOptions :=
  {| Tags := []; Dockerfile := EmptyString; BuildID := EmptyString;
     NoCache := false; Context := None |}.
Definition ImagePullOptions0 : ImagePullOptions :=
  {| RegistryAuth := EmptyString |}.

Definition setImage (v : string) (c : container_Config) : container_Config :=
  {| Image := v; Cmd := Cmd c; Env := Env c |}.
Definition setDockerfile (v : string) (o : ImageBuildOptions) : ImageBuildOptions :=
  {| Tags := Tags o; Dockerfile := v; BuildID := BuildID o;
     NoCache := NoCache o; Context := Context o |}.
Definition setTags (v : list string) (o : ImageBuildOptions) : ImageBuildOptions :=
  {| Tags := v; Dockerfile := Dockerfile o; BuildID := BuildID o;
     NoCache := NoCache o; Context := Context o |}.
Definition setBuildID (v : string) (o : ImageBuildOptions) : ImageBuildOptions :=
  {| Tags := Tags o; Dockerfile := Dockerfile o; BuildID := v;
     NoCache := NoCache o; Context := Context o |}.
Definition setContext (v : option Reader) (o : ImageBuildOptions) : ImageBuildOptions :=
  {| Tags := Tags o; Dockerfile := Dockerfile o; BuildID := BuildID o;
     NoCache := NoCache o; Context := v |}.

(** The functions of [execRunners] and [afterRunners]: the two closures
    the package registers itself, and those of the caller. *)
Inductive Runner : Type :=
| removeContainer
| removeImages
| callerRunner (id : nat).

#[global] Instance Runner_eq_dec : EqDecision Runner.
Proof. solve_decision. Defined.

(** [Config].  The field [Name] is [cfg_Name] here. *)
Record Config : Type := mkConfig {
  cfg_Name : string;
  Cwd : string;
  Host : option nat;
  Network : option nat;
  Platform : option nat;
  ContainerConfig : option container_Config;
  ImageBuildOpts : option ImageBuildOptions;
  ImagePullOpts : option ImagePullOptions;
  Ctx : option GoContext;
  ClientOpts : list ClientOpt;
  Cli : option Client;
  Container : option CreateResponse;
  ImageTags : list string;
  usingAPIVersion : bool;
  execRunners : list Runner;
  afterRunners : list Runner;
}.

(** [var config Config] *)
Definition Config0 : Config :=
  {| cfg_Name := EmptyString; Cwd := EmptyString; Host := None; Network := None;
     Platform := None; ContainerConfig := None; ImageBuildOpts := None;
     ImagePullOpts := None; Ctx := None; ClientOpts := []; Cli := None;
     Container := None; ImageTags := []; usingAPIVersion := false;
     execRunners := []; afterRunners := [] |}.

Definition setCwd (v : string) (config : Config) : Config :=
  {| cfg_Name := cfg_Name config; Cwd := v; Host := Host config;
     Network := Network config; Platform := Platform config;
     ContainerConfig := ContainerConfig config;
     ImageBuildOpts := ImageBuildOpts config;
     ImagePullOpts := ImagePullOpts config; Ctx := Ctx config;
     ClientOpts := ClientOpts config; Cli := Cli config;
     Container := Container config; ImageTags := ImageTags config;
     usingAPIVersion := usingAPIVersion config;
     execRunners := execRunners config; afterRunners := afterRunners config |}.
Definition setContainerConfig (v : option container_Config) (config : Config) : Config :=
  {| cfg_Name := cfg_Name config; Cwd := Cwd config; Host := Host config;
     Network := Network config; Platform := Platform config;
     ContainerConfig := v; ImageBuildOpts := ImageBuildOpts config;
     ImagePullOpts := ImagePullOpts config; Ctx := Ctx config;
     ClientOpts := ClientOpts config; Cli := Cli config;
     Container := Container config; ImageTags := ImageTags config;
     usingAPIVersion := usingAPIVersion config;
     execRunners := execRunners config; afterRunners := afterRunners config |}.
Definition setImageBuildOpts (v : option ImageBuildOptions) (config : Config) : Config :=
  {| cfg_Name := cfg_Name config; Cwd := Cwd config; Host := Host config;
     Network := Network config; Platform := Platform config;
     ContainerConfig := ContainerConfig config; ImageBuildOpts := v;
     ImagePullOpts := ImagePullOpts config; Ctx := Ctx config;
     ClientOpts := ClientOpts config; Cli := Cli config;
     Container := Container config; ImageTags := ImageTags config;
     usingAPIVersion := usingAPIVersion config;
     execRunners := execRunners config; afterRunners := afterRunners config |}.
Definition setCtx (v : option GoContext) (config : Config) : Config :=
  {| cfg_Name := cfg_Name config; Cwd := Cwd config; Host := Host config;
     Network := Network config; Platform := Platform config;
     ContainerConfig := ContainerConfig config;
     ImageBuildOpts := ImageBuildOpts config;
     ImagePullOpts := ImagePullOpts config; Ctx := v;
     ClientOpts := ClientOpts config; Cli := Cli config;
     Container := Container config; ImageTags := ImageTags config;
     usingAPIVersion := usingAPIVersion config;
     execRunners := execRunners config; afterRunners := afterRunners config |}.
Definition setClientOpts (v : list ClientOpt) (config : Config) : Config :=
  {| cfg_Name := cfg_Name config; Cwd := Cwd config; Host := Host config;
     Network := Network config; Platform := Platform config;
     ContainerConfig := ContainerConfig config;
     ImageBuildOpts := ImageBuildOpts config;
     ImagePullOpts := ImagePullOpts config; Ctx := Ctx config;
     ClientOpts := v; Cli := Cli config; Container := Container config;
     ImageTags := ImageTags config; usingAPIVersion := usingAPIVersion config;
     execRunners := execRunners config; afterRunners := afterRunners config |}.
Definition setCli (v : option Client) (config : Config) : Config :=
  {| cfg_Name := cfg_Name config; Cwd := Cwd config; Host := Host config;
     Network := Network config; Platform := Platform config;
     ContainerConfig := ContainerConfig config;
     ImageBuildOpts := ImageBuildOpts config;
     ImagePullOpts := ImagePullOpts config; Ctx := Ctx config;
     ClientOpts := ClientOpts config; Cli := v; Container := Container config;
     ImageTags := ImageTags config; usingAPIVersion := usingAPIVersion config;
     execRunners := execRunners config; afterRunners := afterRunners config |}.
Definition setContainer (v : option CreateResponse) (config : Config) : Config :=
  {| cfg_Name := cfg_Name config; Cwd := Cwd config; Host := Host config;
     Network := Network config; Platform := Platform config;
     ContainerConfig := ContainerConfig config;
     ImageBuildOpts := ImageBuildOpts config;
     ImagePullOpts := ImagePullOpts config; Ctx := Ctx config;
     ClientOpts := ClientOpts config; Cli := Cli config; Container := v;
     ImageTags := ImageTags config; usingAPIVersion := usingAPIVersion config;
     execRunners := execRunners config; afterRunners := afterRunners config |}.
Definition setImageTags (v : list string) (config : Config) : Config :=
  {| cfg_Name := cfg_Name config; Cwd := Cwd config; Host := Host config;
     Network := Network config; Platform := Platform config;
     ContainerConfig := ContainerConfig config;
     ImageBuildOpts := ImageBuildOpts config;
     ImagePullOpts := ImagePullOpts config; Ctx := Ctx config;
     ClientOpts := ClientOpts config; Cli := Cli config;
     Container := Container config; ImageTags := v;
     usingAPIVersion := usingAPIVersion config;
     execRunners := execRunners config; afterRunners := afterRunners config |}.
Definition setUsingAPIVersion (v : bool) (config : Config) : Config :=
  {| cfg_Name := cfg_Name config; Cwd := Cwd config; Host := Host config;
     Network := Network config; Platform := Platform config;
     ContainerConfig := ContainerConfig config;
     ImageBuildOpts := ImageBuildOpts config;
     ImagePullOpts := ImagePullOpts config; Ctx := Ctx config;
     ClientOpts := ClientOpts config; Cli := Cli config;
     Container := Container config; ImageTags := ImageTags config;
     usingAPIVersion := v; execRunners := execRunners config;
     afterRunners := afterRunners config |}.
Definition setExecRunners (v : list Runner) (config : Config) : Config :=
  {| cfg_Name := cfg_Name config; Cwd := Cwd config; Host := Host config;
     Network := Network config; Platform := Platform config;
     ContainerConfig := ContainerConfig config;
     ImageBuildOpts := ImageBuildOpts config;
     ImagePullOpts := ImagePullOpts config; Ctx := Ctx config;
     ClientOpts := ClientOpts config; Cli := Cli config;
     Container := Container config; ImageTags := ImageTags config;
     usingAPIVersion := usingAPIVersion config; execRunners := v;
     afterRunners := afterRunners config |}.
Definition setAfterRunners (v : list Runner) (config : Config) : Config :=
  {| cfg_Name := cfg_Name config; Cwd := Cwd config; Host := Host config;
     Network := Network config; Platform := Platform config;
     ContainerConfig := ContainerConfig config;
     ImageBuildOpts := ImageBuildOpts config;
     ImagePullOpts := ImagePullOpts config; Ctx := Ctx config;
     ClientOpts := ClientOpts config; Cli := Cli config;
     Container := Container config; ImageTags := ImageTags config;
     usingAPIVersion := usingAPIVersion config;
     execRunners := execRunners config; afterRunners := v |}.

(** One line of the build output, decoded ([ProgressDetail], which is
    never read, is left out; [Aux_ID] is [Aux.ID]). *)
Record streamLine : Type := mkStreamLine {
  Stream : string;
  Status : string;
  Progress : string;
  Id : string;
  Aux_ID : string;
}.

(** One successful [scanner.Scan()]: the token [scanner.Bytes()] and what
    [scanner.Err()] answers at that point. *)
Record Scanned : Type := mkScanned {
  token : string;
  scanErr : option Failure;
}.

(** The body of an image pull: what [io.Copy] gets out of it. *)
Record PullBody : Type := mkPullBody {
  pulled : string;
  pullErr : option Failure;
}.

(** ** The outside world *)

(** The calls the package makes on the Docker client and the system, and
    the calls of the caller's runners, with their arguments (the context,
    always [config.Ctx], is left out). *)
Inductive Event : Type :=
| NewClientWithOpts (ops : list ClientOpt)
| ClientClose
| Getwd
| Abs (path : string)
| AlphaWord (n : nat)
| ImageBuild (buildContext : Reader) (options : ImageBuildOptions)
| BuildCancel (id : string)
| ImagePull (ref : string) (options : ImagePullOptions)
| ContainerCreate (config : option container_Config)
    (host network platform : option nat) (containerName : string)
| ContainerStart (id : string)
| ContainerStop (id : string)
| ContainerRemove (id : string)
| ImageList (filters : list (string * string))
| ImageRemove (id : string)
| Runs (id : nat) (config : Config).

(** How a call of a Go function ends: it returns (for a function whose
    last result is an [error]: with [nil], [Val], or with an error, [Err]),
    it panics, or it never returns. *)
Inductive Res (A : Type) : Type :=
| Val (a : A)
| Err (e : Failure)
| Panics (e : Failure)
| NeverReturns.
Arguments Val {A} a.
Arguments Err {A} e.
Arguments Panics {A} e.
Arguments NeverReturns {A}.

(** What the outside answers to a call, given the calls made so far. *)
Record Outside : Type := mkOutside {
  newClient : list Event → list ClientOpt → option Failure;
  getwd : list Event → Failure + string;
  absPath : list Event → string → Failure + string;
  alphaWord : list Event → nat → string;
  imageBuild : list Event → Reader → ImageBuildOptions → Failure + list Scanned;
  unmarshal : string → Failure + streamLine;
  buildCancel : list Event → string → option Failure;
  imagePull : list Event → string → ImagePullOptions → Failure + PullBody;
  containerCreate : list Event → option container_Config → option nat →
                    option nat → option nat → string → Failure + CreateResponse;
  containerStart : list Event → string → option Failure;
  containerStop : list Event → string → option Failure;
  containerRemove : list Event → string → option Failure;
  imageList : list Event → list (string * string) → Failure + list string;
  imageRemove : list Event → string → option Failure;
  runs : list Event → nat → Config → Res unit;
}.

(** The state godocker.go acts on: the calls made and the lines printed. *)
Record Dock : Type := mkDock {
  calls : list Event;
  printed : list string;
}.

Definition Dock0 : Dock := {| calls := []; printed := [] |}.

Definition D (A : Type) : Type := Dock → Dock * Res A.

Definition dret {A} (a : A) : D A := λ w, (w, Val a).
Definition fail {A} (e : Failure) : D A := λ w, (w, Err e).
Definition panic {A} (e : Failure) : D A := λ w, (w, Panics e).
Definition dbind {A B} (m : D A) (k : A → D B) : D B :=
  λ w, match m w with
       | (w', Val a) => k a w'
       | (w', Err e) => (w', Err e)
       | (w', Panics e) => (w', Panics e)
       | (w', NeverReturns) => (w', NeverReturns)
       end.

Notation "x <~ m ;; k" := (dbind m (λ x, k))
  (at level 100, m at next level, right associativity) : go_scope.
Notation "m ;;; k" := (dbind m (λ _, k))
  (at level 100, right associativity) : go_scope.

(** [fmt.Println] *)
Definition println (line : string) : D unit :=
  λ w, ({| calls := calls w; printed := printed w ++ [line] |}, Val ()).

(** A call on the outside that returns [(T, error)], and one that returns
    [error]. *)
Definition call {A} (ev : Event) (answer : list Event → Failure + A) : D A :=
  λ w, ({| calls := calls w ++ [ev]; printed := printed w |},
        match answer (calls w) with
        | inl e => Err e
        | inr a => Val a
        end).

Definition call_ (ev : Event) (answer : list Event → option Failure) : D unit :=
  λ w, ({| calls := calls w ++ [ev]; printed := printed w |},
        match answer (calls w) with
        | Some e => Err e
        | None => Val ()
        end).

(** [defer cleanup()] for a [cleanup] whose results are dropped: it runs
    when the body returns or panics, and a panic of its own takes over. *)
Definition ddefer {A} (cleanup : D unit) (body : D A) : D A :=
  λ w, match body w with
       | (w, NeverReturns) => (w, NeverReturns)
       | (w, r) =>
           match cleanup w with
           | (w, Panics e) => (w, Panics e)
           | (w, NeverReturns) => (w, NeverReturns)
           | (w, _) => (w, r)
           end
       end.

Definition nilDereference : Failure := otherError NilDereference.

(** A method call on [config.Cli]: on a nil client it panics. *)
Definition onCli {A} (config : Config) (m : D A) : D A :=
  match Cli config with
  | None => panic nilDereference
  | Some _ => m
  end.

(** ** The options *)

(** [Opt]: a function from [Config] to [Config]; it returns ([Val]), or it
    panics or never returns. *)
Definition Opt : Type := Config → Res Config.

Definition WithClientOpts (opts : list ClientOpt) : Opt :=
  λ config, Val (setClientOpts (ClientOpts config ++ opts) config).

Definition WithCtx (ctx : option GoContext) : Opt :=
  λ config, Val (setCtx ctx config).

Definition WithAPIVersion (version : string) : Opt :=
  λ config,
    let config := setUsingAPIVersion true config in
    Val (setClientOpts (ClientOpts config ++ [WithVersion version]) config).

Definition WithCwd (cwd : string) : Opt :=
  λ config, Val (setCwd cwd config).

Definition Exec (runners : list Runner) : Opt :=
  λ config, Val (setExecRunners (execRunners config ++ runners) config).

Definition After (runners : list Runner) : Opt :=
  λ config, Val (setAfterRunners (afterRunners config ++ runners) config).

Definition WithDockerfile (path : string) : Opt :=
  λ config,
    let config :=
      match ImageBuildOpts config with
      | None => setImageBuildOpts (Some ImageBuildOptions0) config
      | Some _ => config
      end in
    match ImageBuildOpts config with
    | Some o => Val (setImageBuildOpts (Some (setDockerfile path o)) config)
    | None => Panics nilDereference
    end.

Definition WithImage (image : string) : Opt :=
  λ config,
    let config :=
      match Container config with
      | None => setContainerConfig (Some container_Config0) config
      | Some _ => config
      end in
    match ContainerConfig config with
    | Some c => Val (setContainerConfig (Some (setImage image c)) config)
    | None => Panics nilDereference
    end.

Definition WithConfig (config : Config) : Opt :=
  λ _, Val config.

Definition CleanupContainer : Opt :=
  λ config, Val (setAfterRunners (afterRunners config ++ [removeContainer]) config).

Definition CleanupImage : Opt :=
  λ config, Val (setAfterRunners (afterRunners config ++ [removeImages]) config).

(** ** The runners *)

Section Docker.
Variable o : Outside.

(** The closure of [CleanupContainer]. *)
Definition removeContainerRunner (config : Config) : D unit :=
  println "removing container" ;;;
  match Container config with
  | None => panic nilDereference
  | Some c =>
      onCli config
        (call_ (ContainerRemove (ID c)) (λ h, containerRemove o h (ID c)))
  end.

Fixpoint removeEach (config : Config) (list : list string) : D unit :=
  match list with
  | [] => dret ()
  | image :: list =>
      println ("removing image " +:+ image) ;;;
      onCli config (call_ (ImageRemove image) (λ h, imageRemove o h image)) ;;;
      removeEach config list
  end.

(** The filters of [CleanupImage], in the order they are added. *)
Definition imageFilters (config : Config) : list (string * string) :=
  match ContainerConfig config with
  | Some c => if decide (Image c = EmptyString) then []
              else [("reference", Image c)]
  | None => []
  end ++ map (λ tag, ("label", tag)) (ImageTags config).

(** The closure of [CleanupImage]. *)
Definition removeImagesRunner (config : Config) : D unit :=
  list <~ onCli config
            (call (ImageList (imageFilters config))
               (λ h, imageList o h (imageFilters config))) ;;
  println ("removing images " +:+ pretty (length list)) ;;;
  removeEach config list.

(** [runner(config)] *)
Definition runRunner (r : Runner) (config : Config) : D unit :=
  match r with
  | removeContainer => removeContainerRunner config
  | removeImages => removeImagesRunner config
  | callerRunner id =>
      λ w, ({| calls := calls w ++ [Runs id config]; printed := printed w |},
            runs o (calls w) id config)
  end.

(** [for _, runner := range runners { if err = runner(config); err != nil
    { return } }] *)
Fixpoint runRunners (runners : list Runner) (config : Config) : D unit :=
  match runners with
  | [] => dret ()
  | runner :: runners => runRunner runner config ;;; runRunners runners config
  end.

(** ** Building and pulling *)

Definition loadContext (config : Config) : Reader := TarDir (Cwd config).

Definition IsStream (s : streamLine) : bool :=
  negb (bool_decide (Stream s = EmptyString)).

(** [consumeDockerStream], run to its end: the lines it prints go to the
    console, the lines it sends are appended to [sent], and it says
    whether it closed the channel.  The receiver, [buildImage], takes
    every line that is sent, so no send blocks. *)
Fixpoint consumeDockerStream (body : list Scanned) (sent : list streamLine)
    : Dock → Dock * (list streamLine * bool * option Failure) :=
  λ w,
    match body with
    | [] => (w, (sent, true, None))
    | s :: body =>
        match scanErr s with
        | Some e => (w, (sent, false, Some e))
        | None =>
            match unmarshal o (token s) with
            | inl e => (w, (sent, false, Some e))
            | inr l =>
                if IsStream l
                then consumeDockerStream body sent (println (Stream l) w).1
                else consumeDockerStream body (sent ++ [l]) w
            end
        end
    end.

(** [for l := range lines { if l.Aux.ID != "" { imageTag = l.Aux.ID } }] *)
Definition lastAuxID (imageTag : string) (lines : list streamLine) : string :=
  foldl (λ tag l, if decide (Aux_ID l = EmptyString) then tag else Aux_ID l)
        imageTag lines.

(** [strings.ToLower], on ASCII. *)
Definition lowerAscii (c : ascii) : ascii :=
  let n := nat_of_ascii c in
  if (65 <=? n) && (n <=? 90) then ascii_of_nat (n + 32) else c.

Definition ToLower (s : string) : string :=
  string_of_list_ascii (map lowerAscii (list_ascii_of_string s)).

(** The deferred closure of [buildImage]. *)
Definition cancelBuild (config : Config) (buildComplete : bool) (id : string)
    : D unit :=
  if buildComplete then dret ()
  else
    println "build cancelled" ;;;
    λ w, match onCli config
                 (call_ (BuildCancel id) (λ h, buildCancel o h id)) w with
         | (w, Err e) => (w, Panics e)
         | (w, r) => (w, r)
         end.

(** [buildImage].  [config] is a copy, but [config.ImageBuildOpts] points to
    the options of the caller: beside the result, the function hands back
    those options as it leaves them. *)
Definition buildImage (config : Config)
    : Dock → Dock * (option ImageBuildOptions * Res string) :=
  λ w,
    let opts0 := ImageBuildOpts config in
    let '(w, cwd) :=
      if decide (Cwd config = EmptyString)
      then call Getwd (getwd o) w
      else (w, Val (Cwd config)) in
    match cwd with
    | Val cwd =>
        match call (Abs cwd) (λ h, absPath o h cwd) w with
        | (w, Val cwd) =>
            let config := setCwd cwd config in
            let '(w, _) := println ("building image from " +:+ cwd) w in
            match opts0 with
            | None => (w, (None, Panics nilDereference))
            | Some opts =>
                let opts := setTags (Tags opts ++ [BuildID opts]) opts in
                let id := ToLower (alphaWord o (calls w) 6) in
                let w := {| calls := calls w ++ [AlphaWord 6];
                            printed := printed w |} in
                let opts := setBuildID id opts in
                let imageTag := id in
                let opts :=
                  match Context opts with
                  | None => setContext (Some (loadContext config)) opts
                  | Some _ => opts
                  end in
                let buildContext := loadContext config in
                match onCli config
                        (call (ImageBuild buildContext opts)
                           (λ h, imageBuild o h buildContext opts)) w with
                | (w, Val body) =>
                    let '(w, (lines, closed, _)) := consumeDockerStream body [] w in
                    if closed
                    then
                      let imageTag := lastAuxID imageTag lines in
                      let buildComplete := true in
                      match cancelBuild config buildComplete (BuildID opts) w with
                      | (w, Panics e) => (w, (Some opts, Panics e))
                      | (w, NeverReturns) => (w, (Some opts, NeverReturns))
                      | (w, _) => (w, (Some opts, Val imageTag))
                      end
                    else (w, (Some opts, NeverReturns))
                | (w, Err e) => (w, (Some opts, Err e))
                | (w, Panics e) => (w, (Some opts, Panics e))
                | (w, NeverReturns) => (w, (Some opts, NeverReturns))
                end
            end
        | (w, Err e) => (w, (opts0, Err e))
        | (w, Panics e) => (w, (opts0, Panics e))
        | (w, NeverReturns) => (w, (opts0, NeverReturns))
        end
    | Err e => (w, (opts0, Err e))
    | Panics e => (w, (opts0, Panics e))
    | NeverReturns => (w, (opts0, NeverReturns))
    end.

Definition pullImage (config : Config) : D unit :=
  let options :=
    match ImagePullOpts config with
    | None => ImagePullOptions0
    | Some options => options
    end in
  match ContainerConfig config with
  | None => fail (errorString "no image specified")
  | Some c =>
      if decide (Image c = EmptyString)
      then fail (errorString "no image specified")
      else
        println ("pulling image " +:+ Image c) ;;;
        out <~ onCli config
                 (call (ImagePull (Image c) options)
                    (λ h, imagePull o h (Image c) options)) ;;
        (* io.Copy(os.Stdout, out), the deferred out.Close() after it *)
        λ w, ({| calls := calls w; printed := printed w ++ [pulled out] |},
              match pullErr out with
              | Some e => Err e
              | None => Val ()
              end)
  end.

(** ** Running the container *)

(** The deferred closure of [execContainer]. *)
Definition stopContainer (config : Config) : D unit :=
  println "stopping container" ;;;
  match Container config with
  | None => panic nilDereference
  | Some c =>
      λ w, match onCli config
                   (call_ (ContainerStop (ID c))
                      (λ h, containerStop o h (ID c))) w with
           | (w, Err e) => (w, Panics e)
           | (w, r) => (w, r)
           end
  end.

(** [execContainer(&config)]: beside the result, the [Config] it points to
    as the function leaves it. *)
Definition execContainer (config : Config) : Dock → Dock * (Config * Res unit) :=
  λ w,
    let '(w, _) := println "creating container" w in
    match onCli config
            (call (ContainerCreate (ContainerConfig config) (Host config)
                     (Network config) (Platform config) (cfg_Name config))
               (λ h, containerCreate o h (ContainerConfig config) (Host config)
                       (Network config) (Platform config) (cfg_Name config)))
            w with
    | (w, Val c) =>
        let config := setContainer (Some c) config in
        let '(w, _) := println "starting container" w in
        match onCli config
                (call_ (ContainerStart (ID c)) (λ h, containerStart o h (ID c)))
                w with
        | (w, Val _) =>
            let '(w, r) :=
              ddefer (stopContainer config)
                     (runRunners (execRunners config) config) w in
            (w, (config, r))
        | (w, r) => (w, (config, r))
        end
    | (w, Err e) => (w, (config, Err e))
    | (w, Panics e) => (w, (config, Panics e))
    | (w, NeverReturns) => (w, (config, NeverReturns))
    end.

(** [Run], from the place where the client exists to the return: the
    [Config] as the body leaves it, for the deferred closure to read. *)
Definition runBody (config : Config) : Dock → Dock * (Config * Res unit) :=
  λ w,
    match ImageBuildOpts config with
    | Some _ =>
        match buildImage config w with
        | (w, (opts, Val imageTag)) =>
            let config := setImageBuildOpts opts config in
            let config :=
              match ContainerConfig config with
              | None => setContainerConfig (Some container_Config0) config
              | Some _ => config
              end in
            let config :=
              match ContainerConfig config with
              | Some c => setContainerConfig (Some (setImage imageTag c)) config
              | None => config
              end in
            let config := setImageTags (ImageTags config ++ [imageTag]) config in
            execContainer config w
        | (w, (opts, Err e)) => (w, (setImageBuildOpts opts config, Err e))
        | (w, (opts, Panics e)) => (w, (setImageBuildOpts opts config, Panics e))
        | (w, (opts, NeverReturns)) =>
            (w, (setImageBuildOpts opts config, NeverReturns))
        end
    | None =>
        match ContainerConfig config with
        | Some c =>
            if decide (Image c = EmptyString)
            then (w, (config,
                      Err (errorString "no image build or pull options provided")))
            else
              match pullImage config w with
              | (w, Val _) => execContainer config w
              | (w, r) => (w, (config, r))
              end
        | None =>
            (w, (config,
                 Err (errorString "no image build or pull options provided")))
        end
    end.

(** The deferred closure of [Run]: the after-runners, each handed the
    [Config] as it is by then; what the last of them returns is assigned to
    the result of [Run]. *)
Definition afterwards (body : Dock → Dock * (Config * Res unit)) : D unit :=
  λ w,
    match body w with
    | (w, (config, NeverReturns)) => (w, NeverReturns)
    | (w, (config, r)) =>
        match afterRunners config with
        | [] => (w, r)
        | _ :: _ =>
            match runRunners (afterRunners config) config w with
            | (w, Panics e) => (w, Panics e)
            | (w, NeverReturns) => (w, NeverReturns)
            | (w, r') =>
                (w, match r with
                    | Panics e => Panics e
                    | _ => r'
                    end)
            end
        end
    end.

(** [config = opt(config)] for each option in turn. *)
Fixpoint applyOpts (opts : list Opt) (config : Config) : Res Config :=
  match opts with
  | [] => Val config
  | opt :: opts =>
      match opt config with
      | Val config => applyOpts opts config
      | r => r
      end
  end.

Definition Run (opts : list Opt) : D unit :=
  λ w,
    match applyOpts opts Config0 with
    | Val config =>
        let config :=
          match Ctx config with
          | None => setCtx (Some Background) config
          | Some _ => config
          end in
        let config :=
          if usingAPIVersion config then config
          else setClientOpts (ClientOpts config ++ [WithAPIVersionNegotiation])
                 config in
        match call_ (NewClientWithOpts (ClientOpts config))
                (λ h, newClient o h (ClientOpts config)) w with
        | (w, Val _) =>
            let config := setCli (Some (client (ClientOpts config))) config in
            ddefer (call_ ClientClose (λ _, None))
                   (afterwards (runBody config)) w
        | (w, r) => (w, r)
        end
    | Err e => (w, Err e)
    | Panics e => (w, Panics e)
    | NeverReturns => (w, NeverReturns)
    end.

End Docker.

(** ** What the properties of godocker.go speak of *)

(** The options [Run] creates the client with. *)
Definition clientOptions (config : Config) : list ClientOpt :=
  ClientOpts config
  ++ (if usingAPIVersion config then [] else [WithAPIVersionNegotiation]).

(** No image to build and none to pull. *)
Definition noImage (config : Config) : Prop :=
  ImageBuildOpts config = None ∧
  match ContainerConfig config with
  | Some c => Image c = EmptyString
  | None => True
  end.

(** The [Config] as [Run] holds it once the client exists. *)
Definition withClient (config : Config) : Config :=
  let config :=
    match Ctx config with
    | None => setCtx (Some Background) config
    | Some _ => config
    end in
  setCli (Some (client (clientOptions config)))
    (setClientOpts (clientOptions config) config).

(** The calls made since the state [w]. *)
Definition since (w w' : Dock) : list Event :=
  drop (length (calls w)) (calls w').

(** A scanned line the goroutine gets through. *)
Definition parses (o : Outside) (s : Scanned) : bool :=
  match scanErr s, unmarshal o (token s) with
  | None, inr _ => true
  | _, _ => false
  end.

(** The lines of a build output that go through the channel, and those
    that are printed. *)
Definition channelLines (o : Outside) (body : list Scanned) : list streamLine :=
  omap (λ s, match unmarshal o (token s) with
             | inr l => if IsStream l then None else Some l
             | inl _ => None
             end) body.

Definition printedLines (o : Outside) (body : list Scanned) : list string :=
  omap (λ s, match unmarshal o (token s) with
             | inr l => if IsStream l then Some (Stream l) else None
             | inl _ => None
             end) body.

(** The build options as [buildImage] passes them on: the former build id
    among the tags, the new one in its place, and a context when there was
    none. *)
Definition builtWith (opts : ImageBuildOptions) (id cwd : string)
    : ImageBuildOptions :=
  {| Tags := Tags opts ++ [BuildID opts];
     Dockerfile := Dockerfile opts;
     BuildID := id;
     NoCache := NoCache opts;
     Context := match Context opts with
                | None => Some (TarDir cwd)
                | Some r => Some r
                end |}.

(** ** An outside to run the model with *)

(** A stand-in for [json.Unmarshal] on the lines of a build: ["aux:ID"]
    carries an image id, ["stream:text"] a line of output, ["bad"] does not
    parse, anything else is a status. *)
Definition sampleUnmarshal (s : string) : Failure + streamLine :=
  let line stream status aux :=
    {| Stream := stream; Status := status; Progress := EmptyString;
       Id := EmptyString; Aux_ID := aux |} in
  if String.prefix "aux:" s
  then inr (line EmptyString EmptyString (String.substring 4 (String.length s - 4) s))
  else if String.prefix "stream:" s
  then inr (line (String.substring 7 (String.length s - 7) s) EmptyString EmptyString)
  else if decide (s = "bad")
  then inl (errorString "invalid character")
  else inr (line EmptyString s EmptyString).

(** An outside that answers the same whatever happened before. *)
Definition sampleOutside (client : option Failure)
    (pull : Failure + PullBody) (create : Failure + CreateResponse)
    (build : Failure + list Scanned) (remove : string → option Failure)
    (runner : nat → Res unit) : Outside :=
  {| newClient := λ _ _, client;
     getwd := λ _, inr "/work";
     absPath := λ _ p, inr p;
     alphaWord := λ _ _, "QwErTy";
     imageBuild := λ _ _ _, build;
     unmarshal := sampleUnmarshal;
     buildCancel := λ _ _, None;
     imagePull := λ _ _ _, pull;
     containerCreate := λ _ _ _ _ _ _, create;
     containerStart := λ _ _, None;
     containerStop := λ _ _, None;
     containerRemove := λ _ _, None;
     imageList := λ _ _, inr ["img1"; "img2"; "img3"];
     imageRemove := λ _ id, remove id;
     runs := λ _ id _, runner id |}.

Definition obliging : Outside :=
  sampleOutside None (inr {| pulled := "latest: Pulling"; pullErr := None |})
    (inr {| ID := "c0ffee"; Warnings := [] |})
    (inr [ {| token := "stream:Step 1/2"; scanErr := None |};
           {| token := "aux:sha256:1"; scanErr := None |};
           {| token := "Pushing"; scanErr := None |};
           {| token := "aux:sha256:2"; scanErr := None |} ])
    (λ _, None) (λ _, Val ()).

(** The daemon cannot be reached; the registry refuses the pull; the
    build output holds a line that does not parse. *)
Definition unreachable : Outside :=
  sampleOutside (Some (errorString "cannot connect")) (inl (errorString "unused"))
    (inl (errorString "unused")) (inl (errorString "unused"))
    (λ _, None) (λ _, Val ()).

Definition pullRefused : Outside :=
  sampleOutside None (inl (errorString "pull access denied"))
    (inr {| ID := "c0ffee"; Warnings := [] |}) (inr [])
    (λ _, None) (λ _, Val ()).

Definition garbledBuild : Outside :=
  sampleOutside None (inl (errorString "unused"))
    (inr {| ID := "c0ffee"; Warnings := [] |})
    (inr [ {| token := "aux:sha256:1"; scanErr := None |};
           {| token := "bad"; scanErr := None |};
           {| token := "aux:sha256:2"; scanErr := None |} ])
    (λ _, None) (λ _, Val ()).

(** The [Config] the options assemble, for options that do not panic. *)
Definition assembled (opts : list Opt) : Config :=
  match applyOpts opts Config0 with
  | Val config => config
  | _ => Config0
  end.

(** ** What the amended claims speak of *)

(** The paths of the queue [q] the goroutine writes in full: those before
    the first one that cannot be written. *)
Definition writtenPaths (formatHeader : Header → error + list chunk)
    (dir : FS) (q : list string) : list string :=
  takeWhile (λ f, match writeFileOutcome formatHeader dir f with
                  | None => true
                  | Some _ => false
                  end) q.

(** The entries the goroutine of a fresh reader leaves in the archive. *)
Definition archiveEntries (formatHeader : Header → error + list chunk)
    (dir : FS) : list (Header * list byte) :=
  match goroutine (fst (init formatHeader (NewTarDirReader dir))) with
  | Some (w, _) => entries w
  | None => []
  end.

(** The tree of [vanishedFS] with its three files still there when the
    goroutine opens them. *)
Definition intactFS : FS :=
  {| fs_root := fs_root vanishedFS;
     fs_open := λ f,
       if decide (f = "gone.txt") then inr (regularFile "gone.txt" "still here")
       else fs_open vanishedFS f |}.

(** The last image id a build output carries, if it carries one. *)
Definition lastImageID (lines : list streamLine) : option string :=
  last (filter (λ a, a ≠ EmptyString) (map Aux_ID lines)).

(** The second runner of the caller fails; the second image is in use. *)
Definition secondFails : Outside :=
  sampleOutside None (inr {| pulled := "latest: Pulling"; pullErr := None |})
    (inr {| ID := "c0ffee"; Warnings := [] |}) (inr [])
    (λ _, None)
    (λ id, if decide (id = 2) then Err (errorString "exit status 1") else Val ()).

Definition imageInUse : Outside :=
  sampleOutside None (inl (errorString "unused"))
    (inl (errorString "unused")) (inl (errorString "unused"))
    (λ id, if decide (id = "img2") then Some (errorString "image is in use")
           else None)
    (λ _, Val ()).

(** * Properties *)

(** ** The walk *)

Lemma setQueue_same t : setQueue (queue t ++ []) t = t.
Proof. destruct t; unfold setQueue; simpl. by rewrite app_nil_r. Qed.

(** Whatever the reader's state, a walk appends the same paths to its queue
    and ends with the same error. *)
Lemma walkDir_collect d :
  ∀ name, ∃ q r, ∀ t, walkDir name d collect t = (setQueue (queue t ++ q) t, r).
Proof.
  induction d as [ty|dirs rderr IH] using Node_ind; intros name.
  - exists [name], None. intros t. reflexivity.
  - destruct rderr as [e|].
    + exists [], (if decide (e = SkipDir) then None else Some e).
      intros t. simpl. rewrite setQueue_same. by destruct (decide _).
    + simpl.
      induction IH as [|[n1 d1] l Hd1 _ IHl].
      * exists [], None. intros t. by rewrite setQueue_same.
      * destruct (Hd1 (Join name n1)) as (q1 & r1 & H1).
        destruct IHl as (q2 & r2 & H2).
        destruct r1 as [e|].
        -- exists q1, (if decide (e = SkipDir) then None else Some e).
           intros t. rewrite H1. by destruct (decide _).
        -- exists (q1 ++ q2), r2. intros t. rewrite H1, H2. simpl.
           by rewrite app_assoc.
Qed.

Lemma WalkDir_collect dir :
  ∃ q r, ∀ t, WalkDir dir "." collect t = (setQueue (queue t ++ q) t, r).
Proof.
  unfold WalkDir. destruct (fs_root dir) as [e|d].
  - exists [], (if bool_decide (e = SkipDir) || bool_decide (e = SkipAll)
                then None else Some e).
    intros t. simpl. rewrite setQueue_same. by destruct (_ || _).
  - destruct (walkDir_collect d ".") as (q & r & H).
    exists q, (match r with
               | Some e => if bool_decide (e = SkipDir) || bool_decide (e = SkipAll)
                           then None else Some e
               | None => None
               end).
    intros t. rewrite H. destruct r as [e|]; [|done]. by destruct (_ || _).
Qed.

(** On a tree whose directories can all be listed, the walk succeeds and
    appends the non-directories in pre-order. *)
Lemma walkDir_readable d :
  ∀ name t, readable d = true →
    walkDir name d collect t = (setQueue (queue t ++ nonDirectories name d) t, None).
Proof.
  induction d as [ty|dirs rderr IH] using Node_ind; intros name t Hr.
  - reflexivity.
  - simpl in Hr. apply andb_true_iff in Hr as [Hn Hr].
    apply bool_decide_eq_true in Hn. subst rderr. simpl.
    revert t. induction IH as [|[n1 d1] l Hd1 _ IHl]; intros t.
    + by rewrite setQueue_same.
    + apply andb_true_iff in Hr as [Hr1 Hr].
      rewrite (Hd1 _ _ Hr1). rewrite (IHl Hr). simpl.
      by rewrite app_assoc.
Qed.

(** ** Initialisation *)

Section InitFacts.
Variable formatHeader : Header → error + list chunk.

Lemma init_fresh_error dir e :
  (WalkDir dir "." collect (NewTarDirReader dir)).2 = Some e →
  ∃ q, init formatHeader (NewTarDirReader dir) = (failedReader dir q, Some e).
Proof.
  destruct (WalkDir_collect dir) as (q & r & H). rewrite H. simpl.
  intros ->. exists q. unfold init. simpl. by rewrite H.
Qed.

Lemma init_fresh_ok dir :
  (WalkDir dir "." collect (NewTarDirReader dir)).2 = None →
  ∃ q, (WalkDir dir "." collect (NewTarDirReader dir)).1
         = setQueue q (NewTarDirReader dir) ∧
       init formatHeader (NewTarDirReader dir) = (startedReader formatHeader dir q, None).
Proof.
  destruct (WalkDir_collect dir) as (q & r & H). rewrite H. simpl.
  intros ->. exists q. split; [done|]. unfold init. simpl. by rewrite H.
Qed.

Lemma init_fresh_cases dir :
  (∃ q e, init formatHeader (NewTarDirReader dir) = (failedReader dir q, Some e)
          ∧ (WalkDir dir "." collect (NewTarDirReader dir)).2 = Some e) ∨
  (∃ q, init formatHeader (NewTarDirReader dir) = (startedReader formatHeader dir q, None)).
Proof.
  destruct (WalkDir dir "." collect (NewTarDirReader dir)).2 as [e|] eqn:E.
  - left. destruct (init_fresh_error dir e E) as [q Hq]. by exists q, e.
  - right. destruct (init_fresh_ok dir E) as (q & _ & Hq). by exists q.
Qed.

Lemma init_again t : initialized t = true → init formatHeader t = (t, None).
Proof. intros H. unfold init. by rewrite H. Qed.

Lemma setReader_same t p : reader t = Some p → setReader (Some p) t = t.
Proof. destruct t; simpl. by intros ->. Qed.

(** Once initialised, [Read] is the read on the pipe. *)
Lemma Read_initialized t p n :
  initialized t = true → reader t = Some p →
  Read formatHeader t n = (setReader (Some (pipeRead p n).1) t, (pipeRead p n).2).
Proof.
  intros Hi Hp. unfold Read. rewrite (init_again t Hi), Hp.
  by destruct (pipeRead p n).
Qed.

(** The first [Read] of a reader whose walk succeeds is the read on the
    pipe of the started reader. *)
Lemma Read_fresh_started dir q n :
  init formatHeader (NewTarDirReader dir) = (startedReader formatHeader dir q, None) →
  Read formatHeader (NewTarDirReader dir) n
    = Read formatHeader (startedReader formatHeader dir q) n.
Proof.
  intros H. unfold Read at 1. rewrite H.
  rewrite (Read_initialized (startedReader formatHeader dir q) _ n eq_refl eq_refl).
  unfold startedReader at 1. cbn [reader]. by destruct (pipeRead _ n).
Qed.

(** *** Draining the pipe *)

(** The bytes a series of reads collects are the front of what is
    pending, and all of it when the series met the end of the pipe. *)
Lemma readAll_front sizes :
  ∀ t p, initialized t = true → reader t = Some p →
    ∃ rest, concat (pending p) = (readAll formatHeader t sizes).1 ++ rest ∧
      ((readAll formatHeader t sizes).2 = endingOf (wend p) ∧ rest = [] ∨
       finished (readAll formatHeader t sizes).2 = false).
Proof.
  induction sizes as [|n sizes IH]; intros t p Hi Hp.
  - exists (concat (pending p)). split; [done|]. by right.
  - simpl. rewrite (Read_initialized t p n Hi Hp).
    unfold pipeRead. destruct (pending p) as [|bw more] eqn:Epen.
    + exists []. split; [by destruct (wend p)|]. left. by destruct (wend p).
    + simpl.
      set (p' := {| pending := _; wend := _ |}).
      destruct (IH (setReader (Some p') t) p') as (rest & Hcat & Hend);
        [by destruct t|by destruct t|].
      destruct (readAll formatHeader (setReader (Some p') t) sizes)
        as [got e] eqn:Eall.
      simpl in *. exists rest. split; [|done].
      rewrite <- (take_drop (n `min` length bw) bw) at 1.
      rewrite <- !app_assoc. f_equal. rewrite <- Hcat.
      by destruct (decide (drop (n `min` length bw) bw = [])) as [->|].
Qed.

(** Buffers of at least one byte get to the end of the pipe. *)
Lemma readAll_reaches_end sizes :
  ∀ t p, initialized t = true → reader t = Some p →
    Forall (λ n, 0 < n) sizes →
    length (concat (pending p)) + length (pending p) < length sizes →
    finished (readAll formatHeader t sizes).2 = true.
Proof.
  induction sizes as [|n sizes IH]; intros t p Hi Hp Hpos Hlen.
  - simpl in Hlen. lia.
  - apply Forall_cons in Hpos as [Hn Hpos].
    simpl. rewrite (Read_initialized t p n Hi Hp).
    unfold pipeRead. destruct (pending p) as [|bw more] eqn:Epen.
    + by destruct (wend p).
    + simpl.
      set (p' := {| pending := _; wend := _ |}).
      assert (length (concat (pending p')) + length (pending p') < length sizes)
        as Hlen'.
      { subst p'. simpl in *. rewrite length_app in Hlen.
        destruct (decide (drop (n `min` length bw) bw = [])) as [E|E]; simpl.
        - lia.
        - rewrite length_app, length_drop.
          destruct bw as [|b bw]; [by rewrite drop_nil in E|].
          simpl in *. lia. }
      specialize (IH (setReader (Some p') t) p').
      destruct (readAll formatHeader (setReader (Some p') t) sizes)
        as [got e] eqn:Eall.
      simpl in *. apply IH; try done; by destruct t.
Qed.
End InitFacts.

(** ** The producing goroutine *)

Ltac go_unfold :=
  unfold bind, ret, throw, lift, modify, defer, sticky, getArchive, putArchive,
    pipeWrite, pipeClose in *.

Section ProducerFacts.
Variable formatHeader : Header → error + list chunk.

Lemma extends_refl w : extends w w.
Proof. repeat split. exists []. by rewrite app_nil_r. Qed.

Lemma extends_trans w1 w2 w3 : extends w1 w2 → extends w2 w3 → extends w1 w3.
Proof.
  intros (Hh & Hs & m & Hm) (Hh' & Hs' & m' & Hm').
  repeat split; [congruence..|]. exists (m ++ m').
  by rewrite Hm', Hm, app_assoc.
Qed.

Lemma appendData_last es h d b :
  appendData b (es ++ [(h, d)]) = es ++ [(h, d ++ b)].
Proof.
  induction es as [|e es IH]; [done|].
  simpl. rewrite IH. destruct e. by destruct (es ++ [(h, d)]) eqn:E;
    [destruct es; discriminate|].
Qed.

Lemma Flush_spec w :
  wclosed w = false → err (archive w) = None →
  (0 < curr (archive w) ∧
   Flush w = (w, inl (ErrMissedWriting (curr (archive w))))) ∨
  (curr (archive w) = 0 ∧
   Flush w = (setArchive NewWriter
                (setWritten (written w ++ [take (pad (archive w)) zeroBlock]) w),
              inr ())).
Proof.
  intros Hc He. unfold Flush. go_unfold. rewrite He.
  destruct (curr (archive w)) as [|k] eqn:Ek; simpl.
  - right. split; [done|]. rewrite Hc. simpl.
    unfold modify. by rewrite He, Ek.
  - left. split; [lia|done].
Qed.

(** *** File handles *)

Lemma keeps_bind {A B} (m : M A) (k : A → M B) :
  keepsHandles m → (∀ a, keepsHandles (k a)) → keepsHandles (bind m k).
Proof.
  intros Hm Hk w. unfold bind. specialize (Hm w).
  destruct (m w) as [w' [e|a]]; simpl in *; [done|].
  by rewrite Hk.
Qed.

Lemma keeps_ret {A} (a : A) : keepsHandles (ret a).
Proof. done. Qed.

Lemma keeps_throw {A} e : keepsHandles (@throw A e).
Proof. done. Qed.

Lemma keeps_lift {A} (r : error + A) : keepsHandles (lift r).
Proof. done. Qed.

Lemma keeps_getArchive : keepsHandles getArchive.
Proof. done. Qed.

Lemma keeps_putArchive tw : keepsHandles (putArchive tw).
Proof. done. Qed.

Lemma keeps_pipeWrite b : keepsHandles (pipeWrite b).
Proof. intros w. unfold pipeWrite. by destruct (wclosed w). Qed.

Lemma keeps_sticky m : keepsHandles m → keepsHandles (sticky m).
Proof.
  intros Hm w. unfold sticky. specialize (Hm w).
  by destruct (m w) as [w' [e|[]]].
Qed.

Create HintDb keeps.
Hint Resolve keeps_ret keeps_throw keeps_lift keeps_getArchive
  keeps_putArchive keeps_pipeWrite : keeps.

Ltac keeps :=
  repeat first
    [ apply keeps_bind; [|intros ?]
    | apply keeps_sticky
    | progress auto with keeps ].

Lemma keeps_Flush : keepsHandles Flush.
Proof.
  unfold Flush. apply keeps_bind; [auto with keeps|]. intros tw.
  destruct (err tw); [auto with keeps|].
  destruct (0 <? curr tw); keeps.
Qed.

Lemma keeps_writeAll blocks : keepsHandles (writeAll blocks).
Proof. induction blocks; simpl; keeps. Qed.

Lemma keeps_WriteHeader hdr : keepsHandles (WriteHeader formatHeader hdr).
Proof.
  unfold WriteHeader. apply keeps_bind; [apply keeps_Flush|]. intros _.
  destruct (formatHeader _); [auto with keeps|].
  apply keeps_sticky. apply keeps_bind; [apply keeps_writeAll|]. intros _.
  keeps.
Qed.

Lemma keeps_Write b : keepsHandles (Write b).
Proof.
  unfold Write. apply keeps_bind; [auto with keeps|]. intros tw.
  destruct (err tw); [auto with keeps|].
  intros w. destruct (0 <? length _); [|by destruct (curr tw <? length b)].
  pose proof (keeps_pipeWrite (if curr tw <? length b then take (curr tw) b else b) w) as H.
  destruct (pipeWrite _ w) as [w' [e|n]]; simpl in *; [done|].
  by destruct (curr tw <? length b).
Qed.

Lemma keeps_copyBuffer reads fail n : keepsHandles (copyBuffer reads fail n).
Proof.
  revert n. induction reads as [|buf reads IH]; intros n; simpl.
  - destruct fail as [er|]; [|auto with keeps].
    destruct (decide _); auto with keeps.
  - destruct (0 <? length buf); [|done].
    apply keeps_bind; [apply keeps_Write|]. intros nw.
    destruct (decide _); auto with keeps.
Qed.

Lemma remove1_head f l : remove1 f (f :: l) = l.
Proof. simpl. by rewrite decide_True. Qed.

Lemma keeps_writeFile_body f file :
  keepsHandles
    (info <- lift (f_stat file) ;;
     header <- lift (FileInfoHeader info EmptyString) ;;
     let header := setName header (Base f) in
     WriteHeader formatHeader header ;;
     Copy file ;;
     Flush).
Proof.
  apply keeps_bind; [auto with keeps|]. intros info.
  apply keeps_bind; [auto with keeps|]. intros header.
  apply keeps_bind; [apply keeps_WriteHeader|]. intros _.
  apply keeps_bind; [apply keeps_copyBuffer|]. intros _.
  apply keeps_Flush.
Qed.

Lemma writeFile_handles t f w :
  handles (writeFile formatHeader t f w).1 = handles w.
Proof.
  unfold writeFile, Open. unfold bind at 1 2 3. unfold lift at 1.
  destruct (fs_open (fs t) f) as [e|file]; [done|].
  unfold modify at 1, ret at 1, defer.
  pose proof (keeps_writeFile_body f file
                (setHandles (f :: handles w) w)) as H.
  destruct (bind (lift (f_stat file)) _ _) as [w' r].
  simpl in *. rewrite H. apply remove1_head.
Qed.

Lemma rangeQueue_handles t q :
  ∀ w, handles (rangeQueue formatHeader t q w).1 = handles w.
Proof.
  induction q as [|f q IH]; intros w; simpl.
  - done.
  - pose proof (writeFile_handles t f
                  (Println ("writing file to tar " +:+ f) w)) as H.
    destruct (writeFile _ _ _ _) as [w' [e|u]]; simpl in *; [done|].
    by rewrite IH.
Qed.

Lemma keeps_Close : keepsHandles Close.
Proof.
  unfold Close. apply keeps_bind; [auto with keeps|]. intros tw.
  destruct (decide _); [auto with keeps|].
  destruct (err tw); [auto with keeps|].
  intros w.
  assert (keepsHandles (Flush ;; pipeWrite zeroBlock ;; pipeWrite zeroBlock ;; ret ()))
    as H by (apply keeps_bind; [apply keeps_Flush|]; intros _; keeps).
  specialize (H w). by destruct (bind Flush _ w).
Qed.

Lemma writeQueue_handles t w :
  handles (writeQueue formatHeader t w).1 = handles w.
Proof.
  unfold writeQueue.
  pose proof (rangeQueue_handles t (queue t) w) as Hq.
  destruct (rangeQueue formatHeader t (queue t) w) as [w1 [|e]]; [|done].
  pose proof (keeps_Close w1) as Hc.
  destruct (Close w1) as [w2 [e|u]]; simpl in *; congruence.
Qed.

(** *** Entries *)

Lemma setWritten_same w : setWritten (written w ++ []) w = w.
Proof. destruct w; unfold setWritten; simpl. by rewrite app_nil_r. Qed.

Lemma writeAll_spec blocks :
  ∀ w, wclosed w = false →
    writeAll blocks w = (setWritten (written w ++ blocks) w, inr ()).
Proof.
  induction blocks as [|b blocks IH]; intros w Hc; simpl.
  - by rewrite setWritten_same.
  - unfold bind, pipeWrite. rewrite Hc. rewrite IH by done. simpl.
    by rewrite <- app_assoc.
Qed.

Lemma WriteHeader_idle hdr w w' r :
  idle w → WriteHeader formatHeader hdr w = (w', r) →
  extends w w' ∧
  match r with
  | inl _ => wclosed w' = false ∧ entries w' = entries w
  | inr _ => inEntry (entries w) (stored hdr) w'
  end.
Proof.
  intros [Hc Ha] H. unfold WriteHeader in H. unfold bind at 1 in H.
  assert (err (archive w) = None) as He by (by rewrite Ha).
  destruct (Flush_spec w Hc He) as [[Hlt _]|[_ HF]].
  { rewrite Ha in Hlt. simpl in Hlt. lia. }
  rewrite HF in H. clear HF. cbv zeta in H.
  destruct (formatHeader (stored hdr)) as [e|blocks].
  - inversion H; subst; clear H. split; [|done].
    repeat split. by eexists.
  - unfold sticky, bind at 1 in H. rewrite writeAll_spec in H by done.
    go_unfold. simpl in H. inversion H; subst; clear H.
    split; [repeat split; simpl; rewrite <- app_assoc; by eexists|].
    repeat split; [done|]. by eexists.
Qed.

Lemma Write_inEntry es h b w w' r :
  inEntry es h w → Write b w = (w', r) → extends w w' ∧ inEntry es h w'.
Proof.
  intros (Hc & He & d & Hd) H. unfold Write, bind, getArchive in H.
  rewrite He in H. unfold pipeWrite in H. rewrite Hc in H.
  destruct (0 <? length _) eqn:Elen.
  - simpl in H.
    destruct (curr (archive w) <? length b); inversion H; subst; clear H;
      (split; [repeat split; by eexists|]);
      (repeat split; [done..|]); simpl; rewrite Hd, appendData_last;
      by eexists.
  - destruct (curr (archive w) <? length b); inversion H; subst; clear H;
      (split; [apply extends_refl|]); repeat split; try done; by eexists.
Qed.

Lemma copyBuffer_inEntry es h reads fail :
  ∀ n w w' r, inEntry es h w → copyBuffer reads fail n w = (w', r) →
    inEntry es h w'.
Proof.
  induction reads as [|buf reads IH]; intros n w w' r Hin H; simpl in H.
  - destruct fail as [er|]; [destruct (decide _)|]; inversion H; by subst.
  - destruct (0 <? length buf); [|by eapply IH].
    unfold bind in H. destruct (Write buf w) as [w1 [e|nw]] eqn:EW;
      apply Write_inEntry with (es := es) (h := h) in EW as [_ Hin1]; try done.
    + inversion H; by subst.
    + destruct (decide _); [by eapply IH|]. inversion H; by subst.
Qed.

Lemma Flush_inEntry es h w w' r :
  inEntry es h w → Flush w = (w', r) →
  inEntry es h w' ∧ (r = inr () → idle w').
Proof.
  intros Hin H. pose proof Hin as (Hc & He & d & Hd).
  destruct (Flush_spec w Hc He) as [[_ HF]|[_ HF]];
    rewrite HF in H; inversion H; subst; clear H.
  - done.
  - split; [|done]. repeat split; [done..|]. by exists d.
Qed.

(** One file, started between two entries: the pipe stays open, at most
    one entry is added, its name is the base name of the path, and after
    a success the writer is between two entries again. *)
Lemma writeFile_idle t f w w' r :
  idle w → writeFile formatHeader t f w = (w', r) →
  wclosed w' = false ∧
  match r with
  | inr _ => idle w' ∧ ∃ h d, entries w' = entries w ++ [(h, d)] ∧ Name h = Base f
  | inl _ => entries w' = entries w ∨
             ∃ h d, entries w' = entries w ++ [(h, d)] ∧ Name h = Base f
  end.
Proof.
  intros Hidle H. unfold writeFile, Open in H.
  unfold bind at 1 2 3, lift at 1 in H.
  destruct (fs_open (fs t) f) as [e|file].
  { inversion H; subst. destruct Hidle. split; [done|by left]. }
  unfold modify at 1, ret at 1, defer in H.
  set (w0 := setHandles (f :: handles w) w) in H.
  assert (idle w0) as Hidle0 by (by destruct Hidle).
  assert (entries w0 = entries w) as Hent0 by done.
  clearbody w0. rewrite <- Hent0. clear Hent0 Hidle w.
  unfold bind at 1, lift at 1 in H.
  destruct (f_stat file) as [e|info].
  { inversion H; subst. destruct Hidle0. split; [done|by left]. }
  unfold bind at 1, lift at 1 in H.
  destruct (FileInfoHeader info EmptyString) as [e|header].
  { inversion H; subst. destruct Hidle0. split; [done|by left]. }
  unfold bind at 1 in H.
  destruct (WriteHeader formatHeader (setName header (Base f)) w0)
    as [w1 [e|u]] eqn:EH;
    apply WriteHeader_idle in EH as [_ EH]; try done.
  { inversion H; subst. destruct EH as [Hc Hent]. split; [done|by left]. }
  unfold bind at 1 in H.
  destruct (Copy file w1) as [w2 [e|nw]] eqn:EC;
    eapply copyBuffer_inEntry in EC; try exact EH.
  { inversion H; subst. destruct EC as (Hc & _ & d & Hd).
    split; [done|]. right. by exists (stored (setName header (Base f))), d. }
  destruct (Flush w2) as [w3 [e|[]]] eqn:EF;
    eapply Flush_inEntry in EF as [(Hc & _ & d & Hd) Hi]; try exact EC;
    inversion H; subst; clear H.
  - split; [done|]. right. by exists (stored (setName header (Base f))), d.
  - split; [done|]. split; [by destruct Hi|].
    by exists (stored (setName header (Base f))), d.
Qed.

(** *** The content of an entry *)

Lemma Write_ok es h d c p b w w' n :
  filling es h d c p w → Write b w = (w', inr n) →
  n = length b ∧ length b ≤ c ∧ filling es h (d ++ b) (c - length b) p w'.
Proof.
  intros (Hc & Ha & Hd) H. unfold Write, bind, getArchive in H.
  rewrite Ha in H. simpl in H. unfold pipeWrite in H. rewrite Hc in H.
  destruct (c <? length b) eqn:Eover.
  { destruct (0 <? length (take c b)); simpl in H; inversion H. }
  apply Nat.ltb_ge in Eover.
  destruct (0 <? length b) eqn:Elen; simpl in H; inversion H; subst; clear H.
  - repeat split; try done. simpl. by rewrite Hd, appendData_last.
  - apply Nat.ltb_ge in Elen. assert (b = []) as -> by (destruct b; simpl in *; [done|lia]).
    repeat split; simpl; try done.
    + by rewrite Ha, Nat.sub_0_r.
    + by rewrite Hd, app_nil_r.
Qed.

Lemma copyBuffer_ok es h p reads fail :
  ∀ d c k w w' n, filling es h d c p w →
    copyBuffer reads fail k w = (w', inr n) →
    length (concat reads) ≤ c ∧
    filling es h (d ++ concat reads) (c - length (concat reads)) p w'.
Proof.
  induction reads as [|buf reads IH]; intros d c k w w' n Hfill H; simpl in H.
  - assert (w' = w) as ->.
    { destruct fail as [er|]; [destruct (decide _)|]; by inversion H. }
    simpl. split; [lia|]. by rewrite app_nil_r, Nat.sub_0_r.
  - simpl. rewrite length_app.
    destruct (0 <? length buf) eqn:Elen.
    + unfold bind in H. destruct (Write buf w) as [w1 [e|nw]] eqn:EW; [done|].
      destruct (Write_ok es h d c p buf w w1 nw Hfill EW) as (-> & Hle & Hfill1).
      rewrite decide_True in H by done.
      destruct (IH _ _ _ _ _ _ Hfill1 H) as [Hle' Hfill'].
      split; [lia|]. rewrite app_assoc.
      by replace (c - (length buf + length (concat reads)))
        with (c - length buf - length (concat reads)) by lia.
    + apply Nat.ltb_ge in Elen.
      assert (buf = []) as -> by (destruct buf; simpl in *; [done|lia]).
      simpl. by apply (IH d c k w w' n).
Qed.

Lemma WriteHeader_ok hdr w w' :
  idle w → WriteHeader formatHeader hdr w = (w', inr ()) →
  let size := if isHeaderOnlyType (Typeflag hdr) then 0 else Size hdr in
  filling (entries w) (stored hdr) [] size (blockPadding size) w'.
Proof.
  intros [Hc Ha] H. unfold WriteHeader in H. unfold bind at 1 in H.
  assert (err (archive w) = None) as He by (by rewrite Ha).
  destruct (Flush_spec w Hc He) as [[Hlt _]|[_ HF]].
  { rewrite Ha in Hlt. simpl in Hlt. lia. }
  rewrite HF in H. clear HF. cbv zeta in H.
  destruct (formatHeader (stored hdr)) as [e|blocks]; [done|].
  unfold sticky, bind at 1 in H. rewrite writeAll_spec in H by done.
  go_unfold. simpl in H. inversion H; subst; clear H.
  by repeat split.
Qed.

(** A file that was written without error left one entry behind: its
    header is the one made from [Stat], renamed to the base name of the
    path, and its content is what was read from the file, which for a
    regular file is as long as the size in the header. *)
Lemma writeFile_entry t f w w' :
  idle w → writeFile formatHeader t f w = (w', inr ()) →
  ∃ file info h0,
    fs_open (fs t) f = inr file ∧
    f_stat file = inr info ∧
    FileInfoHeader info EmptyString = inr h0 ∧
    entries w'
      = entries w ++ [(stored (setName h0 (Base f)), concat (f_reads file))] ∧
    length (concat (f_reads file))
      = (if isHeaderOnlyType (Typeflag h0) then 0 else Size h0).
Proof.
  intros Hidle H. unfold writeFile, Open in H.
  unfold bind at 1 2 3, lift at 1 in H.
  destruct (fs_open (fs t) f) as [e|file] eqn:Eopen; [done|].
  unfold modify at 1, ret at 1, defer in H.
  set (w0 := setHandles (f :: handles w) w) in H.
  assert (idle w0) as Hidle0 by (by destruct Hidle).
  assert (entries w0 = entries w) as Hent0 by done.
  clearbody w0. rewrite <- Hent0. clear Hent0 Hidle w.
  unfold bind at 1, lift at 1 in H.
  destruct (f_stat file) as [e|info] eqn:Estat; [done|].
  unfold bind at 1, lift at 1 in H.
  destruct (FileInfoHeader info EmptyString) as [e|h0] eqn:Ehdr; [done|].
  exists file, info, h0.
  unfold bind at 1 in H.
  destruct (WriteHeader formatHeader (setName h0 (Base f)) w0)
    as [w1 [e|[]]] eqn:EH; [done|].
  pose proof (WriteHeader_ok _ _ _ Hidle0 EH) as Hfill. simpl in Hfill.
  unfold bind at 1 in H.
  destruct (Copy file w1) as [w2 [e|nw]] eqn:EC; [done|].
  destruct (copyBuffer_ok _ _ _ _ _ _ _ _ _ _ _ Hfill EC) as [Hle Hfill2].
  simpl in Hfill2. destruct Hfill2 as (Hc2 & Ha2 & Hent2).
  assert (err (archive w2) = None) as He2 by (by rewrite Ha2).
  destruct (Flush_spec w2 Hc2 He2) as [[Hlt HF]|[Hz HF]];
    rewrite HF in H; inversion H; subst; clear H.
  repeat split; try done.
  rewrite Ha2 in Hz. simpl in Hz. lia.
Qed.

(** *** The whole queue *)

(** Between two entries, closing the archive cannot fail: it writes the
    (empty) padding and the two zero blocks. *)
Lemma Close_idle w :
  idle w →
  Close w =
    (setArchive {| pad := 0; curr := 0; err := Some ErrWriteAfterClose |}
       (setWritten (written w ++ [[]; zeroBlock; zeroBlock]) w),
     inr ()).
Proof.
  intros [Hc Ha]. unfold Close. unfold bind at 1, getArchive.
  rewrite Ha. simpl err. rewrite decide_False by done.
  change (err NewWriter) with (@None error). cbv beta iota.
  destruct (Flush_spec w Hc) as [[Hlt _]|[_ HF]]; [by rewrite Ha| |].
  { rewrite Ha in Hlt. simpl in Hlt. lia. }
  unfold bind at 1. rewrite HF. rewrite Ha. go_unfold. simpl.
  repeat (rewrite Hc; simpl). by rewrite <- !app_assoc.
Qed.

Lemma idle_Println line w : idle w → idle (Println line w).
Proof. by intros []. Qed.

(** The loop writes one entry per path, under its base name, as far as it
    gets; it leaves the pipe open, and it gets through the whole queue
    exactly when no file fails. *)
Lemma rangeQueue_names t q :
  ∀ w w' o, idle w → rangeQueue formatHeader t q w = (w', o) →
    ∃ k, map (λ e, Name e.1) (entries w')
           = map (λ e, Name e.1) (entries w) ++ map Base (take k q) ∧
         wclosed w' = false ∧
         (o = Returned → k = length q ∧ idle w').
Proof.
  induction q as [|f q IH]; intros w w' o Hidle H; simpl in H.
  - inversion H; subst; clear H.
    exists 0. simpl. rewrite app_nil_r. by destruct Hidle.
  - destruct (writeFile _ _ _ _) as [w1 [e|u]] eqn:EW;
      apply writeFile_idle in EW as [Hc EW]; try by apply idle_Println.
    + inversion H; subst; clear H. simpl in EW.
      destruct EW as [->|(h & d & -> & Hn)].
      * exists 0. simpl. by rewrite app_nil_r.
      * exists 1. rewrite map_app. simpl. by rewrite Hn.
    + destruct EW as (Hidle1 & h & d & Hent & Hn). simpl in Hent.
      destruct (IH _ _ _ Hidle1 H) as (k & Hk & Hc' & Hret).
      exists (S k). split; [|split; [done|]].
      * rewrite Hk, Hent, map_app. simpl. by rewrite Hn, <- app_assoc.
      * intros Ho. destruct (Hret Ho) as [-> ?]. by split.
Qed.

(** After the loop: the trailer, the close of the pipe, the last line. *)
Lemma writeQueue_returned t w w1 :
  idle w1 → rangeQueue formatHeader t (queue t) w = (w1, Returned) →
  writeQueue formatHeader t w =
    (Println "writing complete"
       (setWclosed true
          (setArchive {| pad := 0; curr := 0; err := Some ErrWriteAfterClose |}
             (setWritten (written w1 ++ [[]; zeroBlock; zeroBlock]) w1))),
     Returned).
Proof.
  intros Hidle Hq. unfold writeQueue. rewrite Hq.
  by rewrite (Close_idle w1 Hidle).
Qed.

Lemma writeQueue_panicked t w w1 e :
  rangeQueue formatHeader t (queue t) w = (w1, Panicked e) →
  writeQueue formatHeader t w = (w1, Panicked e).
Proof. intros Hq. unfold writeQueue. by rewrite Hq. Qed.

(** The entries written follow the queue, one per path and under its base
    name, as far as the goroutine got; it got through the whole queue and
    closed the pipe exactly when it returned. *)
Lemma writeQueue_names t w w' o :
  idle w → writeQueue formatHeader t w = (w', o) →
  ∃ k, map (λ e, Name e.1) (entries w')
         = map (λ e, Name e.1) (entries w) ++ map Base (take k (queue t)) ∧
       match o with
       | Returned => k = length (queue t) ∧ wclosed w' = true
       | Panicked e =>
           wclosed w' = false ∧
           rangeQueue formatHeader t (queue t) w = (w', Panicked e)
       end.
Proof.
  intros Hidle H.
  destruct (rangeQueue formatHeader t (queue t) w) as [w1 o1] eqn:Eq.
  destruct (rangeQueue_names t (queue t) w w1 o1 Hidle Eq) as (k & Hk & Hc & Hret).
  destruct o1 as [|e].
  - destruct (Hret eq_refl) as [-> Hidle1].
    rewrite (writeQueue_returned t w w1 Hidle1 Eq) in H.
    inversion H; subst; clear H. exists (length (queue t)). by split.
  - rewrite (writeQueue_panicked t w w1 e Eq) in H.
    inversion H; subst; clear H. exists k. by split.
Qed.

(** When the loop gets through the queue, the entries it wrote are those
    of the paths of the queue, in that order. *)
Lemma rangeQueue_entries t q :
  ∀ w w', idle w → rangeQueue formatHeader t q w = (w', Returned) →
    map Some (entries w') = map Some (entries w) ++ map (entryOf (fs t)) q.
Proof.
  induction q as [|f q IH]; intros w w' Hidle H; simpl in H.
  - inversion H; subst. simpl. by rewrite app_nil_r.
  - destruct (writeFile _ _ _ _) as [w1 [e|[]]] eqn:EW; [done|].
    pose proof (idle_Println ("writing file to tar " +:+ f) w Hidle) as Hidle0.
    destruct (writeFile_entry t f _ w1 Hidle0 EW)
      as (file & info & h0 & Eopen & Estat & Ehdr & Hent & _).
    apply writeFile_idle in EW as [_ [Hidle1 _]]; [|done].
    rewrite (IH w1 w' Hidle1 H), Hent, map_app. simpl.
    unfold entryOf at 2. rewrite Eopen, Estat, Ehdr.
    by rewrite <- app_assoc.
Qed.

Lemma writeQueue_entries t w w' :
  idle w → writeQueue formatHeader t w = (w', Returned) →
  map Some (entries w') = map Some (entries w) ++ map (entryOf (fs t)) (queue t).
Proof.
  intros Hidle H.
  destruct (rangeQueue formatHeader t (queue t) w) as [w1 o1] eqn:Eq.
  destruct o1 as [|e]; [|by rewrite (writeQueue_panicked t w w1 e Eq) in H].
  pose proof (rangeQueue_names t (queue t) w w1 Returned Hidle Eq)
    as (k & _ & _ & Hret).
  destruct (Hret eq_refl) as [_ Hidle1].
  rewrite (writeQueue_returned t w w1 Hidle1 Eq) in H.
  inversion H; subst; clear H. simpl.
  by apply rangeQueue_entries.
Qed.

(** A panic of the loop comes from one file of the queue, and that file is
    the last thing the goroutine touches: the paths before it were written,
    the paths after it are never opened. *)
Lemma rangeQueue_panicked t q :
  ∀ w w' e, rangeQueue formatHeader t q w = (w', Panicked e) →
    ∃ pre f post w1,
      q = pre ++ f :: post ∧
      rangeQueue formatHeader t pre w = (w1, Returned) ∧
      writeFile formatHeader t f (Println ("writing file to tar " +:+ f) w1)
        = (w', inl e).
Proof.
  induction q as [|f q IH]; intros w w' e H; simpl in H; [done|].
  destruct (writeFile _ _ _ _) as [w1 [e1|u]] eqn:EW.
  - inversion H; subst; clear H. by exists [], f, q, w.
  - destruct (IH _ _ _ H) as (pre & g & post & w2 & -> & Hpre & Hg).
    exists (f :: pre), g, post, w2. repeat split; try done.
    simpl. by rewrite EW.
Qed.

Lemma idle_World0 : idle World0.
Proof. done. Qed.
End ProducerFacts.

(** ** Reading a fresh reader to its end *)

Section FreshReader.
Variable formatHeader : Header → error + list chunk.

Lemma readAll_fresh_started dir q sizes :
  init formatHeader (NewTarDirReader dir) = (startedReader formatHeader dir q, None) →
  sizes ≠ [] →
  readAll formatHeader (NewTarDirReader dir) sizes
    = readAll formatHeader (startedReader formatHeader dir q) sizes.
Proof.
  intros H Hne. destruct sizes as [|n sizes]; [done|].
  simpl. by rewrite (Read_fresh_started formatHeader dir q n H).
Qed.

(** Whatever the buffers, the bytes collected are the front of
    [archiveBytes]; they are all of it once the reads have ended, and the
    reads then ended in the one way they can. *)
Lemma readAll_fresh dir sizes :
  ∃ rest,
    archiveBytes formatHeader dir
      = (readAll formatHeader (NewTarDirReader dir) sizes).1 ++ rest ∧
    (finished (readAll formatHeader (NewTarDirReader dir) sizes).2 = false ∨
     rest = [] ∧
     (readAll formatHeader (NewTarDirReader dir) sizes).2
       = expectedEnding formatHeader dir).
Proof.
  destruct sizes as [|n sizes].
  { exists (archiveBytes formatHeader dir). split; [done|by left]. }
  unfold archiveBytes, expectedEnding.
  destruct (init_fresh_cases formatHeader dir) as [(q & e & H & _)|[q H]].
  - exists []. simpl. unfold Read. rewrite H. simpl. split; [done|by right].
  - rewrite (readAll_fresh_started dir q (n :: sizes) H) by done.
    rewrite H.
    destruct (readAll_front formatHeader (n :: sizes)
                (startedReader formatHeader dir q) _ eq_refl eq_refl)
      as (rest & Hcat & Hend).
    exists rest. cbn [fst goroutine reader startedReader].
    destruct (firstRun formatHeader dir q) as [w o] eqn:Erun.
    split; [exact Hcat|].
    destruct Hend as [[He ->]|Hf]; [right|by left]. by split.
Qed.

Lemma readAll_fresh_reaches_end dir sizes :
  Forall (λ n, 0 < n) sizes →
  readsNeeded formatHeader dir ≤ length sizes →
  finished (readAll formatHeader (NewTarDirReader dir) sizes).2 = true.
Proof.
  intros Hpos Hlen. unfold readsNeeded in Hlen.
  destruct (init_fresh_cases formatHeader dir) as [(q & e & H & _)|[q H]];
    rewrite H in Hlen; cbn [fst goroutine startedReader failedReader] in Hlen.
  - destruct sizes as [|n sizes]; [simpl in Hlen; lia|].
    simpl. unfold Read. by rewrite H.
  - destruct (firstRun formatHeader dir q) as [w o] eqn:Erun.
    destruct sizes as [|n sizes]; [simpl in Hlen; lia|].
    rewrite (readAll_fresh_started dir q (n :: sizes) H) by done.
    apply readAll_reaches_end
      with (p := attach (firstRun formatHeader dir q)); [done..|].
    rewrite Erun. simpl in *. lia.
Qed.

(** Reading only ever replaces the pipe of an initialised reader. *)
Lemma readAll_StillOpen sizes :
  ∀ t p got t', initialized t = true → reader t = Some p →
    readAll formatHeader t sizes = (got, StillOpen t') →
    ∃ p', t' = setReader (Some p') t.
Proof.
  induction sizes as [|n sizes IH]; intros t p got t' Hi Hp H; simpl in H.
  - inversion H; subst. exists p. by rewrite setReader_same.
  - rewrite (Read_initialized formatHeader t p n Hi Hp) in H.
    destruct (pipeRead p n) as [p1 [data [e|]| |e]]; simpl in H; try done.
    destruct (readAll formatHeader (setReader (Some p1) t) sizes)
      as [more e] eqn:E.
    inversion H; subst; clear H.
    destruct (IH (setReader (Some p1) t) p1 more t') as [p' ->];
      [by destruct t|by destruct t|done|].
    by exists p'.
Qed.
(** Enough reads with buffers of at least one byte collect the whole
    stream and meet its end. *)
Lemma readAll_fresh_complete dir sizes :
  Forall (λ n, 0 < n) sizes →
  readsNeeded formatHeader dir ≤ length sizes →
  readAll formatHeader (NewTarDirReader dir) sizes
    = (archiveBytes formatHeader dir, expectedEnding formatHeader dir).
Proof.
  intros Hpos Hlen.
  pose proof (readAll_fresh_reaches_end dir sizes Hpos Hlen) as Hfin.
  destruct (readAll_fresh dir sizes) as (rest & Hcat & [Hf|[-> He]]).
  { congruence. }
  rewrite app_nil_r in Hcat.
  destruct (readAll formatHeader (NewTarDirReader dir) sizes) as [got e].
  simpl in *. congruence.
Qed.
End FreshReader.

(** ** The queue and the entries *)

Lemma regularFiles_sublist d :
  ∀ name, regularFiles name d `sublist_of` nonDirectories name d.
Proof.
  induction d as [ty|dirs rderr IH] using Node_ind; intros name.
  - destruct ty; simpl; by repeat constructor.
  - simpl. induction IH as [|[n1 d1] l Hd1 _ IHl]; [done|].
    by apply sublist_app.
Qed.

Lemma regularFiles_allRegular d :
  ∀ name, allRegular d = true → nonDirectories name d = regularFiles name d.
Proof.
  induction d as [ty|dirs rderr IH] using Node_ind; intros name Hall.
  - simpl in Hall. apply bool_decide_eq_true in Hall. by subst.
  - simpl in *. induction IH as [|[n1 d1] l Hd1 _ IHl]; [done|].
    apply andb_true_iff in Hall as [H1 Hl].
    by rewrite (Hd1 _ H1), (IHl Hl).
Qed.

Lemma unpack_snoc es e : unpack (es ++ [e]) = <[Name e.1 := e.2]> (unpack es).
Proof. unfold unpack. by rewrite foldl_app. Qed.

(** Unpacking leaves, under each name, the content of the last entry of
    that name. *)
Lemma unpack_last_wins es :
  ∀ j e, es !! j = Some e →
    (∀ k e', j < k → es !! k = Some e' → Name e'.1 ≠ Name e.1) →
    unpack es !! Name e.1 = Some e.2.
Proof.
  induction es as [|x es IH] using rev_ind; intros j e Hj Hlater; [done|].
  rewrite unpack_snoc.
  destruct (decide (j = length es)) as [->|Hne].
  - rewrite list_lookup_middle in Hj by done. inversion Hj; subst.
    apply lookup_insert_eq.
  - assert (j < length es) as Hlt.
    { apply lookup_lt_Some in Hj. rewrite length_app in Hj. simpl in Hj. lia. }
    rewrite lookup_app_l in Hj by done.
    rewrite lookup_insert_ne.
    + apply (IH j e Hj). intros k e' Hk He'. apply (Hlater k e' Hk).
      rewrite lookup_app_l; [done|]. by apply lookup_lt_Some in He'.
    + apply (Hlater (length es) x Hlt). by apply list_lookup_middle.
Qed.

Section QueueFacts.
Variable formatHeader : Header → error + list chunk.

Lemma init_readable dir d :
  fs_root dir = inr d → readable d = true →
  init formatHeader (NewTarDirReader dir)
    = (startedReader formatHeader dir (nonDirectories "." d), None).
Proof.
  intros Hroot Hr. unfold init. cbn [initialized NewTarDirReader].
  unfold WalkDir. cbn [fs setReader setInitialized NewTarDirReader].
  rewrite Hroot. by rewrite walkDir_readable.
Qed.

(** [writeFile] and the loop use nothing of the reader but its [fs]. *)
Lemma writeFile_fs t t' f :
  fs t = fs t' → writeFile formatHeader t f = writeFile formatHeader t' f.
Proof. unfold writeFile. by intros ->. Qed.

Lemma rangeQueue_fs t t' q :
  fs t = fs t' →
  ∀ w, rangeQueue formatHeader t q w = rangeQueue formatHeader t' q w.
Proof.
  intros Hfs. induction q as [|f q IH]; intros w; simpl; [done|].
  rewrite (writeFile_fs t t' f Hfs).
  destruct (writeFile _ _ _ _) as [w1 [e|u]]; [done|apply IH].
Qed.

Lemma rangeQueue_app t pre q :
  ∀ w w1, rangeQueue formatHeader t pre w = (w1, Returned) →
    rangeQueue formatHeader t (pre ++ q) w = rangeQueue formatHeader t q w1.
Proof.
  induction pre as [|f pre IH]; intros w w1 H; simpl in *.
  - inversion H; by subst.
  - destruct (writeFile _ _ _ _) as [w' [e|u]]; [done|by apply IH].
Qed.

Lemma rangeQueue_idle t pre :
  ∀ w w1, idle w → rangeQueue formatHeader t pre w = (w1, Returned) → idle w1.
Proof.
  intros w w1 Hidle H.
  destruct (rangeQueue_names formatHeader t pre w w1 Returned Hidle H)
    as (k & _ & _ & Hret).
  by destruct (Hret eq_refl).
Qed.

(** The entries of the first run, against the queue. *)
Lemma firstRun_names dir q w o :
  firstRun formatHeader dir q = (w, o) →
  map (λ e, Name e.1) (entries w) = map Base (take (length (entries w)) q) ∧
  (o = Returned →
     map (λ e, Name e.1) (entries w) = map Base q ∧ wclosed w = true).
Proof.
  intros Hrun. unfold firstRun in Hrun.
  destruct (writeQueue_names formatHeader _ World0 w o idle_World0 Hrun)
    as (k & Hk & Hret).
  cbn [queue failedReader] in *. simpl in Hk.
  assert (length (entries w) = k `min` length q) as Hlen.
  { rewrite <- (length_map (λ e, Name e.1)), Hk, length_map. apply length_take. }
  assert (take (length (entries w)) q = take k q) as Htake.
  { rewrite Hlen. destruct (decide (k ≤ length q)).
    - by rewrite Nat.min_l.
    - rewrite Nat.min_r by lia. by rewrite !take_ge by lia. }
  split; [by rewrite Htake|].
  intros ->. destruct Hret as [-> Hc]. split; [|done].
  by rewrite Hk, take_ge.
Qed.
Lemma firstRun_entries dir q w :
  firstRun formatHeader dir q = (w, Returned) →
  map Some (entries w) = map (entryOf dir) q.
Proof.
  intros Hrun. unfold firstRun in Hrun.
  by apply (writeQueue_entries formatHeader _ World0 w idle_World0) in Hrun.
Qed.
End QueueFacts.

(** * The claims *)

Section ClaimsOnAFailedWalk.
Variable formatHeader : Header → error + list chunk.

(** C2. If the walk of the source tree fails during the one-time
    initialisation, the first [Read] returns that error with no bytes, the
    goroutine is never started and nothing reaches the pipe. *)
Theorem traversal_error_reported_by_first_read dir e n :
  (WalkDir dir "." collect (NewTarDirReader dir)).2 = Some e →
  ∃ t, Read formatHeader (NewTarDirReader dir) n = (t, Returns [] (Some e)) ∧
       goroutine t = None ∧
       reader t = Some emptyPipe ∧
       archiveBytes formatHeader dir = [].
Proof.
  intros Hwalk.
  destruct (init_fresh_error formatHeader dir e Hwalk) as [q Hinit].
  exists (failedReader dir q). unfold Read, archiveBytes. by rewrite Hinit.
Qed.

(** C10. After a first [Read] that returned a traversal error the reader
    stays marked as initialised, with a pipe that has no writer: [init]
    returns nil from then on, and every later [Read] blocks; none of them
    returns data, an error or the end of the stream. *)
Theorem failed_init_is_never_retried dir e n :
  (WalkDir dir "." collect (NewTarDirReader dir)).2 = Some e →
  ∃ t, Read formatHeader (NewTarDirReader dir) n = (t, Returns [] (Some e)) ∧
       initialized t = true ∧
       goroutine t = None ∧
       reader t = Some emptyPipe ∧
       init formatHeader t = (t, None) ∧
       (∀ m, Read formatHeader t m = (t, Blocks)) ∧
       (∀ m sizes, readAll formatHeader t (m :: sizes) = ([], Hung)).
Proof.
  intros Hwalk.
  destruct (init_fresh_error formatHeader dir e Hwalk) as [q Hinit].
  exists (failedReader dir q).
  assert (∀ m, Read formatHeader (failedReader dir q) m
               = (failedReader dir q, Blocks)) as Hblocks by done.
  repeat split; try done.
  unfold Read. by rewrite Hinit.
Qed.
End ClaimsOnAFailedWalk.

Lemma traversal_error_reported_by_first_read_witness :
  (WalkDir missingRootFS "." collect (NewTarDirReader missingRootFS)).2
    = Some (ErrNotExist "stat" ".") ∧
  ∃ t, Read nameBlockFormat (NewTarDirReader missingRootFS) 4096
         = (t, Returns [] (Some (ErrNotExist "stat" "."))) ∧
       goroutine t = None ∧
       reader t = Some emptyPipe ∧
       archiveBytes nameBlockFormat missingRootFS = [].
Proof.
  split; [reflexivity|].
  apply (traversal_error_reported_by_first_read nameBlockFormat missingRootFS
           (ErrNotExist "stat" ".") 4096).
  reflexivity.
Defined.

Lemma failed_init_is_never_retried_witness :
  (WalkDir unreadableFS "." collect (NewTarDirReader unreadableFS)).2
    = Some (permissionDenied "open" "secret") ∧
  ∃ t, Read nameBlockFormat (NewTarDirReader unreadableFS) 512
         = (t, Returns [] (Some (permissionDenied "open" "secret"))) ∧
       initialized t = true ∧
       goroutine t = None ∧
       reader t = Some emptyPipe ∧
       init nameBlockFormat t = (t, None) ∧
       (∀ m, Read nameBlockFormat t m = (t, Blocks)) ∧
       (∀ m sizes, readAll nameBlockFormat t (m :: sizes) = ([], Hung)).
Proof.
  split; [reflexivity|].
  apply (failed_init_is_never_retried nameBlockFormat unreadableFS
           (permissionDenied "open" "secret") 512).
  reflexivity.
Defined.

Section ClaimsOnReading.
Variable formatHeader : Header → error + list chunk.


(** C7. However the reads are cut up, in buffers of one byte or in large
    ones, two series of reads that both get to the end of the stream
    collect the same bytes, those the goroutine wrote, and end the same
    way; and any series of enough reads with buffers of at least one byte
    does get to the end. *)
Theorem chunking_does_not_change_the_stream dir sizes1 sizes2 :
  finished (readAll formatHeader (NewTarDirReader dir) sizes1).2 = true →
  finished (readAll formatHeader (NewTarDirReader dir) sizes2).2 = true →
  (readAll formatHeader (NewTarDirReader dir) sizes1).1
    = (readAll formatHeader (NewTarDirReader dir) sizes2).1 ∧
  (readAll formatHeader (NewTarDirReader dir) sizes1).1
    = archiveBytes formatHeader dir ∧
  (readAll formatHeader (NewTarDirReader dir) sizes1).2
    = (readAll formatHeader (NewTarDirReader dir) sizes2).2 ∧
  (∀ sizes, Forall (λ n, 0 < n) sizes →
     readsNeeded formatHeader dir ≤ length sizes →
     finished (readAll formatHeader (NewTarDirReader dir) sizes).2 = true).
Proof.
  intros Hfin1 Hfin2.
  destruct (readAll_fresh formatHeader dir sizes1)
    as (rest1 & Hcat1 & [Hf1|[-> He1]]); [congruence|].
  destruct (readAll_fresh formatHeader dir sizes2)
    as (rest2 & Hcat2 & [Hf2|[-> He2]]); [congruence|].
  rewrite app_nil_r in Hcat1, Hcat2.
  repeat split; [congruence..|].
  apply readAll_fresh_reaches_end.
Qed.
End ClaimsOnReading.


Lemma chunking_does_not_change_the_stream_witness :
  finished (readAll nameBlockFormat (NewTarDirReader sampleFS) (replicate 4200 1)).2
    = true ∧
  finished (readAll nameBlockFormat (NewTarDirReader sampleFS) (replicate 20 4096)).2
    = true ∧
  (readAll nameBlockFormat (NewTarDirReader sampleFS) (replicate 4200 1)).1
    = (readAll nameBlockFormat (NewTarDirReader sampleFS) (replicate 20 4096)).1 ∧
  (readAll nameBlockFormat (NewTarDirReader sampleFS) (replicate 4200 1)).1
    = archiveBytes nameBlockFormat sampleFS ∧
  (readAll nameBlockFormat (NewTarDirReader sampleFS) (replicate 4200 1)).2
    = (readAll nameBlockFormat (NewTarDirReader sampleFS) (replicate 20 4096)).2 ∧
  (∀ sizes, Forall (λ n, 0 < n) sizes →
     readsNeeded nameBlockFormat sampleFS ≤ length sizes →
     finished (readAll nameBlockFormat (NewTarDirReader sampleFS) sizes).2 = true).
Proof.
  split; [vm_compute; reflexivity|]. split; [vm_compute; reflexivity|].
  apply (chunking_does_not_change_the_stream nameBlockFormat sampleFS
           (replicate 4200 1) (replicate 20 4096)).
  - vm_compute. reflexivity.
  - vm_compute. reflexivity.
Defined.

Section ClaimsOnTheQueue.
Variable formatHeader : Header → error + list chunk.

(** C5. Every entry is written under the base name of its path, in the
    order of the queue, also when base names repeat; a consumer that
    unpacks the archive finds, under a name, the content of the last entry
    of that name. *)
Theorem entries_are_flattened_to_base_names dir t w o :
  init formatHeader (NewTarDirReader dir) = (t, None) →
  goroutine t = Some (w, o) →
  map (λ e, Name e.1) (entries w)
    = map Base (take (length (entries w)) (queue t)) ∧
  (o = Returned → map (λ e, Name e.1) (entries w) = map Base (queue t)) ∧
  (∀ j e, entries w !! j = Some e →
     (∀ k e', j < k → entries w !! k = Some e' → Name e'.1 ≠ Name e.1) →
     unpack (entries w) !! Name e.1 = Some e.2).
Proof.
  intros Hinit Hg.
  destruct (init_fresh_cases formatHeader dir) as [(q & e & H & _)|[q H]];
    rewrite H in Hinit; inversion Hinit; subst; clear Hinit.
  cbn [goroutine queue startedReader] in *. inversion Hg as [Erun].
  destruct (firstRun_names formatHeader dir q w o Erun) as [Hnames Hret].
  repeat split; [done| |].
  - intros Ho. by destruct (Hret Ho).
  - apply unpack_last_wins.
Qed.

(** C1, as the code has it.  When a file of the queue fails (open, stat,
    header or copy) after the files before it were written, the goroutine
    stops there with a panic that carries the error: nothing more is
    written, the files behind are never opened, and the pipe is not
    closed.  Reads deliver the bytes written so far; after them no [Read]
    returns an error or the end of the stream, the panic ends the
    process. *)
Theorem file_failure_panics_the_goroutine dir t pre f post w1 w e :
  init formatHeader (NewTarDirReader dir) = (t, None) →
  queue t = pre ++ f :: post →
  rangeQueue formatHeader t pre World0 = (w1, Returned) →
  writeFile formatHeader t f (Println ("writing file to tar " +:+ f) w1)
    = (w, inl e) →
  goroutine t = Some (w, Panicked e) ∧
  wclosed w = false ∧
  archiveBytes formatHeader dir = concat (written w) ∧
  (∀ sizes, Forall (λ n, 0 < n) sizes →
     readsNeeded formatHeader dir ≤ length sizes →
     readAll formatHeader (NewTarDirReader dir) sizes
       = (concat (written w), Crashed e)) ∧
  (∀ sizes,
     (readAll formatHeader (NewTarDirReader dir) sizes).2 = Crashed e ∨
     finished (readAll formatHeader (NewTarDirReader dir) sizes).2 = false).
Proof.
  intros Hinit Hq Hpre Hf.
  destruct (init_fresh_cases formatHeader dir) as [(q & e' & H & _)|[q H]];
    rewrite H in Hinit; inversion Hinit; subst; clear Hinit.
  cbn [queue startedReader] in Hq. subst q.
  set (t := startedReader formatHeader dir (pre ++ f :: post)) in *.
  assert (fs (failedReader dir (pre ++ f :: post)) = fs t) as Hfs by done.
  assert (firstRun formatHeader dir (pre ++ f :: post) = (w, Panicked e))
    as Hrun.
  { unfold firstRun. apply writeQueue_panicked.
    cbn [queue failedReader].
    rewrite (rangeQueue_fs formatHeader _ t _ Hfs).
    rewrite (rangeQueue_app formatHeader t pre (f :: post) World0 w1 Hpre).
    simpl. by rewrite Hf. }
  assert (wclosed w = false) as Hc.
  { pose proof (rangeQueue_idle formatHeader t pre World0 w1 idle_World0 Hpre).
    apply writeFile_idle in Hf as [Hc _]; [done|by apply idle_Println]. }
  assert (archiveBytes formatHeader dir = concat (written w)) as Hbytes.
  { unfold archiveBytes. rewrite H. subst t.
    cbn [fst goroutine startedReader]. by rewrite Hrun. }
  assert (expectedEnding formatHeader dir = Crashed e) as Hend.
  { unfold expectedEnding. rewrite H. subst t.
    cbn [reader startedReader]. rewrite Hrun. unfold attach. simpl.
    by rewrite Hc. }
  repeat split; try done.
  - subst t. cbn [goroutine startedReader]. by rewrite Hrun.
  - intros sizes Hpos Hlen.
    rewrite (readAll_fresh_complete formatHeader dir sizes Hpos Hlen).
    by rewrite Hbytes, Hend.
  - intros sizes.
    destruct (readAll_fresh formatHeader dir sizes) as (rest & _ & [Hfin|[_ He]]).
    + by right.
    + left. by rewrite He.
Qed.

(** C4, as the code has it.  On a tree that can be walked, [init] queues
    exactly the entries below the root that are not directories, in
    pre-order: the regular files, all of them and in their order, and
    with them the symbolic links and other special files; where there are
    none of those the queue is exactly the regular files. *)
Theorem queue_is_the_non_directories dir d :
  fs_root dir = inr d → readable d = true →
  ∃ t, init formatHeader (NewTarDirReader dir) = (t, None) ∧
       queue t = nonDirectories "." d ∧
       regularFiles "." d `sublist_of` queue t ∧
       (allRegular d = true → queue t = regularFiles "." d).
Proof.
  intros Hroot Hr.
  exists (startedReader formatHeader dir (nonDirectories "." d)).
  split; [by apply init_readable|]. cbn [queue startedReader].
  split; [done|]. split; [apply regularFiles_sublist|].
  apply regularFiles_allRegular.
Qed.
(** C8. The handle [writeFile] opens is closed when [writeFile] returns,
    whatever it returns: the set of open handles is the same before and
    after one file, and before and after the whole queue, also when a file
    fails. *)
Theorem file_handles_do_not_leak t f w :
  handles (writeFile formatHeader t f w).1 = handles w ∧
  handles (writeQueue formatHeader t w).1 = handles w.
Proof.
  split; [apply writeFile_handles|apply writeQueue_handles].
Qed.
End ClaimsOnTheQueue.

Lemma entries_are_flattened_to_base_names_witness :
  let q := ["Dockerfile"; "app/main.go"; "lib/main.go"] in
  let t := startedReader nameBlockFormat sampleFS q in
  let w := (firstRun nameBlockFormat sampleFS q).1 in
  init nameBlockFormat (NewTarDirReader sampleFS) = (t, None) ∧
  goroutine t = Some (w, Returned) ∧
  map (λ e, Name e.1) (entries w)
    = map Base (take (length (entries w)) (queue t)) ∧
  (Returned = Returned → map (λ e, Name e.1) (entries w) = map Base (queue t)) ∧
  (∀ j e, entries w !! j = Some e →
     (∀ k e', j < k → entries w !! k = Some e' → Name e'.1 ≠ Name e.1) →
     unpack (entries w) !! Name e.1 = Some e.2).
Proof.
  cbv zeta. split; [vm_compute; reflexivity|].
  split; [vm_compute; reflexivity|].
  apply (entries_are_flattened_to_base_names nameBlockFormat sampleFS
           (startedReader nameBlockFormat sampleFS
              ["Dockerfile"; "app/main.go"; "lib/main.go"])
           (firstRun nameBlockFormat sampleFS
              ["Dockerfile"; "app/main.go"; "lib/main.go"]).1
           Returned).
  - vm_compute. reflexivity.
  - vm_compute. reflexivity.
Defined.

Lemma file_failure_panics_the_goroutine_witness :
  let t := startedReader nameBlockFormat vanishedFS
             ["Dockerfile"; "gone.txt"; "later.txt"] in
  let w1 := (rangeQueue nameBlockFormat t ["Dockerfile"] World0).1 in
  let w := (writeFile nameBlockFormat t "gone.txt"
              (Println "writing file to tar gone.txt" w1)).1 in
  let e := ErrNotExist "open" "gone.txt" in
  init nameBlockFormat (NewTarDirReader vanishedFS) = (t, None) ∧
  queue t = ["Dockerfile"] ++ "gone.txt" :: ["later.txt"] ∧
  rangeQueue nameBlockFormat t ["Dockerfile"] World0 = (w1, Returned) ∧
  writeFile nameBlockFormat t "gone.txt"
    (Println "writing file to tar gone.txt" w1) = (w, inl e) ∧
  goroutine t = Some (w, Panicked e) ∧
  wclosed w = false ∧
  archiveBytes nameBlockFormat vanishedFS = concat (written w) ∧
  (∀ sizes, Forall (λ n, 0 < n) sizes →
     readsNeeded nameBlockFormat vanishedFS ≤ length sizes →
     readAll nameBlockFormat (NewTarDirReader vanishedFS) sizes
       = (concat (written w), Crashed e)) ∧
  (∀ sizes,
     (readAll nameBlockFormat (NewTarDirReader vanishedFS) sizes).2 = Crashed e ∨
     finished (readAll nameBlockFormat (NewTarDirReader vanishedFS) sizes).2 = false).
Proof.
  cbv zeta. split; [vm_compute; reflexivity|]. split; [reflexivity|].
  split; [vm_compute; reflexivity|]. split; [vm_compute; reflexivity|].
  apply (file_failure_panics_the_goroutine nameBlockFormat vanishedFS
           (startedReader nameBlockFormat vanishedFS
              ["Dockerfile"; "gone.txt"; "later.txt"])
           ["Dockerfile"] "gone.txt" ["later.txt"]
           (rangeQueue nameBlockFormat
              (startedReader nameBlockFormat vanishedFS
                 ["Dockerfile"; "gone.txt"; "later.txt"])
              ["Dockerfile"] World0).1).
  - vm_compute. reflexivity.
  - reflexivity.
  - vm_compute. reflexivity.
  - vm_compute. reflexivity.
Defined.

Lemma queue_is_the_non_directories_witness :
  fs_root linkFS = inr linkTree ∧
  readable linkTree = true ∧
  ∃ t, init nameBlockFormat (NewTarDirReader linkFS) = (t, None) ∧
       queue t = nonDirectories "." linkTree ∧
       regularFiles "." linkTree `sublist_of` queue t ∧
       (allRegular linkTree = true → queue t = regularFiles "." linkTree).
Proof.
  split; [reflexivity|]. split; [reflexivity|].
  apply (queue_is_the_non_directories nameBlockFormat linkFS linkTree).
  - reflexivity.
  - reflexivity.
Defined.

(** C1 as stated fails: the only file of the tree is gone when the
    goroutine opens it, and the [Read] does not return an error or the end
    of the stream, the process panics; when a later file is gone, the reads
    deliver what was written and then meet the panic. *)
Lemma file_failure_ends_the_process :
  (Read nameBlockFormat (NewTarDirReader onlyFileGoneFS) 512).2
    = ProcessPanics (ErrNotExist "open" "gone.txt") ∧
  (readAll nameBlockFormat (NewTarDirReader vanishedFS) (replicate 1100 1)).2
    = Crashed (ErrNotExist "open" "gone.txt") ∧
  length (readAll nameBlockFormat (NewTarDirReader vanishedFS) (replicate 1100 1)).1
    = 1024.
Proof. vm_compute. repeat split. Qed.

(** C4 as stated fails: a symbolic link is queued although it is not a
    regular file. *)
Lemma queue_holds_a_symbolic_link :
  queue (init nameBlockFormat (NewTarDirReader linkFS)).1 = ["data"; "main.go"] ∧
  regularFiles "." linkTree = ["main.go"] ∧
  queue (init nameBlockFormat (NewTarDirReader linkFS)).1
    ≠ regularFiles "." linkTree.
Proof. repeat split. vm_compute. discriminate. Qed.

(** The two [main.go] of the sample tree: both are in the archive, and
    unpacking leaves the second. *)
Example sample_collision :
  let w := (firstRun nameBlockFormat sampleFS
              ["Dockerfile"; "app/main.go"; "lib/main.go"]).1 in
  map (λ e, Name e.1) (entries w) = ["Dockerfile"; "main.go"; "main.go"] ∧
  unpack (entries w) !! "main.go" = Some (bytesOf "package lib").
Proof. split; [by vm_compute|]. by vm_compute. Qed.

(** ** The model at work *)

Example Base_examples :
  Base "app/main.go" = "main.go" ∧ Base "Dockerfile" = "Dockerfile" ∧
  Base "a/b/" = "b" ∧ Base "///" = "/" ∧ Base EmptyString = "." ∧ Base "." = ".".
Proof. by vm_compute. Qed.

Example sample_queue :
  queue (init nameBlockFormat (NewTarDirReader sampleFS)).1
    = ["Dockerfile"; "app/main.go"; "lib/main.go"].
Proof. reflexivity. Qed.

(** The writes that reach the pipe for the sample tree: per file the two
    empty writes of the flushes in [WriteHeader], the header block, the
    content and its padding; then the empty padding and the two blocks of
    the trailer. *)
Example sample_writes :
  map length (written (firstRun nameBlockFormat sampleFS
                         ["Dockerfile"; "app/main.go"; "lib/main.go"]).1)
    = [0; 0; 512; 12; 500; 0; 0; 512; 11; 501; 0; 0; 512; 11; 501; 0; 512; 512].
Proof. by vm_compute. Qed.

(** A partial walk: the file before the unreadable directory is queued,
    the walk stops at the directory. *)
Example unreadable_walk :
  init nameBlockFormat (NewTarDirReader unreadableFS)
    = (failedReader unreadableFS ["Dockerfile"],
       Some (permissionDenied "open" "secret")).
Proof. reflexivity. Qed.

(** * More of the reader *)

Section MoreOnTheWalk.
Variable formatHeader : Header → error + list chunk.

(** A walk that does not run into the sentinel [SkipDir] queues what it
    meets before its first error and returns that error. *)
Lemma walkDir_first_error d :
  ∀ name t, firstUnreadable d ≠ Some SkipDir →
    walkDir name d collect t
      = (setQueue (queue t ++ queuedBefore name d) t, firstUnreadable d).
Proof.
  induction d as [ty|dirs rderr IH] using Node_ind; intros name t Hskip.
  - reflexivity.
  - destruct rderr as [e|].
    + simpl in *. rewrite setQueue_same.
      destruct (decide (e = SkipDir)) as [->|]; [done|done].
    + simpl in *. revert t Hskip.
      induction IH as [|[n1 d1] l Hd1 _ IHl]; intros t Hskip.
      * by rewrite setQueue_same.
      * simpl in Hd1.
        destruct (firstUnreadable d1) as [e|] eqn:E1.
        -- rewrite (Hd1 (Join name n1) t) by done.
           rewrite decide_False by congruence. by rewrite app_nil_r.
        -- rewrite (Hd1 (Join name n1) t) by done.
           rewrite (IHl _ Hskip). simpl. by rewrite app_assoc.
Qed.

(** X1. [init] fails exactly when some directory of the tree cannot be
    listed: it returns the error of the first such directory in pre-order,
    and it has queued the non-directories met before it, no more.  (The
    error is supposed not to be one of the sentinels of [io/fs].) *)
Theorem init_stops_at_the_first_unreadable_directory dir d :
  fs_root dir = inr d →
  (∀ e, firstUnreadable d = Some e → e ≠ SkipDir ∧ e ≠ SkipAll) →
  (init formatHeader (NewTarDirReader dir)).2 = firstUnreadable d ∧
  queue (init formatHeader (NewTarDirReader dir)).1 = queuedBefore "." d ∧
  (firstUnreadable d = None ↔ readable d = true) ∧
  (goroutine (init formatHeader (NewTarDirReader dir)).1 = None
     ↔ firstUnreadable d ≠ None).
Proof.
  intros Hroot Hsent.
  assert (firstUnreadable d ≠ Some SkipDir) as Hskip.
  { intros H. by destruct (Hsent _ H). }
  assert (firstUnreadable d = None ↔ readable d = true) as Hiff.
  { clear. induction d as [ty|dirs rderr IH] using Node_ind; [done|].
    simpl. destruct rderr as [e|]; [done|]. simpl.
    induction IH as [|[n1 d1] l Hd1 _ IHl]; [done|].
    simpl in Hd1.
    destruct (firstUnreadable d1) as [e|], (readable d1); simpl.
    - destruct Hd1 as [_ H]. discriminate (H eq_refl).
    - split; intros; discriminate.
    - exact IHl.
    - destruct Hd1 as [H _]. discriminate (H eq_refl). }
  unfold init. cbn [initialized NewTarDirReader].
  unfold WalkDir. cbn [fs setReader setInitialized NewTarDirReader].
  rewrite Hroot. rewrite walkDir_first_error by done.
  destruct (firstUnreadable d) as [e|] eqn:E.
  - destruct (Hsent e eq_refl) as [H1 H2].
    rewrite !bool_decide_eq_false_2 by done. simpl.
    split; [done|]. split; [done|]. split; [exact Hiff|]. by split.
  - simpl. split; [done|]. split; [done|]. split; [exact Hiff|].
    split; [discriminate|]. intros H. by destruct H.
Qed.
End MoreOnTheWalk.

Lemma init_stops_at_the_first_unreadable_directory_witness :
  let d := Dir [("Dockerfile", Leaf Regular);
                ("secret", Dir [] (Some (permissionDenied "open" "secret")));
                ("zz.txt", Leaf Regular)] None in
  fs_root unreadableFS = inr d ∧
  (∀ e, firstUnreadable d = Some e → e ≠ SkipDir ∧ e ≠ SkipAll) ∧
  (init nameBlockFormat (NewTarDirReader unreadableFS)).2 = firstUnreadable d ∧
  queue (init nameBlockFormat (NewTarDirReader unreadableFS)).1
    = queuedBefore "." d ∧
  (firstUnreadable d = None ↔ readable d = true) ∧
  (goroutine (init nameBlockFormat (NewTarDirReader unreadableFS)).1 = None
     ↔ firstUnreadable d ≠ None).
Proof.
  cbv zeta. split; [reflexivity|].
  assert (∀ e, firstUnreadable
                 (Dir [("Dockerfile", Leaf Regular);
                       ("secret", Dir [] (Some (permissionDenied "open" "secret")));
                       ("zz.txt", Leaf Regular)] None) = Some e →
               e ≠ SkipDir ∧ e ≠ SkipAll) as Hsent.
  { intros e He. simpl in He. inversion He; subst. by split. }
  split; [exact Hsent|].
  apply (init_stops_at_the_first_unreadable_directory nameBlockFormat unreadableFS).
  - reflexivity.
  - exact Hsent.
Defined.

Section MoreOnReading.
Variable formatHeader : Header → error + list chunk.

(** X2. Whatever the state of the reader, a [Read] that returns hands
    over at most as many bytes as the buffer holds, and none at all when it
    returns an error or the end of the stream. *)
Theorem Read_respects_the_buffer t n :
  match (Read formatHeader t n).2 with
  | Returns data err => length data ≤ n ∧ (err ≠ None → data = [])
  | Blocks | ProcessPanics _ => True
  end.
Proof.
  unfold Read.
  destruct (init formatHeader t) as [t1 [e|]]; [simpl; split; [lia|done]|].
  destruct (reader t1) as [p|]; [|done].
  unfold pipeRead. destruct (pending p) as [|bw rest]; simpl.
  - destruct (wend p); simpl; try done. split; [lia|done].
  - split; [|done]. rewrite length_take. lia.
Qed.
End MoreOnReading.

Section MoreOnOneFile.
Variable formatHeader : Header → error + list chunk.

Lemma Write_too_long es h d c p b w :
  filling es h d c p w → c < length b → (Write b w).2 = inl ErrWriteTooLong.
Proof.
  intros (Hc & Ha & Hd) Hlt. unfold Write, bind, getArchive.
  rewrite Ha. simpl. unfold pipeWrite. rewrite Hc.
  assert ((c <? length b) = true) as -> by (by apply Nat.ltb_lt).
  by destruct (0 <? length (take c b)).
Qed.

Lemma Write_fits es h d c p b w :
  filling es h d c p w → length b ≤ c →
  ∃ w', Write b w = (w', inr (length b)) ∧
        filling es h (d ++ b) (c - length b) p w' ∧
        concat (written w') = concat (written w) ++ b.
Proof.
  intros (Hc & Ha & Hd) Hle. unfold Write, bind, getArchive.
  rewrite Ha. simpl. unfold pipeWrite. rewrite Hc.
  assert ((c <? length b) = false) as -> by (by apply Nat.ltb_ge).
  destruct (0 <? length b) eqn:Elen; simpl.
  - eexists. split; [done|]. split.
    + repeat split; try done. simpl. by rewrite Hd, appendData_last.
    + simpl. rewrite concat_app. simpl. by rewrite app_nil_r.
  - apply Nat.ltb_ge in Elen.
    assert (b = []) as -> by (destruct b; simpl in *; [done|lia]).
    exists w. rewrite !app_nil_r, Nat.sub_0_r. by repeat split.
Qed.

(** The copy, from inside an entry that still expects [c] bytes. *)
Lemma copyBuffer_result es h p reads fail :
  ∀ d c k w, filling es h d c p w →
    if c <? length (concat reads)
    then (copyBuffer reads fail k w).2 = inl ErrWriteTooLong
    else ∃ w', copyBuffer reads fail k w
                 = (w', match fail with
                        | Some er => if decide (er = EOF)
                                     then inr (k + length (concat reads))
                                     else inl er
                        | None => inr (k + length (concat reads))
                        end) ∧
               filling es h (d ++ concat reads) (c - length (concat reads)) p w' ∧
               concat (written w') = concat (written w) ++ concat reads.
Proof.
  induction reads as [|buf reads IH]; intros d c k w Hfill.
  - simpl. exists w. rewrite !app_nil_r, Nat.sub_0_r, Nat.add_0_r.
    split; [|done]. destruct fail as [er|]; [|done]. by destruct (decide _).
  - simpl. rewrite length_app.
    destruct (0 <? length buf) eqn:Elen.
    + destruct (decide (c < length buf)) as [Hlt|Hge].
      * assert ((c <? length buf + length (concat reads)) = true) as ->
          by (apply Nat.ltb_lt; lia).
        unfold bind.
        pose proof (Write_too_long es h d c p buf w Hfill Hlt) as HW.
        destruct (Write buf w) as [w1 r]. simpl in HW. by subst r.
      * destruct (Write_fits es h d c p buf w Hfill) as (w1 & HW & Hfill1 & Hb1);
          [lia|].
        unfold bind. rewrite HW. rewrite decide_True by done.
        specialize (IH (d ++ buf) (c - length buf) (k + length buf) w1 Hfill1).
        destruct (c - length buf <? length (concat reads)) eqn:E1.
        -- apply Nat.ltb_lt in E1.
           assert ((c <? length buf + length (concat reads)) = true) as ->
             by (apply Nat.ltb_lt; lia).
           done.
        -- apply Nat.ltb_ge in E1.
           assert ((c <? length buf + length (concat reads)) = false) as ->
             by (apply Nat.ltb_ge; lia).
           destruct IH as (w' & Hcopy & Hfill' & Hb').
           exists w'. rewrite Hcopy.
           replace (k + length buf + length (concat reads))
             with (k + (length buf + length (concat reads))) by lia.
           split; [done|]. split.
           ++ rewrite app_assoc.
              by replace (c - (length buf + length (concat reads)))
                with (c - length buf - length (concat reads)) by lia.
           ++ by rewrite Hb', Hb1, app_assoc.
    + apply Nat.ltb_ge in Elen.
      assert (buf = []) as -> by (destruct buf; simpl in *; [done|lia]).
      simpl. apply (IH d c k w Hfill).
Qed.

(** [WriteHeader] between two entries: it fails with the error of the
    formatter or writes what the formatter says and opens the entry. *)
Lemma WriteHeader_spec hdr w :
  idle w →
  match formatHeader (stored hdr) with
  | inl e => (WriteHeader formatHeader hdr w).2 = inl e
  | inr blocks =>
      let size := if isHeaderOnlyType (Typeflag hdr) then 0 else Size hdr in
      ∃ w', WriteHeader formatHeader hdr w = (w', inr ()) ∧
            filling (entries w) (stored hdr) [] size (blockPadding size) w' ∧
            handles w' = handles w ∧
            concat (written w') = concat (written w) ++ concat blocks
  end.
Proof.
  intros [Hc Ha]. unfold WriteHeader. cbv zeta.
  assert (err (archive w) = None) as He by (by rewrite Ha).
  destruct (Flush_spec w Hc He) as [[Hlt _]|[_ HF]].
  { rewrite Ha in Hlt. simpl in Hlt. lia. }
  destruct (formatHeader (stored hdr)) as [e|blocks];
    unfold bind at 1; rewrite HF; clear HF; [done|].
  unfold sticky, bind at 1. rewrite writeAll_spec by done.
  go_unfold. simpl. eexists. split; [done|]. split; [by repeat split|].
  split; [done|]. simpl. rewrite Ha. simpl.
  rewrite !concat_app. simpl. by rewrite app_nil_r.
Qed.

Lemma take_zeroBlock n : n ≤ blockSize → take n zeroBlock = replicate n Byte.x00.
Proof. intros Hn. unfold zeroBlock. rewrite take_replicate. f_equal. lia. Qed.

Lemma blockPadding_le size : blockPadding size ≤ blockSize.
Proof.
  unfold blockPadding.
  pose proof (Nat.mod_upper_bound (blockSize - size mod blockSize) blockSize).
  unfold blockSize in *. lia.
Qed.

(** One path of the queue, from between two entries: [writeFile] fails
    with the error [writeFileOutcome] names, or it writes the entry of the
    path: the bytes of its header, its content and its padding. *)
Lemma writeFile_spec t f w w' r :
  idle w → writeFile formatHeader t f w = (w', r) →
  match writeFileOutcome formatHeader (fs t) f with
  | Some e => r = inl e
  | None =>
      r = inr () ∧ idle w' ∧
      ∃ e b, entryOf (fs t) f = Some e ∧
             entries w' = entries w ++ [e] ∧
             encodeEntry formatHeader e = Some b ∧
             concat (written w') = concat (written w) ++ b
  end.
Proof.
  intros Hidle H. unfold writeFileOutcome, entryOf.
  unfold writeFile, Open in H. unfold bind at 1 2 3, lift at 1 in H.
  destruct (fs_open (fs t) f) as [e|file]; [by inversion H|].
  unfold modify at 1, ret at 1, defer in H.
  set (w0 := setHandles (f :: handles w) w) in H.
  assert (idle w0) as Hidle0 by (by destruct Hidle).
  assert (entries w0 = entries w) as Hent0 by done.
  assert (written w0 = written w) as Hwr0 by done.
  clearbody w0. rewrite <- Hent0, <- Hwr0. clear Hent0 Hwr0 Hidle w.
  unfold bind at 1, lift at 1 in H.
  destruct (f_stat file) as [e|info]; [by inversion H|].
  unfold bind at 1, lift at 1 in H.
  destruct (FileInfoHeader info EmptyString) as [e|h0]; [by inversion H|].
  cbv zeta.
  pose proof (WriteHeader_spec (setName h0 (Base f)) w0 Hidle0) as HW.
  set (h := stored (setName h0 (Base f))) in *.
  unfold bind at 1 in H.
  destruct (formatHeader h) as [e|blocks] eqn:Efmt.
  { destruct (WriteHeader _ _ _) as [w1 r1]. simpl in HW. subst r1.
    by inversion H. }
  cbv zeta in HW. destruct HW as (w1 & HW & Hfill & _ & Hb1).
  rewrite HW in H. clear HW.
  change (Typeflag h) with (Typeflag h0). change (Size h) with (Size h0).
  simpl in Hfill.
  set (size := if isHeaderOnlyType (Typeflag h0) then 0 else Size h0) in *.
  unfold bind at 1 in H. unfold Copy in H.
  pose proof (copyBuffer_result _ _ _ (f_reads file) (f_fail file) [] size 0 w1 Hfill)
    as HC.
  set (n := length (concat (f_reads file))) in *.
  destruct (size <? n) eqn:Esz.
  { destruct (copyBuffer _ _ _ _) as [w2 r2]. simpl in HC. subst r2.
    by inversion H. }
  apply Nat.ltb_ge in Esz.
  destruct HC as (w2 & HC & Hfill2 & Hb2). rewrite HC in H. clear HC.
  simpl in Hfill2. destruct Hfill2 as (Hc2 & Ha2 & Hent2).
  assert (err (archive w2) = None) as He2 by (by rewrite Ha2).
  assert (match f_fail file with
          | Some er => if decide (er = EOF) then True else r = inl er
          | None => True
          end) as Hfail.
  { destruct (f_fail file) as [er|]; [|done].
    destruct (decide (er = EOF)); [done|]. by inversion H. }
  assert ((let '(w3, r3) := Flush w2 in (fileClose f w3, r3)) = (w', r)
          ∨ ∃ er, f_fail file = Some er ∧ er ≠ EOF) as [HF|(er & Eer & Hne)].
  { destruct (f_fail file) as [er|]; [|by left].
    destruct (decide (er = EOF)); [by left|]. right. by exists er. }
  2: { rewrite Eer in *. by destruct (decide (er = EOF)). }
  assert (if n <? size then r = inl (ErrMissedWriting (size - n))
          else r = inr () ∧ idle w' ∧
               ∃ e b,
                 Some (h, concat (f_reads file)) = Some e ∧
                 entries w' = entries w0 ++ [e] ∧
                 encodeEntry formatHeader e = Some b ∧
                 concat (written w') = concat (written w0) ++ b) as Hres.
  { destruct (Flush_spec w2 Hc2 He2) as [[Hlt HF']|[Hz HF']];
      rewrite HF' in HF; inversion HF; subst; clear HF;
      rewrite Ha2 in *; simpl in *.
    - assert ((n <? size) = true) as -> by (apply Nat.ltb_lt; lia). done.
    - assert ((n <? size) = false) as -> by (apply Nat.ltb_ge; lia).
      split; [done|]. split; [done|].
      eexists (h, concat (f_reads file)), _. split; [done|]. split; [done|].
      unfold encodeEntry. simpl. rewrite Efmt. split; [done|].
      rewrite concat_app. simpl. rewrite app_nil_r, Hb2, Hb1.
      rewrite take_zeroBlock by apply blockPadding_le.
      replace (length (concat (f_reads file))) with size by (subst n; lia).
      by rewrite <- !app_assoc. }
  destruct (f_fail file) as [er|]; [destruct (decide (er = EOF)); [|done]|];
    by destruct (n <? size).
Qed.
End MoreOnOneFile.

Section MoreOnTheQueue.
Variable formatHeader : Header → error + list chunk.

Lemma rangeQueue_spec t q :
  ∀ w w' o, idle w → rangeQueue formatHeader t q w = (w', o) →
    o = queueOutcome formatHeader (fs t) q ∧
    (o = Returned →
     idle w' ∧
     ∃ es bs, entries w' = entries w ++ es ∧
              Forall2 (λ e b, encodeEntry formatHeader e = Some b) es bs ∧
              concat (written w') = concat (written w) ++ concat bs).
Proof.
  induction q as [|f q IH]; intros w w' o Hidle H; simpl in H.
  - inversion H; subst; clear H. split; [done|]. intros _. split; [done|].
    exists [], []. rewrite !app_nil_r. by repeat split.
  - destruct (writeFile _ _ _ _) as [w1 r] eqn:EW.
    pose proof (writeFile_spec formatHeader t f _ w1 r
                  (idle_Println _ w Hidle) EW) as Hspec.
    simpl. destruct (writeFileOutcome formatHeader (fs t) f) as [e|].
    + subst r. inversion H; subst; clear H. by split.
    + destruct Hspec as (-> & Hidle1 & e & b & _ & Hent & Henc & Hb).
      destruct (IH w1 w' o Hidle1 H) as [Ho Hret].
      split; [done|]. intros Hr. destruct (Hret Hr) as (Hidle' & es & bs & Hes & HF & Hbs).
      split; [done|]. exists (e :: es), (b :: bs).
      split; [by rewrite Hes, Hent, <- app_assoc|].
      split; [by constructor|].
      simpl in Hb. rewrite Hbs, Hb. simpl. by rewrite <- app_assoc.
Qed.

Lemma firstRun_spec dir q w o :
  firstRun formatHeader dir q = (w, o) →
  o = queueOutcome formatHeader dir q ∧
  (o = Returned →
   wclosed w = true ∧
   ∃ bs, Forall2 (λ e b, encodeEntry formatHeader e = Some b) (entries w) bs ∧
         concat (written w) = concat bs ++ trailer).
Proof.
  intros Hrun. unfold firstRun, writeQueue in Hrun.
  cbn [queue failedReader] in Hrun.
  destruct (rangeQueue formatHeader (failedReader dir q) q World0)
    as [w1 o1] eqn:Eq.
  destruct (rangeQueue_spec _ q World0 w1 o1 idle_World0 Eq) as [Ho Hret].
  cbn [fs failedReader] in Ho.
  destruct o1 as [|e].
  - destruct (Hret eq_refl) as (Hidle1 & es & bs & Hes & HF & Hbs).
    rewrite (Close_idle w1 Hidle1) in Hrun. simpl in Hrun.
    inversion Hrun; subst; clear Hrun. split; [done|]. intros _.
    split; [done|]. exists bs. simpl. simpl in Hes. rewrite Hes.
    split; [done|]. rewrite concat_app, Hbs.
    change (concat (written World0)) with (@nil byte).
    change (concat [[]; zeroBlock; zeroBlock]) with (zeroBlock ++ zeroBlock ++ []).
    by rewrite app_nil_r.
  - inversion Hrun; subst; clear Hrun. by split.
Qed.

Lemma goroutine_outcome dir t w o :
  init formatHeader (NewTarDirReader dir) = (t, None) →
  goroutine t = Some (w, o) →
  o = queueOutcome formatHeader dir (queue t).
Proof.
  intros Hinit Hg.
  destruct (init_fresh_cases formatHeader dir) as [(q & e & H & _)|[q H]];
    rewrite H in Hinit; inversion Hinit; subst; clear Hinit.
  cbn [goroutine queue startedReader] in *. inversion Hg as [Erun].
  by destruct (firstRun_spec dir q w o Erun) as [-> _].
Qed.

(** X3. How the goroutine ends is decided by the queue: it panics with
    the error of the first path that cannot be written (a failed [Open],
    [Stat], header or read, more bytes than [Stat] announced, or fewer),
    and returns when there is no such path. *)
Theorem goroutine_ends_at_the_first_unwritable_path dir t w o :
  init formatHeader (NewTarDirReader dir) = (t, None) →
  goroutine t = Some (w, o) →
  o = queueOutcome formatHeader dir (queue t) ∧
  (o = Returned ↔ Forall (λ f, writeFileOutcome formatHeader dir f = None) (queue t)).
Proof.
  intros Hinit Hg.
  rewrite (goroutine_outcome dir t w o Hinit Hg).
  split; [done|]. generalize (queue t) as q. clear.
  induction q as [|f q IH]; simpl; [done|].
  destruct (writeFileOutcome formatHeader dir f) as [e|] eqn:E.
  - split; [done|]. intros HF. apply Forall_cons in HF as [HF _]. congruence.
  - rewrite IH. split; [by constructor|]. by intros [_ ?]%Forall_cons.
Qed.

(** X4. A regular file that yields more bytes than [Stat] announced makes
    [writeFile] fail with [ErrWriteTooLong]; one that yields fewer, its
    reads ending without error, makes it fail for the bytes that are missing.
    Either way the goroutine, once the paths before are written, panics
    with that error. *)
Theorem resized_file_panics_the_goroutine dir t pre f post file info blocks w o :
  init formatHeader (NewTarDirReader dir) = (t, None) →
  goroutine t = Some (w, o) →
  queue t = pre ++ f :: post →
  Forall (λ g, writeFileOutcome formatHeader dir g = None) pre →
  fs_open dir f = inr file →
  f_stat file = inr info →
  fi_type info = TRegular →
  formatHeader
    (stored {| Typeflag := TypeReg; Name := Base f; Linkname := EmptyString;
               Size := fi_size info; Mode := fi_perm info;
               ModTime := fi_modtime info |}) = inr blocks →
  (fi_size info < length (concat (f_reads file)) →
     o = Panicked ErrWriteTooLong) ∧
  (length (concat (f_reads file)) < fi_size info →
   f_fail file = None ∨ f_fail file = Some EOF →
     o = Panicked (ErrMissedWriting
                     (fi_size info - length (concat (f_reads file))))).
Proof.
  intros Hinit Hg Hq Hpre Hopen Hstat Hty Hfmt.
  rewrite (goroutine_outcome dir t w o Hinit Hg).
  rewrite Hq.
  assert (∀ e, writeFileOutcome formatHeader dir f = Some e →
               queueOutcome formatHeader dir (pre ++ f :: post) = Panicked e)
    as Hout.
  { intros e He. clear Hq. induction Hpre as [|g pre Hg' _ IH]; simpl.
    - by rewrite He.
    - by rewrite Hg'. }
  assert (FileInfoHeader info EmptyString
          = inr {| Typeflag := TypeReg; Name := fi_name info;
                   Linkname := EmptyString; Size := fi_size info;
                   Mode := fi_perm info; ModTime := fi_modtime info |}) as Hhdr.
  { unfold FileInfoHeader. by rewrite Hty. }
  split.
  - intros Hlt. apply Hout. unfold writeFileOutcome.
    rewrite Hopen, Hstat, Hhdr. cbv zeta. unfold setName. simpl.
    rewrite Hfmt. simpl.
    by assert ((fi_size info <? length (concat (f_reads file))) = true) as ->
      by (by apply Nat.ltb_lt).
  - intros Hlt Hfail. apply Hout. unfold writeFileOutcome.
    rewrite Hopen, Hstat, Hhdr. cbv zeta. unfold setName. simpl.
    rewrite Hfmt. simpl.
    assert ((fi_size info <? length (concat (f_reads file))) = false) as ->
      by (apply Nat.ltb_ge; lia).
    assert ((length (concat (f_reads file)) <? fi_size info) = true) as Hm
      by (by apply Nat.ltb_lt).
    destruct Hfail as [->| ->]; [|rewrite decide_True by done]; by rewrite Hm.
Qed.
End MoreOnTheQueue.


Lemma goroutine_ends_at_the_first_unwritable_path_witness :
  let q := ["grown.txt"; "shrunk.txt"] in
  let t := startedReader nameBlockFormat resizedFS q in
  let r := firstRun nameBlockFormat resizedFS q in
  init nameBlockFormat (NewTarDirReader resizedFS) = (t, None) ∧
  goroutine t = Some (r.1, r.2) ∧
  r.2 = queueOutcome nameBlockFormat resizedFS (queue t) ∧
  (r.2 = Returned ↔
   Forall (λ f, writeFileOutcome nameBlockFormat resizedFS f = None) (queue t)).
Proof.
  cbv zeta. split; [vm_compute; reflexivity|].
  split; [vm_compute; reflexivity|].
  apply (goroutine_ends_at_the_first_unwritable_path nameBlockFormat resizedFS
           (startedReader nameBlockFormat resizedFS ["grown.txt"; "shrunk.txt"])
           (firstRun nameBlockFormat resizedFS ["grown.txt"; "shrunk.txt"]).1
           (firstRun nameBlockFormat resizedFS ["grown.txt"; "shrunk.txt"]).2).
  - vm_compute; reflexivity.
  - vm_compute; reflexivity.
Defined.

Lemma resized_file_panics_the_goroutine_witness :
  let q := ["grown.txt"; "shrunk.txt"] in
  let t := startedReader nameBlockFormat resizedFS q in
  let r := firstRun nameBlockFormat resizedFS q in
  let file := resizedFile "grown.txt" 3 "longer" in
  let info := {| fi_name := "grown.txt"; fi_size := 3; fi_perm := 420%N;
                 fi_modtime := 0; fi_type := TRegular |} in
  let blocks := [[]; take blockSize (bytesOf "grown.txt" ++ zeroBlock)] in
  init nameBlockFormat (NewTarDirReader resizedFS) = (t, None) ∧
  goroutine t = Some (r.1, r.2) ∧
  queue t = [] ++ "grown.txt" :: ["shrunk.txt"] ∧
  Forall (λ g, writeFileOutcome nameBlockFormat resizedFS g = None) [] ∧
  fs_open resizedFS "grown.txt" = inr file ∧
  f_stat file = inr info ∧
  fi_type info = TRegular ∧
  nameBlockFormat
    (stored {| Typeflag := TypeReg; Name := Base "grown.txt";
               Linkname := EmptyString; Size := fi_size info;
               Mode := fi_perm info; ModTime := fi_modtime info |})
    = inr blocks ∧
  fi_size info < length (concat (f_reads file)) ∧
  r.2 = Panicked ErrWriteTooLong.
Proof.
  cbv zeta. split; [vm_compute; reflexivity|].
  split; [vm_compute; reflexivity|]. split; [reflexivity|].
  split; [constructor|]. split; [reflexivity|]. split; [reflexivity|].
  split; [reflexivity|]. split; [vm_compute; reflexivity|].
  split; [apply Nat.ltb_lt; vm_compute; reflexivity|].
  apply (resized_file_panics_the_goroutine nameBlockFormat resizedFS
           (startedReader nameBlockFormat resizedFS ["grown.txt"; "shrunk.txt"])
           [] "grown.txt" ["shrunk.txt"]
           (resizedFile "grown.txt" 3 "longer")
           {| fi_name := "grown.txt"; fi_size := 3; fi_perm := 420%N;
              fi_modtime := 0; fi_type := TRegular |}
           [[]; take blockSize (bytesOf "grown.txt" ++ zeroBlock)]
           (firstRun nameBlockFormat resizedFS ["grown.txt"; "shrunk.txt"]).1
           (firstRun nameBlockFormat resizedFS ["grown.txt"; "shrunk.txt"]).2).
  - vm_compute; reflexivity.
  - vm_compute; reflexivity.
  - reflexivity.
  - constructor.
  - reflexivity.
  - reflexivity.
  - reflexivity.
  - vm_compute; reflexivity.
  - apply Nat.ltb_lt; vm_compute; reflexivity.
Defined.

Section MoreOnTheArchive.
Variable formatHeader : Header → error + list chunk.

Lemma written_entry_has_its_size dir f e :
  writeFileOutcome formatHeader dir f = None →
  entryOf dir f = Some e →
  length e.2 = if isHeaderOnlyType (Typeflag e.1) then 0 else Size e.1.
Proof.
  unfold writeFileOutcome, entryOf.
  destruct (fs_open dir f) as [?|file]; [done|].
  destruct (f_stat file) as [?|info]; [done|].
  destruct (FileInfoHeader info EmptyString) as [?|h0]; [done|].
  cbv zeta. destruct (formatHeader _) as [?|blocks]; [done|].
  intros Hout He. inversion He; subst; clear He. cbn [fst snd].
  set (size := if isHeaderOnlyType _ then 0 else _) in *.
  set (n := length (concat (f_reads file))) in *.
  destruct (size <? n) eqn:E1; [done|].
  apply Nat.ltb_ge in E1.
  assert ((n <? size) = false) as E2.
  { destruct (n <? size) eqn:E; [|done].
    destruct (f_fail file) as [er|]; [destruct (decide (er = EOF))|]; done. }
  apply Nat.ltb_ge in E2. lia.
Qed.

Lemma blockPadding_fills n : Nat.divide blockSize (n + blockPadding n).
Proof.
  unfold blockPadding, blockSize.
  exists ((n + (512 - n mod 512) mod 512) / 512).
  pose proof (Nat.div_mod_eq (n + (512 - n mod 512) mod 512) 512).
  assert ((n + (512 - n mod 512) mod 512) mod 512 = 0); [|lia].
  pose proof (Nat.div_mod_eq n 512).
  pose proof (Nat.mod_upper_bound n 512).
  destruct (decide (n mod 512 = 0)) as [E|E].
  - rewrite E. change ((512 - 0) mod 512) with 0.
    by rewrite Nat.add_0_r.
  - rewrite (Nat.mod_small (512 - n mod 512)) by lia.
    replace (n + (512 - n mod 512)) with (512 + (n / 512) * 512) by lia.
    by rewrite Nat.Div0.mod_add.
Qed.

Lemma encoded_in_blocks es bs :
  (∀ h blocks, formatHeader h = inr blocks →
     Nat.divide blockSize (length (concat blocks))) →
  Forall2 (λ e b, encodeEntry formatHeader e = Some b) es bs →
  Nat.divide blockSize (length (concat bs)).
Proof.
  intros Hfmt HF. induction HF as [|e b es bs He _ IH]; simpl.
  - by exists 0.
  - rewrite length_app. apply Nat.divide_add_r; [|done].
    unfold encodeEntry in He.
    destruct (formatHeader e.1) as [?|blocks] eqn:E; [done|].
    inversion He; subst; clear He.
    rewrite !length_app, length_replicate.
    apply Nat.divide_add_r; [by apply (Hfmt e.1)|apply blockPadding_fills].
Qed.

(** X5. An archive that was completed is laid out entry after entry, in
    the order of the queue, and ends with the trailer: each entry is the
    bytes of its header, then as many bytes of content as the header
    announces, then zeros up to the next block.  When the formatter writes
    whole blocks, the archive is a whole number of blocks. *)
Theorem completed_archive_is_entries_then_trailer dir t w :
  init formatHeader (NewTarDirReader dir) = (t, None) →
  goroutine t = Some (w, Returned) →
  map Some (entries w) = map (entryOf dir) (queue t) ∧
  Forall (λ e, length e.2 = if isHeaderOnlyType (Typeflag e.1) then 0
                            else Size e.1) (entries w) ∧
  (∃ bs, Forall2 (λ e b, encodeEntry formatHeader e = Some b) (entries w) bs ∧
         archiveBytes formatHeader dir = concat bs ++ trailer) ∧
  ((∀ h blocks, formatHeader h = inr blocks →
      Nat.divide blockSize (length (concat blocks))) →
   Nat.divide blockSize (length (archiveBytes formatHeader dir))).
Proof.
  intros Hinit Hg.
  assert (archiveBytes formatHeader dir = concat (written w)) as Hbytes.
  { unfold archiveBytes. by rewrite Hinit; cbn [fst]; rewrite Hg. }
  pose proof (goroutine_outcome formatHeader dir t w Returned Hinit Hg) as Hout.
  destruct (init_fresh_cases formatHeader dir) as [(q & e & H & _)|[q H]];
    rewrite H in Hinit; inversion Hinit; subst; clear Hinit.
  cbn [goroutine queue startedReader] in *. inversion Hg as [Erun].
  pose proof (firstRun_entries formatHeader dir q w Erun) as Hent.
  destruct (firstRun_spec formatHeader dir q w Returned Erun) as [_ Hret].
  destruct (Hret eq_refl) as (_ & bs & HF & Hcat).
  assert (Forall (λ f, writeFileOutcome formatHeader dir f = None) q) as Hall.
  { clear -Hout. induction q as [|f q IH]; [done|]. simpl in Hout.
    destruct (writeFileOutcome formatHeader dir f) eqn:E; [done|].
    constructor; [done|by apply IH]. }
  split; [done|]. split; [|split].
  - clear -Hent Hall. revert q Hent Hall.
    induction (entries w) as [|e es IH]; intros q Hent Hall; [done|].
    destruct q as [|f q]; [done|]. simpl in Hent.
    inversion Hent as [[He Hrest]]. apply Forall_cons in Hall as [Hf Hq].
    constructor; [|by apply (IH q)].
    by apply (written_entry_has_its_size dir f).
  - exists bs. by rewrite Hbytes.
  - intros Hfmt. rewrite Hbytes, Hcat, length_app.
    apply Nat.divide_add_r; [by apply (encoded_in_blocks (entries w))|].
    exists 2. reflexivity.
Qed.

(** X6. A consumer that is handed [io.EOF] has received a complete
    archive, unless the walk itself failed with [io.EOF]: the goroutine
    returned, every path of the queue was written, and the bytes collected
    are all the goroutine wrote. *)
Theorem eof_means_a_complete_archive dir sizes got :
  (init formatHeader (NewTarDirReader dir)).2 ≠ Some EOF →
  readAll formatHeader (NewTarDirReader dir) sizes = (got, Ended EOF) →
  ∃ t w,
    init formatHeader (NewTarDirReader dir) = (t, None) ∧
    goroutine t = Some (w, Returned) ∧
    got = concat (written w) ∧
    map Some (entries w) = map (entryOf dir) (queue t) ∧
    Forall (λ f, writeFileOutcome formatHeader dir f = None) (queue t).
Proof.
  intros Hne Hread.
  destruct (readAll_fresh formatHeader dir sizes) as (rest & Hcat & Hend).
  rewrite Hread in Hcat, Hend. cbn [fst snd] in Hcat, Hend.
  destruct Hend as [Hf|[-> Hexp]]; [done|]. rewrite app_nil_r in Hcat.
  unfold expectedEnding in Hexp. unfold archiveBytes in Hcat.
  destruct (init_fresh_cases formatHeader dir) as [(q & e & H & _)|[q H]];
    rewrite H in Hne, Hexp, Hcat.
  { inversion Hexp; subst. by destruct Hne. }
  cbn [fst goroutine reader startedReader] in Hexp, Hcat.
  destruct (firstRun formatHeader dir q) as [w o] eqn:Erun.
  assert (o = Returned) as ->.
  { destruct o as [|e]; [done|]. exfalso.
    unfold firstRun in Erun.
    destruct (writeQueue_names formatHeader _ World0 w _ idle_World0 Erun)
      as (k & _ & Hc & _).
    unfold attach in Hexp. cbn [fst snd wend] in Hexp. by rewrite Hc in Hexp. }
  exists (startedReader formatHeader dir q), w.
  cbn [goroutine queue startedReader]. rewrite Erun.
  split; [done|]. split; [done|]. split; [done|].
  split; [by apply (firstRun_entries formatHeader dir q)|].
  pose proof (goroutine_outcome formatHeader dir _ w Returned H) as Hout.
  cbn [goroutine queue startedReader] in Hout. rewrite Erun in Hout.
  specialize (Hout eq_refl). clear -Hout.
  induction q as [|f q IH]; [done|]. simpl in Hout.
  destruct (writeFileOutcome formatHeader dir f) eqn:E; [done|].
  constructor; [done|by apply IH].
Qed.
End MoreOnTheArchive.


Lemma completed_archive_is_entries_then_trailer_witness :
  let q := ["Dockerfile"; "app/main.go"; "lib/main.go"] in
  let t := startedReader nameBlockFormat sampleFS q in
  let w := (firstRun nameBlockFormat sampleFS q).1 in
  init nameBlockFormat (NewTarDirReader sampleFS) = (t, None) ∧
  goroutine t = Some (w, Returned) ∧
  map Some (entries w) = map (entryOf sampleFS) (queue t) ∧
  Forall (λ e, length e.2 = if isHeaderOnlyType (Typeflag e.1) then 0
                            else Size e.1) (entries w) ∧
  (∃ bs, Forall2 (λ e b, encodeEntry nameBlockFormat e = Some b) (entries w) bs ∧
         archiveBytes nameBlockFormat sampleFS = concat bs ++ trailer) ∧
  ((∀ h blocks, nameBlockFormat h = inr blocks →
      Nat.divide blockSize (length (concat blocks))) →
   Nat.divide blockSize (length (archiveBytes nameBlockFormat sampleFS))).
Proof.
  cbv zeta. split; [vm_compute; reflexivity|].
  split; [vm_compute; reflexivity|].
  apply (completed_archive_is_entries_then_trailer nameBlockFormat sampleFS
           (startedReader nameBlockFormat sampleFS
              ["Dockerfile"; "app/main.go"; "lib/main.go"])
           (firstRun nameBlockFormat sampleFS
              ["Dockerfile"; "app/main.go"; "lib/main.go"]).1).
  - vm_compute; reflexivity.
  - vm_compute; reflexivity.
Defined.

Lemma eof_means_a_complete_archive_witness :
  let sizes := replicate 20 4096 in
  let got := (readAll nameBlockFormat (NewTarDirReader sampleFS) sizes).1 in
  (init nameBlockFormat (NewTarDirReader sampleFS)).2 ≠ Some EOF ∧
  readAll nameBlockFormat (NewTarDirReader sampleFS) sizes = (got, Ended EOF) ∧
  ∃ t w,
    init nameBlockFormat (NewTarDirReader sampleFS) = (t, None) ∧
    goroutine t = Some (w, Returned) ∧
    got = concat (written w) ∧
    map Some (entries w) = map (entryOf sampleFS) (queue t) ∧
    Forall (λ f, writeFileOutcome nameBlockFormat sampleFS f = None) (queue t).
Proof.
  cbv zeta. split; [vm_compute; discriminate|].
  split; [vm_compute; reflexivity|].
  apply (eof_means_a_complete_archive nameBlockFormat sampleFS
           (replicate 20 4096)
           (readAll nameBlockFormat (NewTarDirReader sampleFS)
              (replicate 20 4096)).1).
  - vm_compute; discriminate.
  - vm_compute; reflexivity.
Defined.

Section MoreOnNames.
Variable formatHeader : Header → error + list chunk.

Lemma takeWhile_Forall {A} (p : A → bool) l :
  Forall (λ x, p x = true) (takeWhile p l).
Proof.
  induction l as [|x l IH]; simpl; [constructor|].
  destruct (p x) eqn:E; by constructor.
Qed.

Lemma existsb_Forall_false {A} (p : A → bool) l :
  Forall (λ x, negb (p x) = true) l → existsb p l = false.
Proof.
  induction 1 as [|x l Hx _ IH]; simpl; [done|].
  rewrite IH. by destruct (p x).
Qed.

(** [filepath.Base] never returns the empty string, and what it returns
    holds no separator unless it is the root. *)
Lemma Base_flat path :
  Base path ≠ EmptyString ∧
  (hasSeparator (Base path) = false ∨ Base path = "/").
Proof.
  unfold Base. destruct (decide (path = EmptyString)); [by split; [|left]|].
  set (last := reverse (takeWhile _ _)).
  destruct (decide (last = [])) as [|Hne]; [by split; [|right]|].
  split.
  - destruct last as [|c l]; done.
  - left. unfold hasSeparator. rewrite list_ascii_of_string_of_list_ascii.
    apply existsb_Forall_false. unfold last.
    apply Forall_reverse, (takeWhile_Forall (λ c, negb (isPathSeparator c))).
Qed.

(** X7. The archive is flat: whatever the depth of the tree, no entry
    carries a directory in its name.  Every name is a last path element,
    not empty and without separator (the root, which the walk never queues
    below ["."], apart). *)
Theorem entry_names_hold_no_directory dir t w o :
  init formatHeader (NewTarDirReader dir) = (t, None) →
  goroutine t = Some (w, o) →
  Forall (λ e, Name e.1 ≠ EmptyString ∧
               (hasSeparator (Name e.1) = false ∨ Name e.1 = "/"))
         (entries w).
Proof.
  intros Hinit Hg.
  destruct (init_fresh_cases formatHeader dir) as [(q & e & H & _)|[q H]];
    rewrite H in Hinit; inversion Hinit; subst; clear Hinit.
  cbn [goroutine queue startedReader] in *. inversion Hg as [Erun].
  destruct (firstRun_names formatHeader dir q w o Erun) as [Hnames _].
  apply Forall_lookup. intros i e He.
  assert (map (λ e, Name e.1) (entries w) !! i = Some (Name e.1)) as Hn
    by (by rewrite list_lookup_fmap, He).
  rewrite Hnames in Hn. apply list_lookup_fmap_Some in Hn as (f & -> & _).
  apply Base_flat.
Qed.
End MoreOnNames.

Lemma entry_names_hold_no_directory_witness :
  let q := ["Dockerfile"; "app/main.go"; "lib/main.go"] in
  let t := startedReader nameBlockFormat sampleFS q in
  let r := firstRun nameBlockFormat sampleFS q in
  init nameBlockFormat (NewTarDirReader sampleFS) = (t, None) ∧
  goroutine t = Some (r.1, r.2) ∧
  Forall (λ e, Name e.1 ≠ EmptyString ∧
               (hasSeparator (Name e.1) = false ∨ Name e.1 = "/"))
         (entries r.1).
Proof.
  cbv zeta. split; [vm_compute; reflexivity|].
  split; [vm_compute; reflexivity|].
  apply (entry_names_hold_no_directory nameBlockFormat sampleFS
           (startedReader nameBlockFormat sampleFS
              ["Dockerfile"; "app/main.go"; "lib/main.go"])
           (firstRun nameBlockFormat sampleFS
              ["Dockerfile"; "app/main.go"; "lib/main.go"]).1
           (firstRun nameBlockFormat sampleFS
              ["Dockerfile"; "app/main.go"; "lib/main.go"]).2).
  - vm_compute; reflexivity.
  - vm_compute; reflexivity.
Defined.

Section MoreOnTheEnd.
Variable formatHeader : Header → error + list chunk.

Lemma init_initialized t t1 r :
  init formatHeader t = (t1, r) → initialized t1 = true.
Proof.
  unfold init. destruct (initialized t) eqn:Hi.
  - intros H. by inversion H; subst.
  - destruct (WalkDir_collect (fs t)) as (q & r' & H).
    cbv zeta. rewrite (H _). destruct r' as [e|]; intros H1;
      by inversion H1; subst.
Qed.

(** X8. The end of the stream is final.  Unless the walk fails, the only
    error a [Read] ever returns is [io.EOF], without data, and from then on
    every [Read] returns [io.EOF] again and leaves the reader as it is. *)
Theorem end_of_stream_is_final t n t' data e :
  (init formatHeader t).2 = None →
  Read formatHeader t n = (t', Returns data (Some e)) →
  e = EOF ∧ data = [] ∧
  ∀ m, Read formatHeader t' m = (t', Returns [] (Some EOF)).
Proof.
  intros Hok Hread. unfold Read in Hread.
  destruct (init formatHeader t) as [t1 r] eqn:Hinit. simpl in Hok. subst r.
  pose proof (init_initialized t t1 None Hinit) as Hi.
  destruct (reader t1) as [p|] eqn:Hp; [|done].
  unfold pipeRead in Hread.
  destruct (pending p) as [|bw rest] eqn:Hpen; [|done].
  destruct (wend p) eqn:Hw; try done.
  inversion Hread; subst; clear Hread.
  split; [done|]. split; [done|]. intros m.
  rewrite (setReader_same t1 p Hp).
  rewrite (Read_initialized formatHeader t1 p m Hi Hp).
  unfold pipeRead. rewrite Hpen, Hw. cbn [fst snd].
  by rewrite (setReader_same t1 p Hp).
Qed.
End MoreOnTheEnd.

Lemma end_of_stream_is_final_witness :
  let t := startedReader nameBlockFormat emptyFS [] in
  let t1 := (Read nameBlockFormat t 4096).1 in
  let t2 := (Read nameBlockFormat t1 4096).1 in
  let t3 := (Read nameBlockFormat t2 4096).1 in
  (init nameBlockFormat t3).2 = None ∧
  Read nameBlockFormat t3 4096 = (t3, Returns [] (Some EOF)) ∧
  EOF = EOF ∧ @nil byte = [] ∧
  ∀ m, Read nameBlockFormat t3 m = (t3, Returns [] (Some EOF)).
Proof.
  cbv zeta. split; [vm_compute; reflexivity|].
  split; [vm_compute; reflexivity|].
  apply (end_of_stream_is_final nameBlockFormat
           (Read nameBlockFormat
              (Read nameBlockFormat
                 (Read nameBlockFormat (startedReader nameBlockFormat emptyFS [])
                    4096).1 4096).1 4096).1
           4096).
  - vm_compute; reflexivity.
  - vm_compute; reflexivity.
Defined.


Section MoreOnTheLog.
Variable formatHeader : Header → error + list chunk.

Lemma silent_bind {A B} (m : M A) (k : A → M B) :
  silent m → (∀ a, silent (k a)) → silent (bind m k).
Proof.
  intros Hm Hk w. unfold bind. specialize (Hm w).
  destruct (m w) as [w' [e|a]]; simpl in *; [done|].
  by rewrite Hk.
Qed.

Lemma silent_ret {A} (a : A) : silent (ret a).
Proof. done. Qed.

Lemma silent_throw {A} e : silent (@throw A e).
Proof. done. Qed.

Lemma silent_lift {A} (r : error + A) : silent (lift r).
Proof. done. Qed.

Lemma silent_getArchive : silent getArchive.
Proof. done. Qed.

Lemma silent_putArchive tw : silent (putArchive tw).
Proof. done. Qed.

Lemma silent_pipeWrite b : silent (pipeWrite b).
Proof. intros w. unfold pipeWrite. by destruct (wclosed w). Qed.

Lemma silent_sticky m : silent m → silent (sticky m).
Proof.
  intros Hm w. unfold sticky. specialize (Hm w).
  by destruct (m w) as [w' [e|[]]].
Qed.

Create HintDb silent.
Hint Resolve silent_ret silent_throw silent_lift silent_getArchive
  silent_putArchive silent_pipeWrite : silent.

Ltac silent :=
  repeat first
    [ apply silent_bind; [|intros ?]
    | apply silent_sticky
    | progress auto with silent ].

Lemma silent_Flush : silent Flush.
Proof.
  unfold Flush. apply silent_bind; [auto with silent|]. intros tw.
  destruct (err tw); [auto with silent|].
  destruct (0 <? curr tw); silent.
Qed.

Lemma silent_writeAll blocks : silent (writeAll blocks).
Proof. induction blocks; simpl; silent. Qed.

Lemma silent_WriteHeader hdr : silent (WriteHeader formatHeader hdr).
Proof.
  unfold WriteHeader. apply silent_bind; [apply silent_Flush|]. intros _.
  destruct (formatHeader _); [auto with silent|].
  apply silent_sticky. apply silent_bind; [apply silent_writeAll|]. intros _.
  silent.
Qed.

Lemma silent_Write b : silent (Write b).
Proof.
  unfold Write. apply silent_bind; [auto with silent|]. intros tw.
  destruct (err tw); [auto with silent|].
  intros w. destruct (0 <? length _); [|by destruct (curr tw <? length b)].
  pose proof (silent_pipeWrite (if curr tw <? length b then take (curr tw) b else b) w) as H.
  destruct (pipeWrite _ w) as [w' [e|n]]; simpl in *; [done|].
  by destruct (curr tw <? length b).
Qed.

Lemma silent_copyBuffer reads fail n : silent (copyBuffer reads fail n).
Proof.
  revert n. induction reads as [|buf reads IH]; intros n; simpl.
  - destruct fail as [er|]; [|auto with silent].
    destruct (decide _); auto with silent.
  - destruct (0 <? length buf); [|done].
    apply silent_bind; [apply silent_Write|]. intros nw.
    destruct (decide _); auto with silent.
Qed.

Lemma silent_writeFile_body f file :
  silent
    (info <- lift (f_stat file) ;;
     header <- lift (FileInfoHeader info EmptyString) ;;
     let header := setName header (Base f) in
     WriteHeader formatHeader header ;;
     Copy file ;;
     Flush).
Proof.
  apply silent_bind; [auto with silent|]. intros info.
  apply silent_bind; [auto with silent|]. intros header.
  apply silent_bind; [apply silent_WriteHeader|]. intros _.
  apply silent_bind; [apply silent_copyBuffer|]. intros _.
  apply silent_Flush.
Qed.

Lemma writeFile_stdout t f w :
  stdout (writeFile formatHeader t f w).1 = stdout w.
Proof.
  unfold writeFile, Open. unfold bind at 1 2 3. unfold lift at 1.
  destruct (fs_open (fs t) f) as [e|file]; [done|].
  unfold modify at 1, ret at 1, defer.
  pose proof (silent_writeFile_body f file
                (setHandles (f :: handles w) w)) as H.
  destruct (bind (lift (f_stat file)) _ _) as [w' r].
  simpl in *. by rewrite H.
Qed.

Lemma silent_Close : silent Close.
Proof.
  unfold Close. apply silent_bind; [auto with silent|]. intros tw.
  destruct (decide _); [auto with silent|].
  destruct (err tw); [auto with silent|].
  intros w.
  assert (silent (Flush ;; pipeWrite zeroBlock ;; pipeWrite zeroBlock ;; ret ()))
    as H by (apply silent_bind; [apply silent_Flush|]; intros _; silent).
  specialize (H w). by destruct (bind Flush _ w).
Qed.

Lemma rangeQueue_stdout t q :
  ∀ w w' o, idle w → rangeQueue formatHeader t q w = (w', o) →
    stdout w' = stdout w ++ map announced (attempted formatHeader (fs t) q).
Proof.
  induction q as [|f q IH]; intros w w' o Hidle H; simpl in H.
  - inversion H; subst. simpl. by rewrite app_nil_r.
  - pose proof (writeFile_stdout t f
                  (Println ("writing file to tar " +:+ f) w)) as Hout.
    destruct (writeFile _ _ _ _) as [w1 r] eqn:EW.
    pose proof (writeFile_spec formatHeader t f _ w1 r
                  (idle_Println _ w Hidle) EW) as Hspec.
    cbn [fst] in Hout. simpl.
    destruct (writeFileOutcome formatHeader (fs t) f) as [e|].
    + subst r. inversion H; subst; clear H. by rewrite Hout.
    + destruct Hspec as (-> & Hidle1 & _).
      rewrite (IH w1 w' o Hidle1 H), Hout. simpl.
      by rewrite <- app_assoc.
Qed.

(** X9. The goroutine reports its progress on standard output and prints
    nothing else: one line per path it gets to, in the order of the queue
    and before the path is opened (so the path that fails is the last one
    named), and ["writing complete"] exactly when it returns. *)
Theorem goroutine_prints_its_progress dir t w o :
  init formatHeader (NewTarDirReader dir) = (t, None) →
  goroutine t = Some (w, o) →
  stdout w = map announced (attempted formatHeader dir (queue t))
             ++ match o with
                | Returned => ["writing complete"]
                | Panicked _ => []
                end.
Proof.
  intros Hinit Hg.
  destruct (init_fresh_cases formatHeader dir) as [(q & e & H & _)|[q H]];
    rewrite H in Hinit; inversion Hinit; subst; clear Hinit.
  cbn [goroutine queue startedReader] in *. inversion Hg as [Erun].
  unfold firstRun in Erun.
  destruct (rangeQueue formatHeader (failedReader dir q) q World0)
    as [w1 o1] eqn:Eq.
  pose proof (rangeQueue_stdout _ q World0 w1 o1 idle_World0 Eq) as Hout.
  cbn [fs failedReader] in Hout. simpl in Hout.
  destruct o1 as [|e].
  - destruct (rangeQueue_spec formatHeader _ q World0 w1 Returned idle_World0 Eq)
      as [_ Hret].
    destruct (Hret eq_refl) as [Hidle1 _].
    rewrite (writeQueue_returned formatHeader _ World0 w1 Hidle1 Eq) in Erun.
    inversion Erun; subst; clear Erun. simpl. by rewrite Hout.
  - rewrite (writeQueue_panicked formatHeader _ World0 w1 e Eq) in Erun.
    inversion Erun; subst; clear Erun. by rewrite app_nil_r.
Qed.
End MoreOnTheLog.

Lemma goroutine_prints_its_progress_witness :
  let q := ["Dockerfile"; "gone.txt"; "later.txt"] in
  let t := startedReader nameBlockFormat vanishedFS q in
  let r := firstRun nameBlockFormat vanishedFS q in
  init nameBlockFormat (NewTarDirReader vanishedFS) = (t, None) ∧
  goroutine t = Some (r.1, r.2) ∧
  stdout r.1 = map announced (attempted nameBlockFormat vanishedFS (queue t))
               ++ match r.2 with
                  | Returned => ["writing complete"]
                  | Panicked _ => []
                  end.
Proof.
  cbv zeta. split; [vm_compute; reflexivity|].
  split; [vm_compute; reflexivity|].
  apply (goroutine_prints_its_progress nameBlockFormat vanishedFS
           (startedReader nameBlockFormat vanishedFS
              ["Dockerfile"; "gone.txt"; "later.txt"])
           (firstRun nameBlockFormat vanishedFS
              ["Dockerfile"; "gone.txt"; "later.txt"]).1
           (firstRun nameBlockFormat vanishedFS
              ["Dockerfile"; "gone.txt"; "later.txt"]).2).
  - vm_compute; reflexivity.
  - vm_compute; reflexivity.
Defined.


(** * godocker.go *)

Section RunFacts.
Variable o : Outside.

Lemma applyOpts_app pre post config cfg :
  applyOpts pre config = Val cfg →
  applyOpts (pre ++ post) config = applyOpts post cfg.
Proof.
  revert config. induction pre as [|opt pre IH]; intros config H; simpl in *.
  - by inversion H.
  - destruct (opt config) as [c| | |]; try done. by apply IH.
Qed.

Lemma clientOptions_Ctx config :
  clientOptions
    match Ctx config with
    | None => setCtx (Some Background) config
    | Some _ => config
    end = clientOptions config.
Proof. by destruct (Ctx config). Qed.

(** [Run] up to the creation of the client. *)
Lemma Run_client opts config w :
  applyOpts opts Config0 = Val config →
  Run o opts w =
    match newClient o (calls w) (clientOptions config) with
    | Some e =>
        ({| calls := calls w ++ [NewClientWithOpts (clientOptions config)];
            printed := printed w |}, Err e)
    | None =>
        ddefer (call_ ClientClose (λ _, None))
          (afterwards o (runBody o (withClient config)))
          {| calls := calls w ++ [NewClientWithOpts (clientOptions config)];
             printed := printed w |}
    end.
Proof.
  intros Hopts. unfold Run. rewrite Hopts. cbv zeta.
  set (c1 := match Ctx config with
             | None => setCtx (Some Background) config
             | Some _ => config
             end).
  assert (clientOptions c1 = clientOptions config) as Hco
    by apply clientOptions_Ctx.
  assert (ClientOpts (if usingAPIVersion c1 then c1
                      else setClientOpts (ClientOpts c1 ++ [WithAPIVersionNegotiation]) c1)
          = clientOptions c1) as Hc.
  { unfold clientOptions. destruct (usingAPIVersion c1); [|done].
    by rewrite app_nil_r. }
  assert (setCli (Some (client (clientOptions c1)))
            (if usingAPIVersion c1 then c1
             else setClientOpts (ClientOpts c1 ++ [WithAPIVersionNegotiation]) c1)
          = withClient config) as Hw.
  { unfold withClient. cbv zeta. fold c1. unfold clientOptions.
    clearbody c1. destruct (usingAPIVersion c1) eqn:E; [|done].
    rewrite app_nil_r. destruct c1; simpl in *. by rewrite E. }
  rewrite Hc. rewrite Hw. rewrite Hco. unfold call_ at 1. cbn [calls printed].
  by destruct (newClient o (calls w) (clientOptions config)) as [e|].
Qed.

Lemma afterRunners_withClient config :
  afterRunners (withClient config) = afterRunners config.
Proof. unfold withClient. by destruct (Ctx config). Qed.

Lemma execContainer_afterRunners config w :
  afterRunners (execContainer o config w).2.1 = afterRunners config.
Proof.
  unfold execContainer. cbn [println fst snd].
  destruct (onCli config _ _) as [w1 [c|e|e|]]; try done.
  cbn [println]. destruct (onCli _ _ _) as [w2 [u|e|e|]]; try done.
  by destruct (ddefer _ _ _).
Qed.

Lemma runBody_afterRunners config w :
  afterRunners (runBody o config w).2.1 = afterRunners config.
Proof.
  unfold runBody. destruct (ImageBuildOpts config) as [opts|].
  - destruct (buildImage o config w) as [w1 [opts1 [tag|e|e|]]]; try done.
    rewrite execContainer_afterRunners.
    destruct config as [? ? ? ? ? cc ? ? ? ? ? ? ? ? ? ?]. by destruct cc.
  - destruct (ContainerConfig config) as [c|]; [|done].
    destruct (decide _); [done|].
    destruct (pullImage o config w) as [w1 [u|e|e|]]; try done.
    apply execContainer_afterRunners.
Qed.

(** Runners of the caller that always return [nil] leave no error. *)
Lemma runRunners_nil ids config :
  (∀ id h c, id ∈ ids → runs o h id c = Val ()) →
  ∀ w, (runRunners o (map callerRunner ids) config w).2 = Val ().
Proof.
  intros Hnil. induction ids as [|id ids IH]; intros w; [done|].
  simpl. unfold dbind. cbn [runRunner].
  rewrite (Hnil id (calls w) config) by set_solver.
  apply IH. intros ????. apply Hnil. set_solver.
Qed.

Lemma withClient_fields config :
  ImageBuildOpts (withClient config) = ImageBuildOpts config ∧
  ContainerConfig (withClient config) = ContainerConfig config ∧
  ImagePullOpts (withClient config) = ImagePullOpts config ∧
  Container (withClient config) = Container config ∧
  execRunners (withClient config) = execRunners config ∧
  ImageTags (withClient config) = ImageTags config ∧
  Cli (withClient config) = Some (client (clientOptions config)).
Proof.
  unfold withClient. cbv zeta. rewrite clientOptions_Ctx.
  by destruct (Ctx config).
Qed.

Lemma runBody_noImage config w :
  noImage config →
  runBody o config w
    = (w, (config, Err (errorString "no image build or pull options provided"))).
Proof.
  intros [Hb Hc]. unfold runBody. rewrite Hb.
  destruct (ContainerConfig config) as [c|]; [|done].
  by rewrite decide_True.
Qed.

Lemma noImage_withClient config : noImage config → noImage (withClient config).
Proof.
  intros [Hb Hc]. unfold noImage.
  destruct (withClient_fields config) as (-> & -> & _). by split.
Qed.

(** X10. [Run] creates the client with the [ClientOpts] of the [Config]
    the options assemble, followed by API version negotiation unless that
    [Config] has [usingAPIVersion] set.  [WithClientOpts] as the last option
    appends its options to the list; [WithAPIVersion] as the last option
    appends [WithVersion] and sets the flag, so that no negotiation is added
    (an option placed after it, such as [WithConfig], can undo both).
    When the client cannot be created, [Run] returns that error at once:
    it makes no other call, prints nothing, and runs no after-runner. *)
Theorem Run_without_a_client_does_nothing opts config :
  applyOpts opts Config0 = Val config →
  (∀ w e,
     newClient o (calls w)
       (ClientOpts config
        ++ (if usingAPIVersion config then [] else [WithAPIVersionNegotiation]))
       = Some e →
     Run o opts w
       = ({| calls := calls w
                      ++ [NewClientWithOpts
                            (ClientOpts config
                             ++ (if usingAPIVersion config then []
                                 else [WithAPIVersionNegotiation]))];
             printed := printed w |}, Err e)) ∧
  (∀ ops w e,
     newClient o (calls w)
       (ClientOpts config ++ ops
        ++ (if usingAPIVersion config then [] else [WithAPIVersionNegotiation]))
       = Some e →
     Run o (opts ++ [WithClientOpts ops]) w
       = ({| calls := calls w
                      ++ [NewClientWithOpts
                            (ClientOpts config ++ ops
                             ++ (if usingAPIVersion config then []
                                 else [WithAPIVersionNegotiation]))];
             printed := printed w |}, Err e)) ∧
  (∀ version w e,
     newClient o (calls w) (ClientOpts config ++ [WithVersion version]) = Some e →
     Run o (opts ++ [WithAPIVersion version]) w
       = ({| calls := calls w
                      ++ [NewClientWithOpts
                            (ClientOpts config ++ [WithVersion version])];
             printed := printed w |}, Err e)).
Proof.
  intros Hopts. split; [|split].
  - intros w e He. rewrite (Run_client opts config w Hopts).
    unfold clientOptions. by rewrite He.
  - intros ops w e He.
    assert (applyOpts (opts ++ [WithClientOpts ops]) Config0
            = Val (setClientOpts (ClientOpts config ++ ops) config)) as Hopts'
      by (by rewrite (applyOpts_app opts _ Config0 config Hopts)).
    rewrite (Run_client _ _ w Hopts'). unfold clientOptions.
    cbn [ClientOpts usingAPIVersion setClientOpts].
    rewrite <- app_assoc. by rewrite He.
  - intros version w e He.
    assert (applyOpts (opts ++ [WithAPIVersion version]) Config0
            = Val (setClientOpts (ClientOpts config ++ [WithVersion version])
                     (setUsingAPIVersion true config))) as Hopts'
      by (by rewrite (applyOpts_app opts _ Config0 config Hopts)).
    rewrite (Run_client _ _ w Hopts'). unfold clientOptions.
    cbn [ClientOpts usingAPIVersion setClientOpts setUsingAPIVersion].
    rewrite app_nil_r. by rewrite He.
Qed.

(** X11. Once an after-runner is registered, the error of [Run] is no
    longer that of the build, the pull or the container: the deferred
    closure assigns what the after-runners return to the result.  With
    after-runners that return [nil], [Run] never returns an error once the
    client exists, and it returns [nil] even when no image was configured
    at all. *)
Theorem after_runners_replace_the_result opts config ids w :
  applyOpts opts Config0 = Val config →
  afterRunners config = map callerRunner ids →
  ids ≠ [] →
  (∀ id h c, id ∈ ids → runs o h id c = Val ()) →
  newClient o (calls w) (clientOptions config) = None →
  (∀ e, (Run o opts w).2 ≠ Err e) ∧
  (noImage config → (Run o opts w).2 = Val ()).
Proof.
  intros Hopts Hafter Hne Hnil Hcli.
  rewrite (Run_client opts config w Hopts), Hcli.
  set (w1 := {| calls := _; printed := _ |}).
  assert (∀ w2 c2 r,
            runBody o (withClient config) w1 = (w2, (c2, r)) →
            (afterwards o (runBody o (withClient config)) w1).2
              = match r with
                | NeverReturns => NeverReturns
                | Panics e => Panics e
                | _ => Val ()
                end) as Hafterwards.
  { intros w2 c2 r Hbody. unfold afterwards. rewrite Hbody.
    assert (afterRunners c2 = map callerRunner ids) as Hc2.
    { pose proof (runBody_afterRunners (withClient config) w1) as H.
      rewrite Hbody in H. cbn [fst snd] in H.
      by rewrite H, afterRunners_withClient. }
    pose proof (runRunners_nil ids c2 Hnil w2) as Hrun.
    rewrite Hc2. destruct ids as [|id ids']; [done|].
    change (callerRunner id :: map callerRunner ids')
      with (map callerRunner (id :: ids')).
    destruct (runRunners o (map callerRunner (id :: ids')) c2 w2) as [w3 r3].
    simpl in Hrun. subst r3. by destruct r. }
  destruct (runBody o (withClient config) w1) as [w2 [c2 r]] eqn:Hbody.
  specialize (Hafterwards w2 c2 r eq_refl).
  unfold ddefer. destruct (afterwards o _ w1) as [w3 r3]. simpl in Hafterwards.
  subst r3. split.
  - intros e. by destruct r.
  - intros Hno.
    rewrite (runBody_noImage (withClient config) w1 (noImage_withClient _ Hno))
      in Hbody.
    by inversion Hbody; subst.
Qed.

(** X12. Without an image to build or to pull, and without after-runners,
    [Run] creates the client, closes it, and returns the error "no image
    build or pull options provided"; no container is created. *)
Theorem Run_needs_an_image opts config w :
  applyOpts opts Config0 = Val config →
  noImage config →
  afterRunners config = [] →
  newClient o (calls w) (clientOptions config) = None →
  Run o opts w
    = ({| calls := calls w ++ [NewClientWithOpts (clientOptions config);
                               ClientClose];
          printed := printed w |},
       Err (errorString "no image build or pull options provided")).
Proof.
  intros Hopts Hno Hafter Hcli.
  rewrite (Run_client opts config w Hopts), Hcli.
  unfold ddefer, afterwards.
  rewrite (runBody_noImage _ _ (noImage_withClient _ Hno)).
  rewrite afterRunners_withClient, Hafter. unfold call_. cbn [calls printed].
  by rewrite <- app_assoc.
Qed.

(** X13. [CleanupContainer] assumes a container: when [Run] ends before
    one was created (no image was configured, or the pull failed), the
    closure prints its line, dereferences the nil [config.Container], and
    [Run] panics instead of returning the error.  Nothing else happens: the
    calls are the creation of the client, the pull if there was one, and
    the closing of the client; no container is created, started, stopped
    or removed, and the after-runners behind [CleanupContainer] do not
    run. *)
Theorem cleanup_without_a_container_panics opts config rest w :
  applyOpts opts Config0 = Val config →
  Container config = None →
  afterRunners config = removeContainer :: rest →
  newClient o (calls w) (clientOptions config) = None →
  (noImage config →
   Run o opts w
     = ({| calls := calls w ++ [NewClientWithOpts (clientOptions config);
                                ClientClose];
           printed := printed w ++ ["removing container"] |},
        Panics nilDereference)) ∧
  (∀ c e,
     ImageBuildOpts config = None →
     ContainerConfig config = Some c →
     Image c ≠ EmptyString →
     imagePull o (calls w ++ [NewClientWithOpts (clientOptions config)])
       (Image c)
       match ImagePullOpts config with
       | None => ImagePullOptions0
       | Some options => options
       end = inl e →
     Run o opts w
       = ({| calls := calls w
                      ++ [NewClientWithOpts (clientOptions config);
                          ImagePull (Image c)
                            match ImagePullOpts config with
                            | None => ImagePullOptions0
                            | Some options => options
                            end;
                          ClientClose];
             printed := printed w ++ ["pulling image " +:+ Image c;
                                      "removing container"] |},
          Panics nilDereference)).
Proof.
  intros Hopts Hcont Hafter Hcli.
  rewrite (Run_client opts config w Hopts), Hcli.
  set (w1 := {| calls := _; printed := _ |}).
  destruct (withClient_fields config) as (Hb & Hcc & Hp & Hc & _ & _ & Hcl).
  assert (∀ w2 e,
            runBody o (withClient config) w1 = (w2, (withClient config, Err e)) →
            ddefer (call_ ClientClose (λ _, None))
              (afterwards o (runBody o (withClient config))) w1
              = ({| calls := calls w2 ++ [ClientClose];
                    printed := printed w2 ++ ["removing container"] |},
                 Panics nilDereference)) as Hend.
  { intros w2 e Hbody.
    assert (afterwards o (runBody o (withClient config)) w1
            = ({| calls := calls w2;
                  printed := printed w2 ++ ["removing container"] |},
               Panics nilDereference)) as Haft.
    { unfold afterwards. rewrite Hbody, afterRunners_withClient, Hafter.
      cbn [runRunners].
      unfold dbind, runRunner, removeContainerRunner, dbind, println.
      by rewrite Hc, Hcont. }
    unfold ddefer. rewrite Haft. by unfold call_. }
  split.
  - intros Hno.
    rewrite (Hend w1 _ (runBody_noImage _ _ (noImage_withClient _ Hno))).
    unfold w1. cbn [calls printed]. by rewrite <- app_assoc.
  - intros c e Hbuild Hcfg Himg Hfail.
    assert (runBody o (withClient config) w1
            = ({| calls := calls w1
                           ++ [ImagePull (Image c)
                                 match ImagePullOpts config with
                                 | None => ImagePullOptions0
                                 | Some options => options
                                 end];
                  printed := printed w1 ++ ["pulling image " +:+ Image c] |},
               (withClient config, Err e))) as Hbody.
    { unfold runBody. rewrite Hb, Hbuild, Hcc, Hcfg.
      rewrite decide_False by done.
      unfold pullImage. rewrite Hcc, Hcfg, Hp. rewrite decide_False by done.
      unfold dbind, println, onCli, call. rewrite Hcl. cbv beta zeta.
      cbn [calls printed].
      change (calls w1) with (calls w ++ [NewClientWithOpts (clientOptions config)]).
      by rewrite Hfail. }
    rewrite (Hend _ e Hbody). unfold w1. cbn [calls printed].
    by rewrite <- !app_assoc.
Qed.
End RunFacts.

Lemma Run_without_a_client_does_nothing_witness :
  let opts := [WithClientOpts [callerClientOpt 1]; WithImage "alpine";
               CleanupContainer] in
  let config := assembled opts in
  let e := errorString "cannot connect" in
  applyOpts opts Config0 = Val config ∧
  Run unreachable opts Dock0
    = ({| calls := [NewClientWithOpts [callerClientOpt 1;
                                       WithAPIVersionNegotiation]];
          printed := [] |}, Err e) ∧
  Run unreachable (opts ++ [WithClientOpts [callerClientOpt 2]]) Dock0
    = ({| calls := [NewClientWithOpts [callerClientOpt 1; callerClientOpt 2;
                                       WithAPIVersionNegotiation]];
          printed := [] |}, Err e) ∧
  Run unreachable (opts ++ [WithAPIVersion "1.41"]) Dock0
    = ({| calls := [NewClientWithOpts [callerClientOpt 1; WithVersion "1.41"]];
          printed := [] |}, Err e) ∧
  (∀ w e,
     newClient unreachable (calls w)
       (ClientOpts config
        ++ (if usingAPIVersion config then [] else [WithAPIVersionNegotiation]))
       = Some e →
     Run unreachable opts w
       = ({| calls := calls w
                      ++ [NewClientWithOpts
                            (ClientOpts config
                             ++ (if usingAPIVersion config then []
                                 else [WithAPIVersionNegotiation]))];
             printed := printed w |}, Err e)) ∧
  (∀ ops w e,
     newClient unreachable (calls w)
       (ClientOpts config ++ ops
        ++ (if usingAPIVersion config then [] else [WithAPIVersionNegotiation]))
       = Some e →
     Run unreachable (opts ++ [WithClientOpts ops]) w
       = ({| calls := calls w
                      ++ [NewClientWithOpts
                            (ClientOpts config ++ ops
                             ++ (if usingAPIVersion config then []
                                 else [WithAPIVersionNegotiation]))];
             printed := printed w |}, Err e)) ∧
  (∀ version w e,
     newClient unreachable (calls w) (ClientOpts config ++ [WithVersion version])
       = Some e →
     Run unreachable (opts ++ [WithAPIVersion version]) w
       = ({| calls := calls w
                      ++ [NewClientWithOpts
                            (ClientOpts config ++ [WithVersion version])];
             printed := printed w |}, Err e)).
Proof.
  cbv zeta. split; [reflexivity|]. split; [reflexivity|]. split; [reflexivity|].
  split; [reflexivity|].
  apply (Run_without_a_client_does_nothing unreachable
           [WithClientOpts [callerClientOpt 1]; WithImage "alpine";
            CleanupContainer]
           (assembled [WithClientOpts [callerClientOpt 1]; WithImage "alpine";
                       CleanupContainer])).
  reflexivity.
Defined.

Lemma after_runners_replace_the_result_witness :
  let opts := [After [callerRunner 7]] in
  applyOpts opts Config0 = Val (assembled opts) ∧
  afterRunners (assembled opts) = map callerRunner [7] ∧
  [7] ≠ [] ∧
  (∀ id h c, id ∈ [7] → runs obliging h id c = Val ()) ∧
  newClient obliging (calls Dock0) (clientOptions (assembled opts)) = None ∧
  (∀ e, (Run obliging opts Dock0).2 ≠ Err e) ∧
  (noImage (assembled opts) → (Run obliging opts Dock0).2 = Val ()).
Proof.
  cbv zeta. split; [reflexivity|]. split; [reflexivity|]. split; [done|].
  split; [done|]. split; [reflexivity|].
  apply (after_runners_replace_the_result obliging [After [callerRunner 7]]
           (assembled [After [callerRunner 7]]) [7] Dock0).
  - reflexivity.
  - reflexivity.
  - done.
  - done.
  - reflexivity.
Defined.

Lemma Run_needs_an_image_witness :
  let opts := [WithCwd "/src"; Exec [callerRunner 1]] in
  applyOpts opts Config0 = Val (assembled opts) ∧
  noImage (assembled opts) ∧
  afterRunners (assembled opts) = [] ∧
  newClient obliging (calls Dock0) (clientOptions (assembled opts)) = None ∧
  Run obliging opts Dock0
    = ({| calls := calls Dock0
                   ++ [NewClientWithOpts (clientOptions (assembled opts));
                       ClientClose];
          printed := printed Dock0 |},
       Err (errorString "no image build or pull options provided")).
Proof.
  cbv zeta. split; [reflexivity|]. split; [by split|]. split; [reflexivity|].
  split; [reflexivity|].
  apply (Run_needs_an_image obliging [WithCwd "/src"; Exec [callerRunner 1]]
           (assembled [WithCwd "/src"; Exec [callerRunner 1]]) Dock0).
  - reflexivity.
  - by split.
  - reflexivity.
  - reflexivity.
Defined.

Lemma cleanup_without_a_container_panics_witness :
  let opts := [WithImage "alpine"; CleanupContainer; CleanupImage] in
  let config := assembled opts in
  applyOpts opts Config0 = Val config ∧
  Container config = None ∧
  afterRunners config = removeContainer :: [removeImages] ∧
  newClient pullRefused (calls Dock0) (clientOptions config) = None ∧
  Run pullRefused opts Dock0
    = ({| calls := [NewClientWithOpts [WithAPIVersionNegotiation];
                    ImagePull "alpine" ImagePullOptions0;
                    ClientClose];
          printed := ["pulling image alpine"; "removing container"] |},
       Panics nilDereference) ∧
  (noImage config →
   Run pullRefused opts Dock0
     = ({| calls := calls Dock0 ++ [NewClientWithOpts (clientOptions config);
                                    ClientClose];
           printed := printed Dock0 ++ ["removing container"] |},
        Panics nilDereference)) ∧
  (∀ c e,
     ImageBuildOpts config = None →
     ContainerConfig config = Some c →
     Image c ≠ EmptyString →
     imagePull pullRefused
       (calls Dock0 ++ [NewClientWithOpts (clientOptions config)])
       (Image c)
       match ImagePullOpts config with
       | None => ImagePullOptions0
       | Some options => options
       end = inl e →
     Run pullRefused opts Dock0
       = ({| calls := calls Dock0
                      ++ [NewClientWithOpts (clientOptions config);
                          ImagePull (Image c)
                            match ImagePullOpts config with
                            | None => ImagePullOptions0
                            | Some options => options
                            end;
                          ClientClose];
             printed := printed Dock0 ++ ["pulling image " +:+ Image c;
                                          "removing container"] |},
          Panics nilDereference)).
Proof.
  cbv zeta. split; [reflexivity|]. split; [reflexivity|]. split; [reflexivity|].
  split; [reflexivity|]. split; [reflexivity|].
  apply (cleanup_without_a_container_panics pullRefused
           [WithImage "alpine"; CleanupContainer; CleanupImage]
           (assembled [WithImage "alpine"; CleanupContainer; CleanupImage])
           [removeImages] Dock0).
  - reflexivity.
  - reflexivity.
  - reflexivity.
  - reflexivity.
Defined.

Section ContainerFacts.
Variable o : Outside.

Lemma since_app w w' evs : calls w' = calls w ++ evs → since w w' = evs.
Proof. intros H. unfold since. by rewrite H, drop_app_length. Qed.

(** [execContainer] once the container is created and started. *)
Lemma execContainer_started config c w :
  Cli config ≠ None →
  containerCreate o (calls w) (ContainerConfig config) (Host config)
    (Network config) (Platform config) (cfg_Name config) = inr c →
  containerStart o
    (calls w ++ [ContainerCreate (ContainerConfig config) (Host config)
                   (Network config) (Platform config) (cfg_Name config)])
    (ID c) = None →
  execContainer o config w =
    let config' := setContainer (Some c) config in
    let '(w3, r) :=
      runRunners o (execRunners config) config'
        {| calls := calls w
                    ++ [ContainerCreate (ContainerConfig config) (Host config)
                          (Network config) (Platform config) (cfg_Name config);
                        ContainerStart (ID c)];
           printed := printed w ++ ["creating container"; "starting container"] |} in
    match r with
    | NeverReturns => (w3, (config', NeverReturns))
    | _ =>
        ({| calls := calls w3 ++ [ContainerStop (ID c)];
            printed := printed w3 ++ ["stopping container"] |},
         (config', match containerStop o (calls w3) (ID c) with
                   | Some e => Panics e
                   | None => r
                   end))
    end.
Proof.
  intros Hcli Hcreate Hstart.
  unfold execContainer. cbn [println]. unfold onCli at 1.
  destruct (Cli config) as [cl|] eqn:Ecl; [|done].
  unfold call at 1. cbn [calls printed]. rewrite Hcreate.
  unfold onCli at 1. cbn [Cli setContainer]. rewrite Ecl.
  unfold call_ at 1. cbn [calls printed]. rewrite Hstart.
  cbv zeta. set (config' := setContainer (Some c) config).
  change (execRunners config') with (execRunners config).
  rewrite <- !app_assoc. cbn [app].
  unfold ddefer.
  destruct (runRunners o (execRunners config) config' _) as [w3 r].
  assert (stopContainer o config' w3
          = ({| calls := calls w3 ++ [ContainerStop (ID c)];
                printed := printed w3 ++ ["stopping container"] |},
             match containerStop o (calls w3) (ID c) with
             | Some e => Panics e
             | None => Val ()
             end)) as Hstop.
  { unfold stopContainer, dbind, println, onCli, call_.
    change (Container config') with (Some c).
    change (Cli config') with (Cli config). rewrite Ecl. cbn [calls printed].
    by destruct (containerStop o (calls w3) (ID c)). }
  destruct r as [[]|e|e|]; [| | |done]; rewrite Hstop;
    by destruct (containerStop o (calls w3) (ID c)).
Qed.

(** Runners that return [nil] are gone through. *)
Lemma runRunners_through pre rest config :
  (∀ h id cfg, id ∈ pre → runs o h id cfg = Val ()) →
  ∀ w, runRunners o (map callerRunner (pre ++ rest)) config w
       = runRunners o (map callerRunner rest) config
           {| calls := calls w ++ map (λ id, Runs id config) pre;
              printed := printed w |}.
Proof.
  intros Hnil. induction pre as [|id pre IH]; intros w.
  - simpl. rewrite app_nil_r. by destruct w.
  - simpl. unfold dbind at 1. cbn [runRunner].
    rewrite (Hnil _ id config) by set_solver.
    rewrite IH by (intros ????; apply Hnil; set_solver).
    cbn [calls printed]. by rewrite <- app_assoc.
Qed.

(** X14. A container that was started is stopped, and the exec-runners
    stop at the first that fails.  When creation and start succeed,
    [execContainer] calls the exec-runners in order, each with the [Config]
    that holds the new container.  If all return [nil], it stops the
    container and returns [nil].  If one does not (it returns an error or
    panics), the runners behind it are not called, the container is
    stopped all the same as the last call, and [execContainer] ends as
    that runner did.  If the stop fails, [execContainer] panics with the
    error of the stop instead. *)
Theorem started_container_is_stopped config c pre stop w :
  Cli config ≠ None →
  containerCreate o (calls w) (ContainerConfig config) (Host config)
    (Network config) (Platform config) (cfg_Name config) = inr c →
  containerStart o
    (calls w ++ [ContainerCreate (ContainerConfig config) (Host config)
                   (Network config) (Platform config) (cfg_Name config)])
    (ID c) = None →
  (∀ h id cfg, id ∈ pre → runs o h id cfg = Val ()) →
  (∀ h, containerStop o h (ID c) = stop) →
  let config' := setContainer (Some c) config in
  let create := ContainerCreate (ContainerConfig config) (Host config)
                  (Network config) (Platform config) (cfg_Name config) in
  let lines := ["creating container"; "starting container";
                "stopping container"] in
  (execRunners config = map callerRunner pre →
   execContainer o config w
     = ({| calls := calls w ++ [create; ContainerStart (ID c)]
                    ++ map (λ id, Runs id config') pre
                    ++ [ContainerStop (ID c)];
           printed := printed w ++ lines |},
        (config', match stop with
                  | Some e => Panics e
                  | None => Val ()
                  end))) ∧
  (∀ id post r,
     execRunners config = map callerRunner (pre ++ id :: post) →
     (∀ h cfg, runs o h id cfg = r) →
     r ≠ Val () → r ≠ NeverReturns →
     execContainer o config w
       = ({| calls := calls w ++ [create; ContainerStart (ID c)]
                      ++ map (λ id, Runs id config') (pre ++ [id])
                      ++ [ContainerStop (ID c)];
             printed := printed w ++ lines |},
          (config', match stop with
                    | Some e => Panics e
                    | None => r
                    end))).
Proof.
  intros Hcli Hcreate Hstart Hnil Hstop config' create lines.
  split.
  - intros Hexec.
    rewrite (execContainer_started config c w Hcli Hcreate Hstart).
    cbv zeta. fold config' create. rewrite Hexec.
    rewrite <- (app_nil_r pre) at 1.
    rewrite (runRunners_through pre [] config' Hnil).
    cbn [map runRunners dret calls printed]. rewrite Hstop.
    unfold lines. by rewrite <- !app_assoc.
  - intros id post r Hexec Hr Hnv Hnn.
    rewrite (execContainer_started config c w Hcli Hcreate Hstart).
    cbv zeta. fold config' create. rewrite Hexec.
    rewrite (runRunners_through pre (id :: post) config' Hnil).
    cbn [map runRunners]. unfold dbind at 1. cbn [runRunner calls printed].
    rewrite Hr.
    destruct r as [[]|e|e|]; try done; cbn [calls printed];
      rewrite Hstop, map_app; unfold lines; by rewrite <- !app_assoc.
Qed.
End ContainerFacts.

Lemma started_container_is_stopped_witness :
  let config := withClient (assembled [WithImage "alpine";
                                       Exec [callerRunner 1; callerRunner 2;
                                             callerRunner 3]]) in
  let c := {| ID := "c0ffee"; Warnings := [] |} in
  let config' := setContainer (Some c) config in
  let create := ContainerCreate (ContainerConfig config) (Host config)
                  (Network config) (Platform config) (cfg_Name config) in
  let lines := ["creating container"; "starting container";
                "stopping container"] in
  Cli config ≠ None ∧
  containerCreate secondFails (calls Dock0) (ContainerConfig config) (Host config)
    (Network config) (Platform config) (cfg_Name config) = inr c ∧
  containerStart secondFails (calls Dock0 ++ [create]) (ID c) = None ∧
  (∀ h id cfg, id ∈ [1] → runs secondFails h id cfg = Val ()) ∧
  (∀ h, containerStop secondFails h (ID c) = None) ∧
  execContainer secondFails config Dock0
    = ({| calls := [create; ContainerStart "c0ffee"; Runs 1 config';
                    Runs 2 config'; ContainerStop "c0ffee"];
          printed := lines |},
       (config', Err (errorString "exit status 1"))) ∧
  (execRunners config = map callerRunner [1] →
   execContainer secondFails config Dock0
     = ({| calls := calls Dock0 ++ [create; ContainerStart (ID c)]
                    ++ map (λ id, Runs id config') [1]
                    ++ [ContainerStop (ID c)];
           printed := printed Dock0 ++ lines |},
        (config', Val ()))) ∧
  (∀ id post r,
     execRunners config = map callerRunner ([1] ++ id :: post) →
     (∀ h cfg, runs secondFails h id cfg = r) →
     r ≠ Val () → r ≠ NeverReturns →
     execContainer secondFails config Dock0
       = ({| calls := calls Dock0 ++ [create; ContainerStart (ID c)]
                      ++ map (λ id, Runs id config') ([1] ++ [id])
                      ++ [ContainerStop (ID c)];
             printed := printed Dock0 ++ lines |},
          (config', r))).
Proof.
  cbv zeta.
  assert (∀ (h : list Event) (id : nat) (cfg : Config),
            id ∈ [1] → runs secondFails h id cfg = Val ()) as Hnil.
  { intros h id cfg Hin. apply list_elem_of_singleton in Hin. by subst id. }
  split; [done|]. split; [reflexivity|]. split; [reflexivity|].
  split; [exact Hnil|]. split; [done|]. split; [reflexivity|].
  apply (started_container_is_stopped secondFails
           (withClient (assembled [WithImage "alpine";
                                   Exec [callerRunner 1; callerRunner 2;
                                         callerRunner 3]]))
           {| ID := "c0ffee"; Warnings := [] |} [1] None Dock0).
  - done.
  - reflexivity.
  - reflexivity.
  - exact Hnil.
  - done.
Defined.

Section HappyPath.
Variable o : Outside.

Lemma pullImage_answered config c0 body w :
  Cli config ≠ None →
  ContainerConfig config = Some c0 →
  Image c0 ≠ EmptyString →
  imagePull o (calls w) (Image c0)
    match ImagePullOpts config with
    | None => ImagePullOptions0
    | Some options => options
    end = inr body →
  pullImage o config w
    = ({| calls := calls w
                   ++ [ImagePull (Image c0)
                         match ImagePullOpts config with
                         | None => ImagePullOptions0
                         | Some options => options
                         end];
          printed := printed w ++ ["pulling image " +:+ Image c0; pulled body] |},
       match pullErr body with
       | Some e => Err e
       | None => Val ()
       end).
Proof.
  intros Hcli Hcc Himg Hpull. unfold pullImage. rewrite Hcc.
  rewrite decide_False by done.
  unfold dbind, println, onCli, call.
  destruct (Cli config); [|done]. cbv beta zeta. cbn [calls printed].
  rewrite Hpull. cbn [calls printed].
  by rewrite <- app_assoc.
Qed.

Lemma runRunners_all_nil ids config :
  (∀ h id c, runs o h id c = Val ()) →
  ∀ w, runRunners o (map callerRunner ids) config w
       = ({| calls := calls w ++ map (λ id, Runs id config) ids;
             printed := printed w |}, Val ()).
Proof.
  intros Hnil. induction ids as [|id ids IH]; intros w.
  - simpl. rewrite app_nil_r. by destruct w.
  - simpl. unfold dbind. cbn [runRunner]. rewrite Hnil, IH. cbn [calls printed].
    by rewrite <- app_assoc.
Qed.

(** X15. When everything succeeds, [Run] with an image to pull makes these
    calls and no others, in this order: it creates the client, pulls the
    image, creates and starts the container, calls the exec-runners,
    stops the container, calls the after-runners, and closes the client.
    Every runner is handed the [Config] that holds the client and the
    container.  [Run] returns [nil]. *)
Theorem Run_pulls_runs_stops_and_cleans_up opts config c0 c execs afters w :
  applyOpts opts Config0 = Val config →
  ImageBuildOpts config = None →
  ContainerConfig config = Some c0 →
  Image c0 ≠ EmptyString →
  execRunners config = map callerRunner execs →
  afterRunners config = map callerRunner afters →
  newClient o (calls w) (clientOptions config) = None →
  (∀ h ref options, ∃ body, imagePull o h ref options = inr body ∧
                            pullErr body = None) →
  (∀ h cc host net plat name, containerCreate o h cc host net plat name = inr c) →
  (∀ h id, containerStart o h id = None) →
  (∀ h id, containerStop o h id = None) →
  (∀ h id cfg, runs o h id cfg = Val ()) →
  let cfg := withClient config in
  let cfg' := setContainer (Some c) cfg in
  (Run o opts w).2 = Val () ∧
  since w (Run o opts w).1
    = [NewClientWithOpts (clientOptions config);
       ImagePull (Image c0) match ImagePullOpts config with
                            | None => ImagePullOptions0
                            | Some options => options
                            end;
       ContainerCreate (Some c0) (Host cfg) (Network cfg) (Platform cfg)
         (cfg_Name cfg);
       ContainerStart (ID c)]
      ++ map (λ id, Runs id cfg') execs
      ++ [ContainerStop (ID c)]
      ++ map (λ id, Runs id cfg') afters
      ++ [ClientClose].
Proof.
  intros Hopts Hbuild Hcc Himg Hexec Hafter Hcli Hpull Hcreate Hstart Hstop Hruns.
  cbv zeta.
  rewrite (Run_client o opts config w Hopts), Hcli.
  set (w1 := {| calls := _; printed := _ |}).
  destruct (withClient_fields config) as (Hb & Hccw & Hp & Hc & He & _ & Hcl).
  set (cfg := withClient config) in *.
  set (cfg' := setContainer (Some c) cfg).
  destruct (Hpull (calls w1) (Image c0)
              match ImagePullOpts config with
              | None => ImagePullOptions0
              | Some options => options
              end) as (body & Hbody & Hperr).
  assert (Cli cfg ≠ None) as Hclne by (by rewrite Hcl).
  assert (∃ w4, runBody o cfg w1 = (w4, (cfg', Val ())) ∧
                calls w4 = calls w1
                           ++ [ImagePull (Image c0)
                                 match ImagePullOpts config with
                                 | None => ImagePullOptions0
                                 | Some options => options
                                 end;
                               ContainerCreate (Some c0) (Host cfg) (Network cfg)
                                 (Platform cfg) (cfg_Name cfg);
                               ContainerStart (ID c)]
                           ++ map (λ id, Runs id cfg') execs
                           ++ [ContainerStop (ID c)]) as (w4 & Hrun & Hcalls).
  { unfold runBody. rewrite Hb, Hbuild, Hccw, Hcc.
    rewrite decide_False by done.
    rewrite (pullImage_answered cfg c0 body w1 Hclne); [|by rewrite Hccw|done|
      by rewrite Hp].
    rewrite Hperr, Hp.
    set (w2 := {| calls := _; printed := _ |}).
    rewrite (execContainer_started o cfg c w2 Hclne (Hcreate _ _ _ _ _ _)
               (Hstart _ _)).
    cbv zeta. fold cfg'. rewrite He, Hexec.
    rewrite (runRunners_all_nil execs cfg' Hruns). rewrite Hstop.
    eexists. split; [reflexivity|]. cbn [calls]. rewrite Hccw, Hcc.
    unfold w2. cbn [calls]. by rewrite <- !app_assoc. }
  assert (afterRunners cfg' = map callerRunner afters) as Haft
    by (by unfold cfg', cfg; cbn [afterRunners setContainer];
           rewrite afterRunners_withClient).
  assert (afterwards o (runBody o cfg) w1
          = ({| calls := calls w4 ++ map (λ id, Runs id cfg') afters;
                printed := printed w4 |}, Val ())) as Hafterwards.
  { unfold afterwards. rewrite Hrun, Haft.
    destruct afters as [|a afters']; [simpl; rewrite app_nil_r; by destruct w4|].
    change (callerRunner a :: map callerRunner afters')
      with (map callerRunner (a :: afters')).
    by rewrite (runRunners_all_nil (a :: afters') cfg' Hruns). }
  unfold ddefer. rewrite Hafterwards. unfold call_. cbn [fst snd calls printed].
  split; [done|]. apply since_app. rewrite Hcalls. unfold w1. cbn [calls].
  by rewrite <- !app_assoc.
Qed.
End HappyPath.

Lemma Run_pulls_runs_stops_and_cleans_up_witness :
  let opts := [WithImage "alpine"; Exec [callerRunner 1; callerRunner 2];
               After [callerRunner 3]] in
  let config := assembled opts in
  let c0 := {| Image := "alpine"; Cmd := []; Env := [] |} in
  let c := {| ID := "c0ffee"; Warnings := [] |} in
  let cfg := withClient config in
  let cfg' := setContainer (Some c) cfg in
  applyOpts opts Config0 = Val config ∧
  ImageBuildOpts config = None ∧
  ContainerConfig config = Some c0 ∧
  Image c0 ≠ EmptyString ∧
  execRunners config = map callerRunner [1; 2] ∧
  afterRunners config = map callerRunner [3] ∧
  newClient obliging (calls Dock0) (clientOptions config) = None ∧
  (∀ h ref options, ∃ body, imagePull obliging h ref options = inr body ∧
                            pullErr body = None) ∧
  (∀ h cc host net plat name,
     containerCreate obliging h cc host net plat name = inr c) ∧
  (∀ h id, containerStart obliging h id = None) ∧
  (∀ h id, containerStop obliging h id = None) ∧
  (∀ h id cfg, runs obliging h id cfg = Val ()) ∧
  (Run obliging opts Dock0).2 = Val () ∧
  since Dock0 (Run obliging opts Dock0).1
    = [NewClientWithOpts (clientOptions config);
       ImagePull (Image c0) match ImagePullOpts config with
                            | None => ImagePullOptions0
                            | Some options => options
                            end;
       ContainerCreate (Some c0) (Host cfg) (Network cfg) (Platform cfg)
         (cfg_Name cfg);
       ContainerStart (ID c)]
      ++ map (λ id, Runs id cfg') [1; 2]
      ++ [ContainerStop (ID c)]
      ++ map (λ id, Runs id cfg') [3]
      ++ [ClientClose].
Proof.
  cbv zeta.
  assert (∀ (h : list Event) (ref : string) (options : ImagePullOptions),
            ∃ body, imagePull obliging h ref options = inr body ∧
                    pullErr body = None) as Hpull
    by (intros; by eexists).
  split; [reflexivity|]. split; [reflexivity|]. split; [reflexivity|].
  split; [done|]. split; [reflexivity|]. split; [reflexivity|].
  split; [reflexivity|]. split; [exact Hpull|]. split; [done|].
  split; [done|]. split; [done|]. split; [done|].
  apply (Run_pulls_runs_stops_and_cleans_up obliging
           [WithImage "alpine"; Exec [callerRunner 1; callerRunner 2];
            After [callerRunner 3]]
           (assembled [WithImage "alpine"; Exec [callerRunner 1; callerRunner 2];
                       After [callerRunner 3]])
           {| Image := "alpine"; Cmd := []; Env := [] |}
           {| ID := "c0ffee"; Warnings := [] |} [1; 2] [3] Dock0).
  - reflexivity.
  - reflexivity.
  - reflexivity.
  - done.
  - reflexivity.
  - reflexivity.
  - reflexivity.
  - exact Hpull.
  - done.
  - done.
  - done.
  - done.
Defined.

Section BuildFacts.
Variable o : Outside.

Lemma channelLines_cons s body :
  channelLines o (s :: body)
    = match unmarshal o (token s) with
      | inr l => if IsStream l then channelLines o body
                 else l :: channelLines o body
      | inl _ => channelLines o body
      end.
Proof.
  unfold channelLines. simpl.
  destruct (unmarshal o (token s)) as [e|l]; [done|]. by destruct (IsStream l).
Qed.

Lemma printedLines_cons s body :
  printedLines o (s :: body)
    = match unmarshal o (token s) with
      | inr l => if IsStream l then Stream l :: printedLines o body
                 else printedLines o body
      | inl _ => printedLines o body
      end.
Proof.
  unfold printedLines. simpl.
  destruct (unmarshal o (token s)) as [e|l]; [done|]. by destruct (IsStream l).
Qed.

(** The goroutine touches nothing but the console and the channel; it
    closes the channel exactly when every line parses. *)
Lemma consumeDockerStream_spec body :
  ∀ sent w,
    calls (consumeDockerStream o body sent w).1 = calls w ∧
    (forallb (parses o) body = true →
     (consumeDockerStream o body sent w).2
       = (sent ++ channelLines o body, true, None) ∧
     printed (consumeDockerStream o body sent w).1
       = printed w ++ printedLines o body) ∧
    (forallb (parses o) body = false →
     (consumeDockerStream o body sent w).2.1.2 = false).
Proof.
  induction body as [|s body IH]; intros sent w.
  - simpl. rewrite !app_nil_r. by repeat split.
  - cbn [consumeDockerStream forallb].
    rewrite channelLines_cons, printedLines_cons.
    unfold parses at 1 3.
    destruct (scanErr s) as [e|];
      [cbn [andb fst snd]; split; [done|]; split; [intros H; discriminate H|done]|].
    destruct (unmarshal o (token s)) as [e|l];
      [cbn [andb fst snd]; split; [done|]; split; [intros H; discriminate H|done]|].
    cbn [andb]. destruct (IsStream l).
    + destruct (IH sent (println (Stream l) w).1) as (Hc & Hok & Hbad).
      split; [by rewrite Hc|]. split; [|done].
      intros Hall. destruct (Hok Hall) as [-> ->]. split; [done|].
      cbn [println fst printed]. by rewrite <- app_assoc.
    + destruct (IH (sent ++ [l]) w) as (Hc & Hok & Hbad).
      split; [done|]. split; [|done].
      intros Hall. destruct (Hok Hall) as [-> ->]. split; [|done].
      by rewrite <- app_assoc.
Qed.

(** [buildImage] once the daemon has accepted the request. *)
Lemma buildImage_accepted config opts dir cwd body w :
  ImageBuildOpts config = Some opts →
  Cli config ≠ None →
  let pre := if decide (Cwd config = EmptyString) then [Getwd] else [] in
  (if decide (Cwd config = EmptyString) then getwd o (calls w)
   else inr (Cwd config)) = inr dir →
  absPath o (calls w ++ pre) dir = inr cwd →
  let id := ToLower (alphaWord o (calls w ++ pre ++ [Abs dir]) 6) in
  let passed := builtWith opts id cwd in
  imageBuild o (calls w ++ pre ++ [Abs dir; AlphaWord 6]) (TarDir cwd) passed
    = inr body →
  buildImage o config w =
    let '(w4, (lines, closed, _)) :=
      consumeDockerStream o body []
        {| calls := calls w ++ pre
                    ++ [Abs dir; AlphaWord 6; ImageBuild (TarDir cwd) passed];
           printed := printed w ++ ["building image from " +:+ cwd] |} in
    (w4, (Some passed,
          if closed then Val (lastAuxID id lines) else NeverReturns)).
Proof.
  intros Hopts Hcli pre Hdir Habs id passed Hbuild.
  assert (∃ w1, (if decide (Cwd config = EmptyString)
                 then call Getwd (getwd o) w
                 else (w, Val (Cwd config))) = (w1, Val dir) ∧
                calls w1 = calls w ++ pre ∧ printed w1 = printed w)
    as (w1 & Hstart & Hc1 & Hp1).
  { unfold pre. destruct (decide (Cwd config = EmptyString)).
    - unfold call. rewrite Hdir. by eexists.
    - inversion Hdir; subst. exists w. by rewrite app_nil_r. }
  unfold buildImage. rewrite Hstart, Hopts.
  unfold call at 1. rewrite Hc1, Hp1, Habs. cbn [println calls printed].
  unfold onCli. change (Cli (setCwd cwd config)) with (Cli config).
  destruct (Cli config) as [cl|]; [|done].
  unfold call at 1. cbn [calls printed].
  assert ((match Context (setBuildID
                            (ToLower (alphaWord o ((calls w ++ pre) ++ [Abs dir]) 6))
                            (setTags (Tags opts ++ [BuildID opts]) opts)) with
           | Some _ =>
               setBuildID (ToLower (alphaWord o ((calls w ++ pre) ++ [Abs dir]) 6))
                 (setTags (Tags opts ++ [BuildID opts]) opts)
           | None =>
               setContext (Some (loadContext (setCwd cwd config)))
                 (setBuildID
                    (ToLower (alphaWord o ((calls w ++ pre) ++ [Abs dir]) 6))
                    (setTags (Tags opts ++ [BuildID opts]) opts))
           end) = passed) as Hpassed.
  { unfold passed, builtWith, id. rewrite <- app_assoc.
    unfold loadContext. cbn [Cwd setCwd].
    by destruct opts as [? ? ? ? [r|]]. }
  rewrite Hpassed.
  change (loadContext (setCwd cwd config)) with (TarDir cwd).
  assert (((calls w ++ pre) ++ [Abs dir]) ++ [AlphaWord 6]
          = calls w ++ pre ++ [Abs dir; AlphaWord 6]) as Hh
    by (by rewrite <- !app_assoc).
  rewrite Hh, Hbuild.
  assert ((calls w ++ pre ++ [Abs dir; AlphaWord 6])
          ++ [ImageBuild (TarDir cwd) passed]
          = calls w ++ pre
            ++ [Abs dir; AlphaWord 6; ImageBuild (TarDir cwd) passed]) as Hh2
    by (by rewrite <- !app_assoc).
  rewrite Hh2.
  destruct (consumeDockerStream o body [] _) as [w4 [[lines closed] err]].
  destruct closed; [|done].
  cbn [cancelBuild dret]. unfold id. by rewrite <- app_assoc.
Qed.

(** The loop over the channel keeps the last image id that is not
    empty. *)
Lemma lastAuxID_last lines :
  ∀ imageTag,
    lastAuxID imageTag lines
      = match lastImageID lines with
        | Some id => id
        | None => imageTag
        end.
Proof.
  unfold lastAuxID, lastImageID.
  induction lines as [|l lines IH]; intros imageTag; [done|].
  cbn [foldl map]. rewrite IH. rewrite filter_cons.
  destruct (decide (Aux_ID l = EmptyString)) as [E|E].
  - by rewrite decide_False by (by intros H; apply H).
  - rewrite decide_True by done. rewrite last_cons.
    by destruct (last _).
Qed.

(** X16. [buildImage] reports nothing of what the build output says.  Once
    the daemon has accepted the request, the result is decided by the
    lines alone: if every line parses, [buildImage] returns without error
    the last image id that is not empty among the lines that are not
    output text, or else the fresh build id; if a line does not parse (or
    the scanner reports an error), the goroutine leaves without closing
    the channel and [buildImage] never returns.  The build is never
    cancelled.  The options the caller shares are left with the former build
    id appended to the tags, the fresh one in its place, and a context if
    there was none. *)
Theorem buildImage_is_decided_by_the_lines config opts dir cwd body w :
  ImageBuildOpts config = Some opts →
  Cli config ≠ None →
  let pre := if decide (Cwd config = EmptyString) then [Getwd] else [] in
  (if decide (Cwd config = EmptyString) then getwd o (calls w)
   else inr (Cwd config)) = inr dir →
  absPath o (calls w ++ pre) dir = inr cwd →
  let id := ToLower (alphaWord o (calls w ++ pre ++ [Abs dir]) 6) in
  let passed :=
    {| Tags := Tags opts ++ [BuildID opts];
       Dockerfile := Dockerfile opts;
       BuildID := id;
       NoCache := NoCache opts;
       Context := match Context opts with
                  | None => Some (TarDir cwd)
                  | Some r => Some r
                  end |} in
  imageBuild o (calls w ++ pre ++ [Abs dir; AlphaWord 6]) (TarDir cwd) passed
    = inr body →
  since w (buildImage o config w).1
    = pre ++ [Abs dir; AlphaWord 6; ImageBuild (TarDir cwd) passed] ∧
  (buildImage o config w).2.1 = Some passed ∧
  (buildImage o config w).2.2
    = (if forallb (parses o) body
       then Val match lastImageID (channelLines o body) with
                | Some image => image
                | None => id
                end
       else NeverReturns).
Proof.
  intros Hopts Hcli pre Hdir Habs id passed Hbuild.
  rewrite (buildImage_accepted config opts dir cwd body w Hopts Hcli Hdir Habs
             Hbuild).
  fold pre. fold id. change (builtWith opts id cwd) with passed.
  set (w3 := {| calls := _; printed := _ |}).
  destruct (consumeDockerStream_spec body [] w3) as (Hcalls & Hok & Hbad).
  destruct (consumeDockerStream o body [] w3) as [w4 [[lines closed] err]].
  cbn [fst snd] in *.
  split; [by apply since_app; rewrite Hcalls|]. split; [done|].
  destruct (forallb (parses o) body).
  - destruct (Hok eq_refl) as [Hres _]. inversion Hres; subst.
    by rewrite lastAuxID_last.
  - by rewrite (Hbad eq_refl).
Qed.
End BuildFacts.

Lemma buildImage_is_decided_by_the_lines_witness :
  let config := withClient (assembled [WithCwd "/src"; WithDockerfile "Dockerfile"]) in
  let opts := {| Tags := []; Dockerfile := "Dockerfile"; BuildID := EmptyString;
                 NoCache := false; Context := None |} in
  let pre := if decide (Cwd config = EmptyString) then [Getwd] else [] in
  let id := ToLower (alphaWord obliging (calls Dock0 ++ pre ++ [Abs "/src"]) 6) in
  let passed :=
    {| Tags := Tags opts ++ [BuildID opts];
       Dockerfile := Dockerfile opts;
       BuildID := id;
       NoCache := NoCache opts;
       Context := match Context opts with
                  | None => Some (TarDir "/src")
                  | Some r => Some r
                  end |} in
  let body := [ {| token := "stream:Step 1/2"; scanErr := None |};
                {| token := "aux:sha256:1"; scanErr := None |};
                {| token := "Pushing"; scanErr := None |};
                {| token := "aux:sha256:2"; scanErr := None |} ] in
  ImageBuildOpts config = Some opts ∧
  Cli config ≠ None ∧
  (if decide (Cwd config = EmptyString) then getwd obliging (calls Dock0)
   else inr (Cwd config)) = inr "/src" ∧
  absPath obliging (calls Dock0 ++ pre) "/src" = inr "/src" ∧
  imageBuild obliging (calls Dock0 ++ pre ++ [Abs "/src"; AlphaWord 6])
    (TarDir "/src") passed = inr body ∧
  buildImage obliging config Dock0
    = ({| calls := [Abs "/src"; AlphaWord 6;
                    ImageBuild (TarDir "/src")
                      {| Tags := [EmptyString]; Dockerfile := "Dockerfile";
                         BuildID := "qwerty"; NoCache := false;
                         Context := Some (TarDir "/src") |}];
          printed := ["building image from /src"; "Step 1/2"] |},
       (Some {| Tags := [EmptyString]; Dockerfile := "Dockerfile";
                BuildID := "qwerty"; NoCache := false;
                Context := Some (TarDir "/src") |},
        Val "sha256:2")) ∧
  (buildImage garbledBuild config Dock0).2.2 = NeverReturns ∧
  since Dock0 (buildImage obliging config Dock0).1
    = pre ++ [Abs "/src"; AlphaWord 6; ImageBuild (TarDir "/src") passed] ∧
  (buildImage obliging config Dock0).2.1 = Some passed ∧
  (buildImage obliging config Dock0).2.2
    = (if forallb (parses obliging) body
       then Val match lastImageID (channelLines obliging body) with
                | Some image => image
                | None => id
                end
       else NeverReturns).
Proof.
  cbv zeta. split; [reflexivity|]. split; [done|]. split; [reflexivity|].
  split; [reflexivity|]. split; [reflexivity|]. split; [reflexivity|].
  split; [reflexivity|].
  apply (buildImage_is_decided_by_the_lines obliging
           (withClient (assembled [WithCwd "/src"; WithDockerfile "Dockerfile"]))
           {| Tags := []; Dockerfile := "Dockerfile"; BuildID := EmptyString;
              NoCache := false; Context := None |}
           "/src" "/src"
           [ {| token := "stream:Step 1/2"; scanErr := None |};
             {| token := "aux:sha256:1"; scanErr := None |};
             {| token := "Pushing"; scanErr := None |};
             {| token := "aux:sha256:2"; scanErr := None |} ]
           Dock0).
  - reflexivity.
  - done.
  - reflexivity.
  - reflexivity.
  - reflexivity.
Defined.

Section CleanupFacts.
Variable o : Outside.

(** Removals that succeed are gone through. *)
Lemma removeEach_through config pre rest :
  Cli config ≠ None →
  (∀ h image, image ∈ pre → imageRemove o h image = None) →
  ∀ w, removeEach o config (pre ++ rest) w
       = removeEach o config rest
           {| calls := calls w ++ map ImageRemove pre;
              printed := printed w ++ map (λ image, "removing image " +:+ image) pre |}.
Proof.
  intros Hcli Hok. induction pre as [|image pre IH]; intros w.
  - simpl. rewrite !app_nil_r. by destruct w.
  - simpl. unfold dbind at 1 2. unfold println at 1, onCli at 1, call_ at 1.
    destruct (Cli config) as [cl|] eqn:Ecl; [|done]. cbn [calls printed].
    rewrite (Hok _ image) by set_solver.
    rewrite IH by (intros ???; apply Hok; set_solver).
    cbn [calls printed]. by rewrite <- !app_assoc.
Qed.

(** X17. The closure of [CleanupImage], for a container with an image,
    lists the images once, with one [reference] filter for that image and
    one [label] filter per image tag, in this order.  It then removes the
    images listed one by one in the order of the list.  If every removal
    succeeds it returns [nil]; at the first removal that fails it stops and
    returns that error: the images behind it are neither announced nor
    removed. *)
Theorem CleanupImage_stops_at_the_first_failure config c pre w :
  Cli config ≠ None →
  ContainerConfig config = Some c →
  Image c ≠ EmptyString →
  (∀ h image, image ∈ pre → imageRemove o h image = None) →
  let filters :=
    ("reference", Image c) :: map (λ tag, ("label", tag)) (ImageTags config) in
  (imageList o (calls w) filters = inr pre →
   removeImagesRunner o config w
     = ({| calls := calls w ++ ImageList filters :: map ImageRemove pre;
           printed := printed w
                      ++ ("removing images " +:+ pretty (length pre))
                         :: map (λ image, "removing image " +:+ image) pre |},
        Val ())) ∧
  (∀ image post e,
     imageList o (calls w) filters = inr (pre ++ image :: post) →
     (∀ h, imageRemove o h image = Some e) →
     removeImagesRunner o config w
       = ({| calls := calls w
                      ++ ImageList filters :: map ImageRemove (pre ++ [image]);
             printed := printed w
                        ++ ("removing images "
                            +:+ pretty (length (pre ++ image :: post)))
                           :: map (λ image, "removing image " +:+ image)
                                (pre ++ [image]) |},
          Err e)).
Proof.
  intros Hcli Hcc Himg Hok filters.
  assert (imageFilters config = filters) as Hf.
  { unfold imageFilters, filters. rewrite Hcc. by rewrite decide_False. }
  assert (∀ list, imageList o (calls w) filters = inr list →
            removeImagesRunner o config w
            = removeEach o config list
                {| calls := calls w ++ [ImageList filters];
                   printed := printed w
                              ++ ["removing images " +:+ pretty (length list)] |})
    as Hrun.
  { intros list Hlist. unfold removeImagesRunner, dbind, onCli, call, println.
    rewrite Hf. destruct (Cli config); [|done]. by rewrite Hlist. }
  split.
  - intros Hlist. rewrite (Hrun pre Hlist).
    rewrite <- (app_nil_r pre) at 1.
    rewrite (removeEach_through config pre [] Hcli Hok).
    cbn [removeEach dret calls printed]. by rewrite <- !app_assoc.
  - intros image post e Hlist Hfail. rewrite (Hrun _ Hlist).
    rewrite (removeEach_through config pre (image :: post) Hcli Hok).
    cbn [removeEach]. unfold dbind, println, onCli, call_.
    destruct (Cli config); [|done]. cbn [calls printed]. rewrite Hfail.
    rewrite !map_app. cbn [map]. by rewrite <- !app_assoc.
Qed.
End CleanupFacts.

Lemma CleanupImage_stops_at_the_first_failure_witness :
  let config :=
    withClient (assembled [WithConfig (setImageTags ["v1"; "v2"] Config0);
                           WithImage "alpine"]) in
  let c := {| Image := "alpine"; Cmd := []; Env := [] |} in
  let filters :=
    ("reference", Image c) :: map (λ tag, ("label", tag)) (ImageTags config) in
  Cli config ≠ None ∧
  ContainerConfig config = Some c ∧
  Image c ≠ EmptyString ∧
  (∀ h image, image ∈ ["img1"] → imageRemove imageInUse h image = None) ∧
  removeImagesRunner imageInUse config Dock0
    = ({| calls := [ImageList [("reference", "alpine"); ("label", "v1");
                               ("label", "v2")];
                    ImageRemove "img1"; ImageRemove "img2"];
          printed := ["removing images 3"; "removing image img1";
                      "removing image img2"] |},
       Err (errorString "image is in use")) ∧
  (imageList imageInUse (calls Dock0) filters = inr ["img1"] →
   removeImagesRunner imageInUse config Dock0
     = ({| calls := calls Dock0 ++ ImageList filters :: map ImageRemove ["img1"];
           printed := printed Dock0
                      ++ ("removing images " +:+ pretty (length ["img1"]))
                         :: map (λ image, "removing image " +:+ image) ["img1"] |},
        Val ())) ∧
  (∀ image post e,
     imageList imageInUse (calls Dock0) filters = inr (["img1"] ++ image :: post) →
     (∀ h, imageRemove imageInUse h image = Some e) →
     removeImagesRunner imageInUse config Dock0
       = ({| calls := calls Dock0
                      ++ ImageList filters
                         :: map ImageRemove (["img1"] ++ [image]);
             printed := printed Dock0
                        ++ ("removing images "
                            +:+ pretty (length (["img1"] ++ image :: post)))
                           :: map (λ image, "removing image " +:+ image)
                                (["img1"] ++ [image]) |},
          Err e)).
Proof.
  cbv zeta.
  assert (∀ (h : list Event) (image : string),
            image ∈ ["img1"] → imageRemove imageInUse h image = None) as Hok.
  { intros h image Hin. apply list_elem_of_singleton in Hin. by subst image. }
  split; [done|]. split; [reflexivity|]. split; [done|]. split; [exact Hok|].
  split; [vm_compute; reflexivity|].
  apply (CleanupImage_stops_at_the_first_failure imageInUse
           (withClient (assembled [WithConfig (setImageTags ["v1"; "v2"] Config0);
                                   WithImage "alpine"]))
           {| Image := "alpine"; Cmd := []; Env := [] |} ["img1"] Dock0).
  - done.
  - reflexivity.
  - done.
  - exact Hok.
Defined.

Section OptionFacts.

(** X18. Later options can discard earlier ones.  [WithConfig] throws away
    whatever the options before it assembled; and [WithImage], as long as
    no container exists, replaces the container configuration by an empty
    one that holds only the image, so that a command or an environment
    configured before it is lost. *)
Theorem later_options_discard_earlier_ones pre cfg :
  applyOpts pre Config0 = Val cfg →
  (∀ config post,
     applyOpts (pre ++ WithConfig config :: post) Config0 = applyOpts post config) ∧
  (∀ image post,
     Container cfg = None →
     applyOpts (pre ++ WithImage image :: post) Config0
       = applyOpts post
           (setContainerConfig
              (Some {| Image := image; Cmd := []; Env := [] |}) cfg)).
Proof.
  intros Hpre. split.
  - intros config post. by rewrite (applyOpts_app pre _ Config0 cfg Hpre).
  - intros image post Hc. rewrite (applyOpts_app pre _ Config0 cfg Hpre).
    simpl. unfold WithImage. by rewrite Hc.
Qed.
End OptionFacts.

Lemma later_options_discard_earlier_ones_witness :
  let configured :=
    setContainerConfig
      (Some {| Image := "debian"; Cmd := ["make"; "test"]; Env := ["CI=1"] |})
      Config0 in
  let pre := [WithCwd "/src"; WithConfig configured] in
  applyOpts pre Config0 = Val configured ∧
  (∀ config post,
     applyOpts (pre ++ WithConfig config :: post) Config0 = applyOpts post config) ∧
  (∀ image post,
     Container configured = None →
     applyOpts (pre ++ WithImage image :: post) Config0
       = applyOpts post
           (setContainerConfig
              (Some {| Image := image; Cmd := []; Env := [] |}) configured)).
Proof.
  cbv zeta. split; [reflexivity|].
  apply (later_options_discard_earlier_ones
           [WithCwd "/src";
            WithConfig
              (setContainerConfig
                 (Some {| Image := "debian"; Cmd := ["make"; "test"];
                          Env := ["CI=1"] |}) Config0)]
           (setContainerConfig
              (Some {| Image := "debian"; Cmd := ["make"; "test"];
                       Env := ["CI=1"] |}) Config0)).
  reflexivity.
Defined.

Section BuildAndRun.
Variable o : Outside.

Lemma withClient_more config :
  Cwd (withClient config) = Cwd config ∧
  Host (withClient config) = Host config ∧
  Network (withClient config) = Network config ∧
  Platform (withClient config) = Platform config ∧
  cfg_Name (withClient config) = cfg_Name config.
Proof. unfold withClient. by destruct (Ctx config). Qed.

(** X19. When everything succeeds, [Run] with build options builds the
    image from the absolute working directory, then creates the container
    from the image that was built, whatever image the caller had
    configured, runs it as for a pulled image, and returns [nil].  The
    runners are handed a [Config] whose container image and last image tag
    are the tag of the build and whose build options are those the build
    was made with; its [Cwd] is still the one of the caller. *)
Theorem Run_builds_and_runs_the_built_image
    opts config bo wd absf word body c execs afters w :
  applyOpts opts Config0 = Val config →
  ImageBuildOpts config = Some bo →
  execRunners config = map callerRunner execs →
  afterRunners config = map callerRunner afters →
  newClient o (calls w) (clientOptions config) = None →
  (∀ h, getwd o h = inr wd) →
  (∀ h p, absPath o h p = inr (absf p)) →
  (∀ h n, alphaWord o h n = word) →
  (∀ h r options, imageBuild o h r options = inr body) →
  forallb (parses o) body = true →
  (∀ h cc host net plat name, containerCreate o h cc host net plat name = inr c) →
  (∀ h id, containerStart o h id = None) →
  (∀ h id, containerStop o h id = None) →
  (∀ h id cfg, runs o h id cfg = Val ()) →
  let pre := if decide (Cwd config = EmptyString) then [Getwd] else [] in
  let dir := if decide (Cwd config = EmptyString) then wd else Cwd config in
  let cwd := absf dir in
  let tag := lastAuxID (ToLower word) (channelLines o body) in
  let passed := builtWith bo (ToLower word) cwd in
  let image :=
    setImage tag match ContainerConfig config with
                 | None => container_Config0
                 | Some cc => cc
                 end in
  let cfg :=
    setImageTags (ImageTags config ++ [tag])
      (setContainerConfig (Some image)
         (setImageBuildOpts (Some passed) (withClient config))) in
  let cfg' := setContainer (Some c) cfg in
  (Run o opts w).2 = Val () ∧
  since w (Run o opts w).1
    = [NewClientWithOpts (clientOptions config)]
      ++ pre
      ++ [Abs dir; AlphaWord 6; ImageBuild (TarDir cwd) passed;
          ContainerCreate (Some image) (Host config) (Network config)
            (Platform config) (cfg_Name config);
          ContainerStart (ID c)]
      ++ map (λ id, Runs id cfg') execs
      ++ [ContainerStop (ID c)]
      ++ map (λ id, Runs id cfg') afters
      ++ [ClientClose] ∧
  Cwd cfg' = Cwd config.
Proof.
  intros Hopts Hbuild Hexec Hafter Hcli Hwd Habs Hword Himg Hparse Hcreate
    Hstart Hstop Hruns pre dir cwd tag passed image cfg cfg'.
  rewrite (Run_client o opts config w Hopts), Hcli.
  set (w1 := {| calls := _; printed := _ |}).
  destruct (withClient_fields config) as (Hb & Hccw & Hp & Hc & He & Htags & Hcl).
  destruct (withClient_more config) as (Hcwd & Hh & Hn & Hpl & Hnm).
  assert (Cli (withClient config) ≠ None) as Hclne by (by rewrite Hcl).
  assert (∃ w4, runBody o (withClient config) w1 = (w4, (cfg', Val ())) ∧
                calls w4 = calls w1 ++ pre
                           ++ [Abs dir; AlphaWord 6; ImageBuild (TarDir cwd) passed;
                               ContainerCreate (Some image) (Host config)
                                 (Network config) (Platform config)
                                 (cfg_Name config);
                               ContainerStart (ID c)]
                           ++ map (λ id, Runs id cfg') execs
                           ++ [ContainerStop (ID c)]) as (w4 & Hrun & Hcalls).
  { unfold runBody. rewrite Hb, Hbuild.
    rewrite (buildImage_accepted o (withClient config) bo dir cwd body w1);
      [|by rewrite Hb|done|
       rewrite Hcwd; unfold dir; by destruct (decide _); rewrite ?Hwd|
       by rewrite Habs|by rewrite Himg].
    rewrite Hcwd, Hword. fold pre. fold passed.
    set (w3 := {| calls := _; printed := _ |}).
    destruct (consumeDockerStream_spec o body [] w3) as (Hc3 & Hok & _).
    destruct (Hok Hparse) as [Hres _].
    destruct (consumeDockerStream o body [] w3) as [w5 [[lines closed] err]].
    cbn [fst snd] in Hc3, Hres. inversion Hres; subst lines closed err.
    cbn [app]. fold tag.
    assert (setImageTags
              (ImageTags
                 match
                   ContainerConfig
                     match
                       ContainerConfig
                         (setImageBuildOpts (Some passed) (withClient config))
                     with
                     | Some _ => setImageBuildOpts (Some passed) (withClient config)
                     | None =>
                         setContainerConfig (Some container_Config0)
                           (setImageBuildOpts (Some passed) (withClient config))
                     end
                 with
                 | Some c1 =>
                     setContainerConfig (Some (setImage tag c1))
                       match
                         ContainerConfig
                           (setImageBuildOpts (Some passed) (withClient config))
                       with
                       | Some _ =>
                           setImageBuildOpts (Some passed) (withClient config)
                       | None =>
                           setContainerConfig (Some container_Config0)
                             (setImageBuildOpts (Some passed) (withClient config))
                       end
                 | None =>
                     match
                       ContainerConfig
                         (setImageBuildOpts (Some passed) (withClient config))
                     with
                     | Some _ =>
                         setImageBuildOpts (Some passed) (withClient config)
                     | None =>
                         setContainerConfig (Some container_Config0)
                           (setImageBuildOpts (Some passed) (withClient config))
                     end
                 end ++ [tag])
              match
                ContainerConfig
                  match
                    ContainerConfig
                      (setImageBuildOpts (Some passed) (withClient config))
                  with
                  | Some _ => setImageBuildOpts (Some passed) (withClient config)
                  | None =>
                      setContainerConfig (Some container_Config0)
                        (setImageBuildOpts (Some passed) (withClient config))
                  end
              with
              | Some c1 =>
                  setContainerConfig (Some (setImage tag c1))
                    match
                      ContainerConfig
                        (setImageBuildOpts (Some passed) (withClient config))
                    with
                    | Some _ =>
                        setImageBuildOpts (Some passed) (withClient config)
                    | None =>
                        setContainerConfig (Some container_Config0)
                          (setImageBuildOpts (Some passed) (withClient config))
                    end
              | None =>
                  match
                    ContainerConfig
                      (setImageBuildOpts (Some passed) (withClient config))
                  with
                  | Some _ => setImageBuildOpts (Some passed) (withClient config)
                  | None =>
                      setContainerConfig (Some container_Config0)
                        (setImageBuildOpts (Some passed) (withClient config))
                  end
              end = cfg) as Hcfg.
    { unfold cfg, image. rewrite <- Htags, <- Hccw.
      generalize (withClient config).
      intros [? ? ? ? ? cc ? ? ? ? ? ? ? ? ? ?]. by destruct cc. }
    rewrite Hcfg.
    assert (Cli cfg ≠ None) as Hclc by exact Hclne.
    rewrite (execContainer_started o cfg c w5 Hclc (Hcreate _ _ _ _ _ _)
               (Hstart _ _)).
    cbv zeta. fold cfg'.
    assert (execRunners cfg = map callerRunner execs) as Hex
      by (by change (execRunners cfg) with (execRunners (withClient config));
             rewrite He).
    rewrite Hex, (runRunners_all_nil o execs cfg' Hruns), Hstop.
    eexists. split; [reflexivity|]. cbn [calls]. rewrite Hc3.
    unfold w3. cbn [calls].
    assert (ContainerConfig cfg = Some image) as -> by done.
    change (Host cfg) with (Host (withClient config)).
    change (Network cfg) with (Network (withClient config)).
    change (Platform cfg) with (Platform (withClient config)).
    change (cfg_Name cfg) with (cfg_Name (withClient config)).
    rewrite Hh, Hn, Hpl, Hnm.
    by rewrite <- !app_assoc. }
  assert (afterRunners cfg' = map callerRunner afters) as Haft
    by (by change (afterRunners cfg') with (afterRunners (withClient config));
           rewrite afterRunners_withClient).
  assert (afterwards o (runBody o (withClient config)) w1
          = ({| calls := calls w4 ++ map (λ id, Runs id cfg') afters;
                printed := printed w4 |}, Val ())) as Hafterwards.
  { unfold afterwards. rewrite Hrun, Haft.
    destruct afters as [|a afters']; [simpl; rewrite app_nil_r; by destruct w4|].
    change (callerRunner a :: map callerRunner afters')
      with (map callerRunner (a :: afters')).
    by rewrite (runRunners_all_nil o (a :: afters') cfg' Hruns). }
  unfold ddefer. rewrite Hafterwards. unfold call_. cbn [fst snd calls printed].
  split; [done|]. split; [|exact Hcwd].
  apply since_app. rewrite Hcalls. unfold w1. cbn [calls].
  by rewrite <- !app_assoc.
Qed.
End BuildAndRun.

Lemma Run_builds_and_runs_the_built_image_witness :
  let opts := [WithImage "debian"; WithDockerfile "Dockerfile";
               Exec [callerRunner 1]; After [callerRunner 2]] in
  let config := assembled opts in
  let bo := {| Tags := []; Dockerfile := "Dockerfile"; BuildID := EmptyString;
               NoCache := false; Context := None |} in
  let body := [ {| token := "stream:Step 1/2"; scanErr := None |};
                {| token := "aux:sha256:1"; scanErr := None |};
                {| token := "Pushing"; scanErr := None |};
                {| token := "aux:sha256:2"; scanErr := None |} ] in
  let c := {| ID := "c0ffee"; Warnings := [] |} in
  let pre := if decide (Cwd config = EmptyString) then [Getwd] else [] in
  let dir := if decide (Cwd config = EmptyString) then "/work" else Cwd config in
  let cwd := dir in
  let tag := lastAuxID (ToLower "QwErTy") (channelLines obliging body) in
  let passed := builtWith bo (ToLower "QwErTy") cwd in
  let image :=
    setImage tag match ContainerConfig config with
                 | None => container_Config0
                 | Some cc => cc
                 end in
  let cfg :=
    setImageTags (ImageTags config ++ [tag])
      (setContainerConfig (Some image)
         (setImageBuildOpts (Some passed) (withClient config))) in
  let cfg' := setContainer (Some c) cfg in
  applyOpts opts Config0 = Val config ∧
  ImageBuildOpts config = Some bo ∧
  execRunners config = map callerRunner [1] ∧
  afterRunners config = map callerRunner [2] ∧
  newClient obliging (calls Dock0) (clientOptions config) = None ∧
  (∀ h, getwd obliging h = inr "/work") ∧
  (∀ h p, absPath obliging h p = inr p) ∧
  (∀ h n, alphaWord obliging h n = "QwErTy") ∧
  (∀ h r options, imageBuild obliging h r options = inr body) ∧
  forallb (parses obliging) body = true ∧
  (∀ h cc host net plat name,
     containerCreate obliging h cc host net plat name = inr c) ∧
  (∀ h id, containerStart obliging h id = None) ∧
  (∀ h id, containerStop obliging h id = None) ∧
  (∀ h id cfg, runs obliging h id cfg = Val ()) ∧
  tag = "sha256:2" ∧
  (Run obliging opts Dock0).2 = Val () ∧
  since Dock0 (Run obliging opts Dock0).1
    = [NewClientWithOpts (clientOptions config)]
      ++ pre
      ++ [Abs dir; AlphaWord 6; ImageBuild (TarDir cwd) passed;
          ContainerCreate (Some image) (Host config) (Network config)
            (Platform config) (cfg_Name config);
          ContainerStart (ID c)]
      ++ map (λ id, Runs id cfg') [1]
      ++ [ContainerStop (ID c)]
      ++ map (λ id, Runs id cfg') [2]
      ++ [ClientClose] ∧
  Cwd cfg' = Cwd config.
Proof.
  cbv zeta. split; [reflexivity|]. split; [reflexivity|]. split; [reflexivity|].
  split; [reflexivity|]. split; [reflexivity|]. split; [done|]. split; [done|].
  split; [done|]. split; [done|]. split; [reflexivity|]. split; [done|].
  split; [done|]. split; [done|]. split; [done|]. split; [reflexivity|].
  apply (Run_builds_and_runs_the_built_image obliging
           [WithImage "debian"; WithDockerfile "Dockerfile";
            Exec [callerRunner 1]; After [callerRunner 2]]
           (assembled [WithImage "debian"; WithDockerfile "Dockerfile";
                       Exec [callerRunner 1]; After [callerRunner 2]])
           {| Tags := []; Dockerfile := "Dockerfile"; BuildID := EmptyString;
              NoCache := false; Context := None |}
           "/work" (λ p, p) "QwErTy"
           [ {| token := "stream:Step 1/2"; scanErr := None |};
             {| token := "aux:sha256:1"; scanErr := None |};
             {| token := "Pushing"; scanErr := None |};
             {| token := "aux:sha256:2"; scanErr := None |} ]
           {| ID := "c0ffee"; Warnings := [] |} [1] [2] Dock0).
  - reflexivity.
  - reflexivity.
  - reflexivity.
  - reflexivity.
  - reflexivity.
  - done.
  - done.
  - done.
  - done.
  - reflexivity.
  - done.
  - done.
  - done.
  - done.
Defined.

Section FailedStart.
Variable o : Outside.

(** X20. A container that does not start is not stopped, and with
    [CleanupContainer] as the only after-runner the failure is lost: the
    container is removed, the client closed, and [Run] returns [nil],
    because the result of the after-runner replaces the error of the
    start. *)
Theorem failed_start_is_lost_after_cleanup opts config c0 c e w :
  applyOpts opts Config0 = Val config →
  ImageBuildOpts config = None →
  ContainerConfig config = Some c0 →
  Image c0 ≠ EmptyString →
  afterRunners config = [removeContainer] →
  newClient o (calls w) (clientOptions config) = None →
  (∀ h ref options, ∃ body, imagePull o h ref options = inr body ∧
                            pullErr body = None) →
  (∀ h cc host net plat name, containerCreate o h cc host net plat name = inr c) →
  (∀ h id, containerStart o h id = Some e) →
  (∀ h id, containerRemove o h id = None) →
  (Run o opts w).2 = Val () ∧
  since w (Run o opts w).1
    = [NewClientWithOpts (clientOptions config);
       ImagePull (Image c0) match ImagePullOpts config with
                            | None => ImagePullOptions0
                            | Some options => options
                            end;
       ContainerCreate (Some c0) (Host config) (Network config)
         (Platform config) (cfg_Name config);
       ContainerStart (ID c);
       ContainerRemove (ID c);
       ClientClose].
Proof.
  intros Hopts Hbuild Hcc Himg Hafter Hcli Hpull Hcreate Hstart Hremove.
  rewrite (Run_client o opts config w Hopts), Hcli.
  set (w1 := {| calls := _; printed := _ |}).
  destruct (withClient_fields config) as (Hb & Hccw & Hp & Hc & He & _ & Hcl).
  destruct (withClient_more config) as (_ & Hh & Hn & Hpl & Hnm).
  set (cfg := withClient config) in *.
  set (cfg' := setContainer (Some c) cfg).
  destruct (Hpull (calls w1) (Image c0)
              match ImagePullOpts config with
              | None => ImagePullOptions0
              | Some options => options
              end) as (body & Hbody & Hperr).
  assert (Cli cfg ≠ None) as Hclne by (by rewrite Hcl).
  assert (∃ w4, runBody o cfg w1 = (w4, (cfg', Err e)) ∧
                calls w4 = calls w1
                           ++ [ImagePull (Image c0)
                                 match ImagePullOpts config with
                                 | None => ImagePullOptions0
                                 | Some options => options
                                 end;
                               ContainerCreate (Some c0) (Host config)
                                 (Network config) (Platform config)
                                 (cfg_Name config);
                               ContainerStart (ID c)]) as (w4 & Hrun & Hcalls).
  { unfold runBody. rewrite Hb, Hbuild, Hccw, Hcc.
    rewrite decide_False by done.
    rewrite (pullImage_answered o cfg c0 body w1 Hclne); [|by rewrite Hccw|done|
      by rewrite Hp].
    rewrite Hperr, Hp.
    set (w2 := {| calls := _; printed := _ |}).
    unfold execContainer. cbn [println]. unfold onCli at 1.
    destruct (Cli cfg) as [cl|] eqn:Ecl; [|done].
    unfold call at 1. cbn [calls printed]. rewrite Hcreate.
    unfold onCli at 1. cbn [Cli setContainer]. rewrite Ecl.
    unfold call_ at 1. cbn [calls printed]. rewrite Hstart.
    eexists. split; [reflexivity|]. cbn [calls].
    rewrite Hccw, Hcc, Hh, Hn, Hpl, Hnm. unfold w2. cbn [calls].
    by rewrite <- !app_assoc. }
  assert (afterwards o (runBody o cfg) w1
          = ({| calls := calls w4 ++ [ContainerRemove (ID c)];
                printed := printed w4 ++ ["removing container"] |}, Val ()))
    as Hafterwards.
  { unfold afterwards. rewrite Hrun.
    change (afterRunners cfg') with (afterRunners cfg). unfold cfg.
    rewrite afterRunners_withClient, Hafter. fold cfg.
    cbn [runRunners]. unfold dbind, runRunner, removeContainerRunner, dbind,
      println, onCli, call_.
    change (Container cfg') with (Some c).
    change (Cli cfg') with (Cli cfg).
    destruct (Cli cfg); [|done]. cbn [calls printed]. by rewrite Hremove. }
  unfold ddefer. rewrite Hafterwards. unfold call_. cbn [fst snd calls printed].
  split; [done|]. apply since_app. rewrite Hcalls. unfold w1. cbn [calls].
  by rewrite <- !app_assoc.
Qed.
End FailedStart.

Lemma failed_start_is_lost_after_cleanup_witness :
  let o := {| newClient := λ _ _, None;
              getwd := λ _, inr "/work";
              absPath := λ _ p, inr p;
              alphaWord := λ _ _, "QwErTy";
              imageBuild := λ _ _ _, inr [];
              unmarshal := sampleUnmarshal;
              buildCancel := λ _ _, None;
              imagePull := λ _ _ _, inr {| pulled := "latest"; pullErr := None |};
              containerCreate := λ _ _ _ _ _ _,
                inr {| ID := "c0ffee"; Warnings := [] |};
              containerStart := λ _ _, Some (errorString "port is already allocated");
              containerStop := λ _ _, None;
              containerRemove := λ _ _, None;
              imageList := λ _ _, inr [];
              imageRemove := λ _ _, None;
              runs := λ _ _ _, Val () |} in
  let opts := [WithImage "alpine"; CleanupContainer] in
  let config := assembled opts in
  let c0 := {| Image := "alpine"; Cmd := []; Env := [] |} in
  let c := {| ID := "c0ffee"; Warnings := [] |} in
  applyOpts opts Config0 = Val config ∧
  ImageBuildOpts config = None ∧
  ContainerConfig config = Some c0 ∧
  Image c0 ≠ EmptyString ∧
  afterRunners config = [removeContainer] ∧
  newClient o (calls Dock0) (clientOptions config) = None ∧
  (∀ h ref options, ∃ body, imagePull o h ref options = inr body ∧
                            pullErr body = None) ∧
  (∀ h cc host net plat name, containerCreate o h cc host net plat name = inr c) ∧
  (∀ h id, containerStart o h id = Some (errorString "port is already allocated")) ∧
  (∀ h id, containerRemove o h id = None) ∧
  (Run o opts Dock0).2 = Val () ∧
  since Dock0 (Run o opts Dock0).1
    = [NewClientWithOpts (clientOptions config);
       ImagePull (Image c0) match ImagePullOpts config with
                            | None => ImagePullOptions0
                            | Some options => options
                            end;
       ContainerCreate (Some c0) (Host config) (Network config)
         (Platform config) (cfg_Name config);
       ContainerStart (ID c);
       ContainerRemove (ID c);
       ClientClose].
Proof.
  cbv zeta.
  set (o := {| newClient := _; getwd := _; absPath := _; alphaWord := _;
               imageBuild := _; unmarshal := _; buildCancel := _;
               imagePull := _; containerCreate := _; containerStart := _;
               containerStop := _; containerRemove := _; imageList := _;
               imageRemove := _; runs := _ |}).
  assert (∀ (h : list Event) (ref : string) (options : ImagePullOptions),
            ∃ body, imagePull o h ref options = inr body ∧
                    pullErr body = None) as Hpull
    by (intros; by eexists).
  split; [reflexivity|]. split; [reflexivity|]. split; [reflexivity|].
  split; [done|]. split; [reflexivity|]. split; [reflexivity|].
  split; [exact Hpull|]. split; [done|]. split; [done|]. split; [done|].
  apply (failed_start_is_lost_after_cleanup o
           [WithImage "alpine"; CleanupContainer]
           (assembled [WithImage "alpine"; CleanupContainer])
           {| Image := "alpine"; Cmd := []; Env := [] |}
           {| ID := "c0ffee"; Warnings := [] |}
           (errorString "port is already allocated") Dock0).
  - reflexivity.
  - reflexivity.
  - reflexivity.
  - done.
  - reflexivity.
  - reflexivity.
  - exact Hpull.
  - done.
  - done.
  - done.
Defined.

(** * The archive and later changes of the tree *)

Section ClaimsOnTheArchive.
Variable formatHeader : Header → error + list chunk.

(** The loop writes, in order, the entries of the paths before the first
    that cannot be written, and of that one at most a part. *)
Lemma rangeQueue_written t q :
  ∀ w w' o, idle w → rangeQueue formatHeader t q w = (w', o) →
    ∃ es partial,
      entries w' = entries w ++ es ++ partial ∧
      map Some es = map (entryOf (fs t)) (writtenPaths formatHeader (fs t) q) ∧
      length partial ≤ 1 ∧
      (o = Returned → partial = []).
Proof.
  induction q as [|f q IH]; intros w w' o Hidle H; simpl in H.
  - inversion H; subst. exists [], []. rewrite !app_nil_r.
    split; [done|]. split; [done|]. split; [simpl; lia|done].
  - destruct (writeFile _ _ _ _) as [w1 r] eqn:EW.
    pose proof (idle_Println ("writing file to tar " +:+ f) w Hidle) as Hidle0.
    pose proof (writeFile_spec formatHeader t f _ w1 r Hidle0 EW) as Hspec.
    pose proof (writeFile_idle formatHeader t f _ w1 r Hidle0 EW) as [_ Hent].
    unfold writtenPaths. cbn [takeWhile].
    destruct (writeFileOutcome formatHeader (fs t) f) as [e|].
    + subst r. inversion H; subst; clear H. cbn [entries Println] in Hent.
      destruct Hent as [->|(h & d & -> & _)].
      * exists [], []. rewrite !app_nil_r.
        split; [done|]. split; [done|]. split; [simpl; lia|done].
      * exists [], [(h, d)].
        split; [done|]. split; [done|]. split; [simpl; lia|done].
    + destruct Hspec as (-> & Hidle1 & e0 & b & He0 & Hent1 & _).
      cbn [entries Println] in Hent1.
      destruct (IH w1 w' o Hidle1 H) as (es & partial & Hes & Hmap & Hlen & Hret).
      exists (e0 :: es), partial. split; [|split; [|done]].
      * rewrite Hes, Hent1. by rewrite <- !app_assoc.
      * cbn [map]. rewrite He0. f_equal. exact Hmap.
Qed.

Lemma firstRun_written dir q w o :
  firstRun formatHeader dir q = (w, o) →
  map Some (take (length (writtenPaths formatHeader dir q)) (entries w))
    = map (entryOf dir) (writtenPaths formatHeader dir q) ∧
  length (entries w) ≤ length (writtenPaths formatHeader dir q) + 1.
Proof.
  intros Hrun. unfold firstRun, writeQueue in Hrun. cbn [queue failedReader] in Hrun.
  destruct (rangeQueue formatHeader (failedReader dir q) q World0)
    as [w1 o1] eqn:Eq.
  destruct (rangeQueue_written _ q World0 w1 o1 idle_World0 Eq)
    as (es & partial & Hes & Hmap & Hlen & Hret).
  cbn [fs failedReader entries World0 app] in Hes, Hmap.
  assert (length es = length (writtenPaths formatHeader dir q)) as Hk
    by (by rewrite <- (length_map Some es), Hmap, length_map).
  assert (entries w = entries w1) as Hw.
  { destruct o1 as [|e]; [|by inversion Hrun].
    destruct (rangeQueue_spec formatHeader _ q World0 w1 Returned idle_World0 Eq)
      as [_ Hidle]. destruct (Hidle eq_refl) as [Hidle1 _].
    rewrite (Close_idle w1 Hidle1) in Hrun. simpl in Hrun.
    by inversion Hrun; subst. }
  rewrite Hw, Hes, <- Hk. split.
  - by rewrite take_app_length.
  - rewrite length_app. lia.
Qed.

(** C3, as the code has it.  On a tree that can be walked, the queue built
    by [init] is the pre-order walk of the tree as [init] found it, whatever
    [Open] answers later, and reading never changes it.  The entries of the
    archive follow the queue, but which of them appear is decided when the
    goroutine opens the files: the goroutine ends as [queueOutcome] says,
    the archive holds in order the entries of the paths before the first
    one that cannot be written, at most a part of that one, and nothing
    of the paths behind it; it holds the entries of the whole queue exactly
    when every path can be written. *)
Theorem archive_follows_the_walk dir d :
  fs_root dir = inr d → readable d = true →
  let q := nonDirectories "." d in
  let full := writtenPaths formatHeader dir q in
  ∃ t w,
    init formatHeader (NewTarDirReader dir) = (t, None) ∧
    queue t = q ∧
    (∀ later,
       queue (init formatHeader
                (NewTarDirReader {| fs_root := fs_root dir; fs_open := later |})).1
         = q) ∧
    goroutine t = Some (w, queueOutcome formatHeader dir q) ∧
    archiveEntries formatHeader dir = entries w ∧
    map Some (take (length full) (entries w)) = map (entryOf dir) full ∧
    length (entries w) ≤ length full + 1 ∧
    map (λ e, Name e.1) (entries w) = map Base (take (length (entries w)) q) ∧
    (queueOutcome formatHeader dir q = Returned ↔ full = q) ∧
    (full = q → map Some (entries w) = map (entryOf dir) q) ∧
    (∀ sizes got t', readAll formatHeader t sizes = (got, StillOpen t') →
       queue t' = q ∧ goroutine t' = goroutine t).
Proof.
  intros Hroot Hr q full.
  pose proof (init_readable formatHeader dir d Hroot Hr) as Hinit. fold q in Hinit.
  destruct (firstRun formatHeader dir q) as [w o] eqn:Erun.
  destruct (firstRun_names formatHeader dir _ w o Erun) as [Hnames _].
  destruct (firstRun_written dir q w o Erun) as [Hdone Hlen].
  destruct (firstRun_spec formatHeader dir q w o Erun) as [Ho _].
  assert (queueOutcome formatHeader dir q = Returned ↔ full = q) as Hiff.
  { unfold full, writtenPaths. clear. induction q as [|f q IH]; [done|].
    simpl. destruct (writeFileOutcome formatHeader dir f); [done|].
    rewrite IH. split; [by intros ->|by intros [=]]. }
  exists (startedReader formatHeader dir q), w.
  cbn [queue goroutine startedReader]. rewrite Erun, <- Ho.
  split; [done|]. split; [done|]. split.
  { intros later.
    by rewrite (init_readable formatHeader
                  {| fs_root := fs_root dir; fs_open := later |} d Hroot Hr). }
  split; [done|]. split.
  { unfold archiveEntries. rewrite Hinit. cbn [fst goroutine startedReader].
    by rewrite Erun. }
  split; [done|]. split; [done|]. split; [done|]. split; [by rewrite Ho|]. split.
  { intros Hall. apply (firstRun_entries formatHeader dir q).
    rewrite Erun. f_equal. rewrite Ho. by apply Hiff. }
  intros sizes got t' H.
  destruct (readAll_StillOpen formatHeader sizes
              (startedReader formatHeader dir q)
              (attach (firstRun formatHeader dir q))
              got t' eq_refl eq_refl H) as [p' ->].
  cbn [queue goroutine setReader startedReader]. by rewrite Erun.
Qed.
End ClaimsOnTheArchive.

Lemma archive_follows_the_walk_witness :
  let tree := Dir [("Dockerfile", Leaf Regular); ("gone.txt", Leaf Regular);
                   ("later.txt", Leaf Regular)] None in
  let q := nonDirectories "." tree in
  let full := writtenPaths nameBlockFormat vanishedFS q in
  fs_root vanishedFS = inr tree ∧
  readable tree = true ∧
  q = ["Dockerfile"; "gone.txt"; "later.txt"] ∧
  full = ["Dockerfile"] ∧
  queueOutcome nameBlockFormat vanishedFS q
    = Panicked (ErrNotExist "open" "gone.txt") ∧
  map (λ e, Name e.1) (archiveEntries nameBlockFormat vanishedFS) = ["Dockerfile"] ∧
  ∃ t w,
    init nameBlockFormat (NewTarDirReader vanishedFS) = (t, None) ∧
    queue t = q ∧
    (∀ later,
       queue (init nameBlockFormat
                (NewTarDirReader {| fs_root := fs_root vanishedFS;
                                    fs_open := later |})).1
         = q) ∧
    goroutine t = Some (w, queueOutcome nameBlockFormat vanishedFS q) ∧
    archiveEntries nameBlockFormat vanishedFS = entries w ∧
    map Some (take (length full) (entries w)) = map (entryOf vanishedFS) full ∧
    length (entries w) ≤ length full + 1 ∧
    map (λ e, Name e.1) (entries w) = map Base (take (length (entries w)) q) ∧
    (queueOutcome nameBlockFormat vanishedFS q = Returned ↔ full = q) ∧
    (full = q → map Some (entries w) = map (entryOf vanishedFS) q) ∧
    (∀ sizes got t', readAll nameBlockFormat t sizes = (got, StillOpen t') →
       queue t' = q ∧ goroutine t' = goroutine t).
Proof.
  cbv zeta. split; [reflexivity|]. split; [reflexivity|]. split; [reflexivity|].
  split; [vm_compute; reflexivity|]. split; [vm_compute; reflexivity|].
  split; [vm_compute; reflexivity|].
  apply (archive_follows_the_walk nameBlockFormat vanishedFS
           (Dir [("Dockerfile", Leaf Regular); ("gone.txt", Leaf Regular);
                 ("later.txt", Leaf Regular)] None)).
  - reflexivity.
  - reflexivity.
Defined.

(** C3 as stated fails: two trees that are the same when [init] walks them
    give the same queue, but when a file is removed before the goroutine
    opens it the archive holds fewer entries. *)
Lemma later_changes_change_the_archive :
  fs_root intactFS = fs_root vanishedFS ∧
  queue (init nameBlockFormat (NewTarDirReader intactFS)).1
    = ["Dockerfile"; "gone.txt"; "later.txt"] ∧
  queue (init nameBlockFormat (NewTarDirReader vanishedFS)).1
    = ["Dockerfile"; "gone.txt"; "later.txt"] ∧
  map (λ e, Name e.1) (archiveEntries nameBlockFormat intactFS)
    = ["Dockerfile"; "gone.txt"; "later.txt"] ∧
  map (λ e, Name e.1) (archiveEntries nameBlockFormat vanishedFS)
    = ["Dockerfile"] ∧
  archiveEntries nameBlockFormat intactFS
    ≠ archiveEntries nameBlockFormat vanishedFS.
Proof.
  split; [reflexivity|]. split; [vm_compute; reflexivity|].
  split; [vm_compute; reflexivity|]. split; [vm_compute; reflexivity|].
  split; [vm_compute; reflexivity|].
  intros H. apply (f_equal length) in H. vm_compute in H. discriminate H.
Qed.
